(** * latex16: sanitizer, question extractor and preview renderer

    A shallow embedding of three text transforms of the repository:

    - [sanitizeLatex]  (the PDF route, lines 10-120),
    - [parseQuestions] (components/LatexPreview.tsx, lines 22-165),
    - [formatContent]  (components/LatexPreview.tsx, lines 219-331).

    All three are chains of [String.prototype.replace], [match] and [exec]
    calls on regular-expression literals.  The literals are kept as the
    source writes them: [RegExp.RE] reads a pattern from its source text
    and [RegExp.run] matches it by backtracking, with the continuation
    semantics of ECMA-262 (22.2.2).  A string of the source that holds a
    backslash is written here with the backslash once, as the value has
    it; a pattern is written as it stands between the slashes.

    Strings are lists of code units.  The model covers code units 0..255
    ([ascii]); the white-space and case tables are the Latin-1 part of the
    ECMA-262 ones.

    Around them the development covers the pure steps of their callers:
    the PDF route that calls the sanitizer ([PdfRoute]: the removal of
    solutions, the message built from the compiler's log, the name of the
    download), the solution toggle of the preview ([Preview]), the
    handlers of the question customizer ([Customizer]) and the step of
    the upload route that takes the document out of the model's reply
    ([Upload]).

    Layout: the runtime ([Js], [RegExp], [Number]), the three functions
    ([Sanitizer], [Extractor], [Renderer]), their callers, the definitions
    the properties are stated with ([Shape], [EscapeSpec], [DedupSpec],
    [Language], [Texts]), then lemmas and the properties themselves: the
    ones the specification states first, further ones read off the code
    after them. *)

From Stdlib Require Import String Ascii Bool Arith PeanoNat NArith ZArith Lia List.
From Stdlib Require Import Sorting.Sorted.
From Stdlib Require Import Floats.SpecFloat.
Import ListNotations.

Set Implicit Arguments.

(* ===================================================================== *)
(** ** Strings as the program sees them *)
(* ===================================================================== *)

Module Js.

Definition jsstring := list ascii.

(** A string literal of the source. *)
Definition str (s : string) : jsstring := list_ascii_of_string s.

Definition LF : ascii := ascii_of_nat 10.
Definition CR : ascii := ascii_of_nat 13.
Definition TAB : ascii := ascii_of_nat 9.
Definition DQ : ascii := ascii_of_nat 34.
Definition BSL : ascii := "\"%char.

Definition code (c : ascii) : nat := nat_of_ascii c.

Definition between (lo hi : nat) (c : ascii) : bool :=
  (lo <=? code c) && (code c <=? hi).

(** WhiteSpace and LineTerminator of ECMA-262 (12.2, 12.3), code units
    below 256: TAB, LF, VT, FF, CR, SP, NBSP. *)
Definition isLineTerminator (c : ascii) : bool :=
  (code c =? 10) || (code c =? 13).

Definition isWhiteSpace (c : ascii) : bool :=
  between 9 13 c || (code c =? 32) || (code c =? 160).

Definition isDigit (c : ascii) : bool := between 48 57 c.

Definition isWordChar (c : ascii) : bool :=
  between 97 122 c || between 65 90 c || isDigit c || (code c =? 95).

(** [toLowerCase] / [toUpperCase] on one code unit (Latin-1 table). *)
Definition lowerChar (c : ascii) : ascii :=
  if between 65 90 c || (between 192 222 c && negb (code c =? 215))
  then ascii_of_nat (code c + 32) else c.

Definition upperChar (c : ascii) : ascii :=
  if between 97 122 c || (between 224 254 c && negb (code c =? 247))
  then ascii_of_nat (code c - 32) else c.

Definition toLowerCase (s : jsstring) : jsstring := map lowerChar s.

Fixpoint eqs (a b : jsstring) : bool :=
  match a, b with
  | [], [] => true
  | x :: a', y :: b' => Ascii.eqb x y && eqs a' b'
  | _, _ => false
  end.

(** [startsWith p s] : [p] is a prefix of [s]. *)
Fixpoint startsWith (p s : jsstring) : bool :=
  match p, s with
  | [], _ => true
  | x :: p', y :: s' => Ascii.eqb x y && startsWith p' s'
  | _ :: _, [] => false
  end.

(** [s.indexOf(p)] : [None] stands for -1. *)
Fixpoint indexOf (p s : jsstring) : option nat :=
  if startsWith p s then Some 0
  else match s with
       | [] => None
       | _ :: s' => option_map S (indexOf p s')
       end.

Definition includes (s p : jsstring) : bool :=
  match indexOf p s with Some _ => true | None => false end.

(** [s.substring(i)] and [s.substring(0, n)]. *)
Definition substringFrom (i : nat) (s : jsstring) : jsstring := skipn i s.
Definition substringTo (n : nat) (s : jsstring) : jsstring := firstn n s.

Fixpoint trimStart (s : jsstring) : jsstring :=
  match s with
  | c :: s' => if isWhiteSpace c then trimStart s' else s
  | [] => []
  end.

Definition trimEnd (s : jsstring) : jsstring := rev (trimStart (rev s)).

Definition trim (s : jsstring) : jsstring := trimEnd (trimStart s).

(** [s.split(sep)] for a non-empty separator: the pieces between
    successive occurrences, scanned left to right. *)
Fixpoint split_aux (sep : jsstring) (skip : nat) (cur : jsstring) (s : jsstring)
  : list jsstring :=
  match s with
  | [] => [rev cur]
  | c :: s' =>
      match skip with
      | S k => split_aux sep k cur s'
      | 0 => if startsWith sep s
             then rev cur :: split_aux sep (length sep - 1) [] s'
             else split_aux sep 0 (c :: cur) s'
      end
  end.

Definition split (sep s : jsstring) : list jsstring := split_aux sep 0 [] s.

Fixpoint join (sep : jsstring) (l : list jsstring) : jsstring :=
  match l with
  | [] => []
  | [x] => x
  | x :: l' => x ++ sep ++ join sep l'
  end.

(** Decimal digits of a natural number ([String(n)] for a small integer). *)
Fixpoint digits_aux (fuel : nat) (n : nat) (acc : jsstring) : jsstring :=
  match fuel with
  | 0 => acc
  | S f =>
      let d := ascii_of_nat (48 + n mod 10) in
      if n <? 10 then d :: acc else digits_aux f (n / 10) (d :: acc)
  end.

Definition ofNat (n : nat) : jsstring := digits_aux (S n) n [].

End Js.
Import Js.

(* ===================================================================== *)
(** ** Regular expressions *)
(* ===================================================================== *)

Module RegExp.

(** Members of a character class. *)
Inductive citem :=
| CChar (c : ascii)
| CRange (lo hi : ascii)
| CSpace (neg : bool)     (* \s  \S *)
| CDigit (neg : bool)     (* \d  \D *)
| CWord (neg : bool).     (* \w  \W *)

(** Abstract syntax of the patterns the program uses.  A non-capturing
    group leaves no node.  A look-behind holds one character class, which
    is the only form the source writes ([(?<!\\)]). *)
Inductive ast :=
| Empty
| Chr (c : ascii)
| Any
| Class (neg : bool) (items : list citem)
| Seq (r1 r2 : ast)
| Alt (r1 r2 : ast)
| Repeat (r : ast) (lo : nat) (hi : option nat) (greedy : bool)
| Group (i : nat) (r : ast)
| Backref (i : nat)
| Ahead (neg : bool) (r : ast)
| Behind (neg : bool) (cneg : bool) (items : list citem)
| Bol
| Eol
| Invalid.

(** *** Parsing a pattern *)

Definition isc (c : ascii) (s : string) : bool :=
  match s with
  | String d EmptyString => Ascii.eqb c d
  | _ => false
  end.

Definition syntaxChar (c : ascii) : bool :=
  isc c "^" || isc c "$" || isc c "\" || isc c "." || isc c "*" || isc c "+"
  || isc c "?" || isc c "(" || isc c ")" || isc c "[" || isc c "]" || isc c "{"
  || isc c "}" || isc c "|".

Definition isLetter (c : ascii) : bool := between 97 122 c || between 65 90 c.

(** The class or character an escape [\c] denotes; [None] for an escape
    the model does not cover. *)
Definition escapeItem (c : ascii) : option citem :=
  if isc c "s" then Some (CSpace false)
  else if isc c "S" then Some (CSpace true)
  else if isc c "d" then Some (CDigit false)
  else if isc c "D" then Some (CDigit true)
  else if isc c "w" then Some (CWord false)
  else if isc c "W" then Some (CWord true)
  else if isc c "n" then Some (CChar LF)
  else if isc c "r" then Some (CChar CR)
  else if isc c "t" then Some (CChar TAB)
  else if isc c "v" then Some (CChar (ascii_of_nat 11))
  else if isc c "f" then Some (CChar (ascii_of_nat 12))
  else if isc c "0" then Some (CChar (ascii_of_nat 0))
  else if isLetter c || isDigit c then None
  else Some (CChar c).

Definition atomOfItem (i : citem) : ast :=
  match i with
  | CChar c => Chr c
  | _ => Class false [i]
  end.

(** Items of a class body, up to the closing bracket. *)
Fixpoint parseClassItems (fuel : nat) (s : jsstring) (acc : list citem)
  : option (list citem * jsstring) :=
  match fuel with
  | 0 => None
  | S f =>
      match s with
      | [] => None
      | c :: rest =>
          if isc c "]" then Some (rev acc, rest)
          else
            let one :=
              if isc c "\" then
                match rest with
                | e :: rest' =>
                    match escapeItem e with
                    | Some i => Some (i, rest')
                    | None => None
                    end
                | [] => None
                end
              else Some (CChar c, rest) in
            match one with
            | None => None
            | Some (CChar lo, d :: h :: rest2) =>
                if isc d "-" && negb (isc h "]") && negb (isc h "\")
                then parseClassItems f rest2 (CRange lo h :: acc)
                else parseClassItems f (d :: h :: rest2) (CChar lo :: acc)
            | Some (i, rest1) => parseClassItems f rest1 (i :: acc)
            end
      end
  end.

Definition parseClass (s : jsstring) : option (ast * jsstring) :=
  let (neg, body) :=
    match s with
    | c :: rest => if isc c "^" then (true, rest) else (false, s)
    | [] => (false, s)
    end in
  match parseClassItems (S (length body)) body [] with
  | Some (items, rest) => Some (Class neg items, rest)
  | None => None
  end.

Fixpoint parseNat (s : jsstring) (acc : option nat) : option nat * jsstring :=
  match s with
  | c :: rest =>
      if isDigit c
      then parseNat rest (Some (10 * match acc with Some a => a | None => 0 end
                                + (code c - 48)))
      else (acc, s)
  | [] => (acc, s)
  end.

(** A quantifier after an atom, with its optional lazy mark. *)
Definition parseQuantifier (r : ast) (s : jsstring) : option (ast * jsstring) :=
  let lazy lo hi rest :=
    match rest with
    | q :: rest' =>
        if isc q "?" then Some (Repeat r lo hi false, rest')
        else Some (Repeat r lo hi true, rest)
    | [] => Some (Repeat r lo hi true, rest)
    end in
  match s with
  | c :: rest =>
      if isc c "*" then lazy 0 None rest
      else if isc c "+" then lazy 1 None rest
      else if isc c "?" then lazy 0 (Some 1) rest
      else if isc c "{" then
        match parseNat rest None with
        | (Some lo, d :: rest1) =>
            if isc d "}" then lazy lo (Some lo) rest1
            else if isc d "," then
              match parseNat rest1 None with
              | (hi, e :: rest2) => if isc e "}" then lazy lo hi rest2 else None
              | _ => None
              end
            else None
        | _ => None
        end
      else Some (r, s)
  | [] => Some (r, s)
  end.

Definition expectClose (s : jsstring) : option jsstring :=
  match s with
  | c :: rest => if isc c ")" then Some rest else None
  | [] => None
  end.

(** Disjunction, Alternative and Term of the ECMA-262 pattern grammar.
    [gi] is the number of capturing groups opened so far. *)
Fixpoint parseDisj (fuel gi : nat) (s : jsstring) {struct fuel}
  : option (ast * nat * jsstring) :=
  match fuel with
  | 0 => None
  | S f =>
      match parseAlt f gi s with
      | Some (r1, gi1, c :: rest) =>
          if isc c "|" then
            match parseDisj f gi1 rest with
            | Some (r2, gi2, rest2) => Some (Alt r1 r2, gi2, rest2)
            | None => None
            end
          else Some (r1, gi1, c :: rest)
      | other => other
      end
  end
with parseAlt (fuel gi : nat) (s : jsstring) {struct fuel}
  : option (ast * nat * jsstring) :=
  match fuel with
  | 0 => None
  | S f =>
      match s with
      | [] => Some (Empty, gi, s)
      | c :: _ =>
          if isc c "|" || isc c ")" then Some (Empty, gi, s)
          else
            match parseTerm f gi s with
            | Some (t, gi1, rest) =>
                match parseAlt f gi1 rest with
                | Some (Empty, gi2, rest2) => Some (t, gi2, rest2)
                | Some (r, gi2, rest2) => Some (Seq t r, gi2, rest2)
                | None => None
                end
            | None => None
            end
      end
  end
with parseTerm (fuel gi : nat) (s : jsstring) {struct fuel}
  : option (ast * nat * jsstring) :=
  let quantified (x : option (ast * jsstring)) (g : nat) :=
    match x with
    | Some (r, rest) =>
        match parseQuantifier r rest with
        | Some (q, rest') => Some (q, g, rest')
        | None => None
        end
    | None => None
    end in
  match fuel with
  | 0 => None
  | S f =>
      match s with
      | [] => None
      | c :: rest =>
          if isc c "^" then Some (Bol, gi, rest)
          else if isc c "$" then Some (Eol, gi, rest)
          else if isc c "." then quantified (Some (Any, rest)) gi
          else if isc c "[" then quantified (parseClass rest) gi
          else if isc c "\" then
            match rest with
            | e :: rest' =>
                if between 49 57 e
                then quantified (Some (Backref (code e - 48), rest')) gi
                else match escapeItem e with
                     | Some i => quantified (Some (atomOfItem i, rest')) gi
                     | None => None
                     end
            | [] => None
            end
          else if isc c "(" then
            if startsWith (str "?=") rest || startsWith (str "?!") rest then
              match parseDisj f gi (skipn 2 rest) with
              | Some (r, gi1, rest1) =>
                  match expectClose rest1 with
                  | Some rest2 =>
                      Some (Ahead (startsWith (str "?!") rest) r, gi1, rest2)
                  | None => None
                  end
              | None => None
              end
            else if startsWith (str "?<=") rest || startsWith (str "?<!") rest then
              match parseTerm f gi (skipn 3 rest) with
              | Some (Chr x, _, rest1) =>
                  match expectClose rest1 with
                  | Some rest2 =>
                      Some (Behind (startsWith (str "?<!") rest) false [CChar x],
                            gi, rest2)
                  | None => None
                  end
              | Some (Class n items, _, rest1) =>
                  match expectClose rest1 with
                  | Some rest2 =>
                      Some (Behind (startsWith (str "?<!") rest) n items, gi, rest2)
                  | None => None
                  end
              | _ => None
              end
            else if startsWith (str "?:") rest then
              match parseDisj f gi (skipn 2 rest) with
              | Some (r, gi1, rest1) =>
                  quantified (option_map (pair r) (expectClose rest1)) gi1
              | None => None
              end
            else if startsWith (str "?") rest then None
            else
              match parseDisj f (S gi) rest with
              | Some (r, gi1, rest1) =>
                  quantified (option_map (pair (Group (S gi) r)) (expectClose rest1)) gi1
              | None => None
              end
          else if syntaxChar c then None
          else quantified (Some (Chr c, rest)) gi
      end
  end.

(** The pattern of a literal; [Invalid] when the text is not covered. *)
Definition parse (src : string) : ast :=
  let s := str src in
  match parseDisj (3 * length s + 3) 0 s with
  | Some (r, _, []) => r
  | _ => Invalid
  end.

Fixpoint wellFormed (r : ast) : bool :=
  match r with
  | Invalid => false
  | Seq a b | Alt a b => wellFormed a && wellFormed b
  | Repeat a _ _ _ | Group _ a | Ahead _ a => wellFormed a
  | _ => true
  end.


(** *** Matching

    The matcher threads a continuation, as the RegExp semantics of
    ECMA-262 does: [run r k st] matches [r] at [st] and hands the state
    reached to [k]; [None] is failure and makes the caller backtrack. *)

Record flags := { ignoreCase : bool; multiline : bool }.

(** A position in the input: the code units before it (nearest first),
    the code units after it, and the captures made so far. *)
Record mstate := {
  before : jsstring;
  after : jsstring;
  caps : list (nat * jsstring)
}.

Fixpoint getCap (i : nat) (cs : list (nat * jsstring)) : option jsstring :=
  match cs with
  | [] => None
  | (j, s) :: cs' => if i =? j then Some s else getCap i cs'
  end.

Definition setCap (i : nat) (s : jsstring) (st : mstate) : mstate :=
  {| before := before st; after := after st; caps := (i, s) :: caps st |}.

Definition clearCaps (gs : list nat) (st : mstate) : mstate :=
  {| before := before st; after := after st;
     caps := filter (fun p => negb (existsb (Nat.eqb (fst p)) gs)) (caps st) |}.

Fixpoint groupsOf (r : ast) : list nat :=
  match r with
  | Seq a b | Alt a b => groupsOf a ++ groupsOf b
  | Repeat a _ _ _ | Ahead _ a => groupsOf a
  | Group i a => i :: groupsOf a
  | _ => []
  end.

Definition groupCount (r : ast) : nat := fold_right Nat.max 0 (groupsOf r).

(** The text consumed between two states of one match. *)
Definition consumed (st st' : mstate) : jsstring :=
  rev (firstn (length (before st') - length (before st)) (before st')).

Section Matcher.

Variable fl : flags.

(** Canonicalize (22.2.5.6), non-unicode mode. *)
Definition canon (c : ascii) : ascii :=
  if ignoreCase fl then upperChar c else c.

Definition inItem (c : ascii) (i : citem) : bool :=
  match i with
  | CChar x => Ascii.eqb (canon x) (canon c)
  | CRange lo hi =>
      between (code lo) (code hi) c
      || (ignoreCase fl
          && (between (code lo) (code hi) (upperChar c)
              || between (code lo) (code hi) (lowerChar c)))
  | CSpace neg => xorb neg (isWhiteSpace c)
  | CDigit neg => xorb neg (isDigit c)
  | CWord neg => xorb neg (isWordChar c)
  end.

Definition inClass (neg : bool) (items : list citem) (c : ascii) : bool :=
  xorb neg (existsb (inItem c) items).

Definition step (p : ascii -> bool) (k : mstate -> option mstate) (st : mstate)
  : option mstate :=
  match after st with
  | c :: rest =>
      if p c
      then k {| before := c :: before st; after := rest; caps := caps st |}
      else None
  | [] => None
  end.

(** A back-reference compares its capture with the input, unit by unit. *)
Fixpoint stepAll (s : jsstring) (k : mstate -> option mstate) (st : mstate)
  : option mstate :=
  match s with
  | [] => k st
  | x :: s' => step (fun c => Ascii.eqb (canon c) (canon x)) (stepAll s' k) st
  end.

Definition atLineStart (st : mstate) : bool :=
  match before st with
  | [] => true
  | c :: _ => multiline fl && isLineTerminator c
  end.

Definition atLineEnd (st : mstate) : bool :=
  match after st with
  | [] => true
  | c :: _ => multiline fl && isLineTerminator c
  end.

Definition isZero (o : option nat) : bool :=
  match o with Some 0 => true | _ => false end.

(** RepeatMatcher (22.2.2.3.1) for a body matcher [m] whose groups are
    [gs].  [fuel] bounds the iterations; the caller gives the mandatory
    ones plus one per code unit left, and an iteration past the mandatory
    ones that consumes nothing is rejected, so the bound is never reached
    (lemma [run_repeat_fuel] below). *)
Fixpoint repeatMatcher
  (m : (mstate -> option mstate) -> mstate -> option mstate) (gs : list nat)
  (greedy : bool) (k : mstate -> option mstate)
  (fuel lo : nat) (hi : option nat) (st : mstate) {struct fuel} : option mstate :=
  match fuel with
  | 0 => if lo =? 0 then k st else None
  | S f =>
      if isZero hi then k st
      else
        let again (_ : unit) :=
          m (fun st' =>
               if (lo =? 0) && (length (after st') =? length (after st))
               then None
               else repeatMatcher m gs greedy k f (pred lo) (option_map pred hi) st')
            (clearCaps gs st) in
        if 0 <? lo then again tt
        else if greedy then
          match again tt with
          | Some res => Some res
          | None => k st
          end
        else
          match k st with
          | Some res => Some res
          | None => again tt
          end
  end.

Fixpoint run (r : ast) (k : mstate -> option mstate) (st : mstate) {struct r}
  : option mstate :=
  match r with
  | Empty => k st
  | Chr c => step (fun x => Ascii.eqb (canon x) (canon c)) k st
  | Any => step (fun x => negb (isLineTerminator x)) k st
  | Class neg items => step (inClass neg items) k st
  | Seq a b => run a (run b k) st
  | Alt a b =>
      match run a k st with
      | Some res => Some res
      | None => run b k st
      end
  | Repeat a lo hi greedy =>
      repeatMatcher (run a) (groupsOf a) greedy k
                    (lo + S (length (after st))) lo hi st
  | Group i a => run a (fun st' => k (setCap i (consumed st st') st')) st
  | Backref i =>
      match getCap i (caps st) with
      | None => k st
      | Some s => stepAll s k st
      end
  | Ahead neg a =>
      match run a Some st with
      | Some st' =>
          if neg then None
          else k {| before := before st; after := after st; caps := caps st' |}
      | None => if neg then k st else None
      end
  | Behind neg cneg items =>
      let found :=
        match before st with
        | c :: _ => inClass cneg items c
        | [] => false
        end in
      if xorb neg found then k st else None
  | Bol => if atLineStart st then k st else None
  | Eol => if atLineEnd st then k st else None
  | Invalid => None
  end.

End Matcher.

(** *** RegExp objects and match results *)

Record t := {
  pattern : ast;
  global : bool;
  fl : flags
}.

(** The literal [/src/flags]. *)
Definition RE (src flagChars : string) : t :=
  let f := str flagChars in
  {| pattern := parse src;
     global := existsb (fun c => isc c "g") f;
     fl := {| ignoreCase := existsb (fun c => isc c "i") f;
              multiline := existsb (fun c => isc c "m") f |} |}.

(** A match result: [index], the matched text (element 0 of the array),
    the capture groups 1..n ([None] is [undefined]) and [input]. *)
Record Match := {
  index : nat;
  matched : jsstring;
  groups : list (option jsstring);
  input : jsstring
}.

(** Element [i] of a match array. *)
Definition group (i : nat) (m : Match) : option jsstring :=
  match i with
  | 0 => Some (matched m)
  | S j => nth j (groups m) None
  end.

(** One attempt at the position that has [pre] before and [suf] after. *)
Definition matchAt (re : t) (pre suf : jsstring) : option Match :=
  let st := {| before := pre; after := suf; caps := [] |} in
  match run (fl re) (pattern re) Some st with
  | Some st' =>
      Some {| index := length pre;
              matched := consumed st st';
              groups := map (fun i => getCap i (caps st'))
                            (seq 1 (groupCount (pattern re)));
              input := rev pre ++ suf |}
  | None => None
  end.

(** The first match at or after the current position. *)
Fixpoint search (re : t) (pre suf : jsstring) : option Match :=
  match matchAt re pre suf with
  | Some m => Some m
  | None =>
      match suf with
      | [] => None
      | c :: suf' => search re (c :: pre) suf'
      end
  end.

(** RegExpBuiltinExec from [lastIndex]. *)
Definition execFrom (re : t) (s : jsstring) (lastIndex : nat) : option Match :=
  if length s <? lastIndex then None
  else search re (rev (firstn lastIndex s)) (skipn lastIndex s).

(** Every match of a global pattern, left to right, as [replace] and
    [match] collect them: the search resumes at the end of a match, one
    code unit further when the match is empty. *)
Fixpoint matchAll_aux (re : t) (pre suf : jsstring) (skip : nat) : list Match :=
  match skip with
  | S k =>
      match suf with
      | [] => []
      | c :: suf' => matchAll_aux re (c :: pre) suf' k
      end
  | 0 =>
      match matchAt re pre suf with
      | Some m =>
          m :: match suf with
               | [] => []
               | c :: suf' => matchAll_aux re (c :: pre) suf' (pred (length (matched m)))
               end
      | None =>
          match suf with
          | [] => []
          | c :: suf' => matchAll_aux re (c :: pre) suf' 0
          end
      end
  end.

Definition matchAll (re : t) (s : jsstring) : list Match :=
  matchAll_aux re [] s 0.

(** The matches [replace] acts on: all of them for a global pattern,
    the first one otherwise. *)
Definition matchesOf (re : t) (s : jsstring) : list Match :=
  if global re then matchAll re s
  else match search re [] s with Some m => [m] | None => [] end.

(** [s.match(re)]: [None] is [null].  A global pattern yields the matched
    texts, any other the first match. *)
Definition matchFirst (re : t) (s : jsstring) : option Match := search re [] s.

Definition matchGlobal (re : t) (s : jsstring) : option (list jsstring) :=
  match matchAll re s with
  | [] => None
  | ms => Some (map matched ms)
  end.

Definition test (re : t) (s : jsstring) : bool :=
  match search re [] s with Some _ => true | None => false end.

(** *** Replacement *)

Definition groupText (n : nat) (m : Match) : jsstring :=
  match group n m with Some s => s | None => [] end.

(** GetSubstitution (22.1.3.19.1): the [$] forms of a replacement string. *)
Fixpoint getSubstitution (m : Match) (rep : jsstring) {struct rep} : jsstring :=
  match rep with
  | [] => []
  | c :: rest =>
      if negb (isc c "$") then c :: getSubstitution m rest
      else
        match rest with
        | [] => [c]
        | d :: rest1 =>
            let n1 := code d - 48 in
            let one (_ : unit) :=
              if (1 <=? n1) && (n1 <=? length (groups m))
              then groupText n1 m ++ getSubstitution m rest1
              else c :: getSubstitution m rest in
            if isc d "$" then d :: getSubstitution m rest1
            else if isc d "&" then matched m ++ getSubstitution m rest1
            else if isc d "`" then firstn (index m) (input m) ++ getSubstitution m rest1
            else if isc d "'" then
              skipn (index m + length (matched m)) (input m) ++ getSubstitution m rest1
            else if isDigit d then
              match rest1 with
              | e :: rest2 =>
                  let n2 := 10 * n1 + (code e - 48) in
                  if isDigit e && (1 <=? n2) && (n2 <=? length (groups m))
                  then groupText n2 m ++ getSubstitution m rest2
                  else one tt
              | [] => one tt
              end
            else c :: getSubstitution m rest
        end
  end.

(** The result string: the input with each match replaced by its text. *)
Fixpoint splice (s : jsstring) (pos : nat) (ms : list (Match * jsstring))
  : jsstring :=
  match ms with
  | [] => skipn pos s
  | (m, r) :: ms' =>
      firstn (index m - pos) (skipn pos s) ++ r
      ++ splice s (index m + length (matched m)) ms'
  end.

(** [s.replace(re, rep)] with a replacement string. *)
Definition replace (re : t) (rep : jsstring) (s : jsstring) : jsstring :=
  splice s 0 (map (fun m => (m, getSubstitution m rep)) (matchesOf re s)).

(** [s.replace(re, f)] with a replacer function.  The function is called
    once per match, in order; [A] is the state it closes over. *)
Fixpoint callEach {A : Type} (f : A -> Match -> A * jsstring) (a : A)
  (ms : list Match) : A * list (Match * jsstring) :=
  match ms with
  | [] => (a, [])
  | m :: ms' =>
      let (a1, r) := f a m in
      let (a2, rs) := callEach f a1 ms' in
      (a2, (m, r) :: rs)
  end.

Definition replaceWith {A : Type} (re : t) (f : A -> Match -> A * jsstring)
  (a : A) (s : jsstring) : A * jsstring :=
  let (a', rs) := callEach f a (matchesOf re s) in
  (a', splice s 0 rs).

(** [s.replace(pat, rep)] with a string pattern: the first occurrence
    only; the replacement still goes through GetSubstitution. *)
Definition replaceStr (pat rep : jsstring) (s : jsstring) : jsstring :=
  match indexOf pat s with
  | None => s
  | Some i =>
      let m := {| index := i; matched := pat; groups := []; input := s |} in
      firstn i s ++ getSubstitution m rep ++ skipn (i + length pat) s
  end.

End RegExp.

(* ===================================================================== *)
(** ** Numbers *)
(* ===================================================================== *)

(** Number values are IEEE 754 binary64, taken from the Standard Library's
    specification of floating-point arithmetic ([SpecFloat]): every
    operation rounds to the nearest double, ties to even, and goes to an
    infinity beyond the range.  [toString] is Number::toString
    (6.1.6.1.20) for radix 10: the shortest decimal that reads back as the
    same double.  It covers finite values from 1e-6 up to 2^53, where the
    result has no exponent part; the products the sanitizer prints lie
    between 0.6 and 4. *)
Module Number.

Definition double := spec_float.

(** The Number value of a mathematical integer. *)
Definition ofZ (z : Z) : double := binary_normalize 53 1024 z 0 false.
Definition ofNat (n : nat) : double := ofZ (Z.of_nat n).

Definition zero : double := S754_zero false.
Definition nan : double := S754_nan.

Definition mul (a b : double) : double := SFmul 53 1024 a b.

(** [-a], [a - b] and [a < b]. *)
Definition opp (a : double) : double := SFopp a.
Definition sub (a b : double) : double := SFsub 53 1024 a b.
Definition ltb (a b : double) : bool := SFltb a b.

(** [isNaN(a)] *)
Definition isNaN (a : double) : bool :=
  match a with
  | S754_nan => true
  | _ => false
  end.

(** SameValueZero (7.2.12), the equality of the keys of a [Map]: NaN is
    equal to NaN and the two zeros are equal. *)
Definition sameValueZero (a b : double) : bool :=
  match a, b with
  | S754_nan, S754_nan => true
  | _, _ => SFeqb a b
  end.

(** The double a decimal literal [num/den] denotes, e.g. [0.15] is
    [literal 15 100]: the quotient of two exact integers, rounded once. *)
Definition literal (num den : Z) : double := SFdiv 53 1024 (ofZ num) (ofZ den).

(** [Math.min] of two numbers. *)
Definition min (a b : double) : double :=
  match a, b with
  | S754_nan, _ | _, S754_nan => S754_nan
  | _, _ => if SFltb a b then a else b
  end.

Fixpoint digitsZ (fuel : nat) (z : Z) (acc : jsstring) : jsstring :=
  match fuel with
  | 0 => acc
  | S f =>
      let d := ascii_of_nat (48 + Z.to_nat (z mod 10)) in
      if (z <? 10)%Z then d :: acc else digitsZ f (z / 10) (d :: acc)
  end.

Definition decimal (z : Z) : jsstring := digitsZ (S (Z.to_nat (Z.log2 z))) z [].

(** [d / 10^j] reads back as [m * 2^(-E)]: it lies within half a unit in
    the last place, the bounds included when [m] is even. *)
Definition readsBack (m E d : Z) (j : nat) : bool :=
  let p := (10 ^ Z.of_nat j)%Z in
  let x := (4 * m * p)%Z in
  let y := (d * 2 ^ (E + 2))%Z in
  let up := (2 * p)%Z in
  let down := if (m =? 2 ^ 52)%Z then p else (2 * p)%Z in
  if Z.even m
  then ((x - down <=? y) && (y <=? x + up))%Z
  else ((x - down <? y) && (y <? x + up))%Z.

(** The integer nearest to [m * 10^j / 2^E], ties to even. *)
Definition nearest (m E : Z) (j : nat) : Z :=
  let n := (m * 10 ^ Z.of_nat j)%Z in
  let q := (n / 2 ^ E)%Z in
  let r := (n mod 2 ^ E)%Z in
  if (2 ^ E <? 2 * r)%Z || ((2 ^ E =? 2 * r)%Z && Z.odd q) then (q + 1)%Z else q.

(** [d] written with [j] digits after the point. *)
Definition fixed (d : Z) (j : nat) : jsstring :=
  let ds := decimal d in
  let ds := repeat (ascii_of_nat 48) (S j - length ds) ++ ds in
  let n := length ds - j in
  match j with
  | 0 => ds
  | _ => firstn n ds ++ str "." ++ skipn n ds
  end.

Fixpoint shortest (fuel : nat) (m E : Z) (j : nat) : jsstring :=
  let d := nearest m E j in
  match fuel with
  | 0 => fixed d j
  | S f => if readsBack m E d j then fixed d j else shortest f m E (S j)
  end.

Definition toString (x : double) : jsstring :=
  match x with
  | S754_zero _ => str "0"
  | S754_nan => str "NaN"
  | S754_infinity s => (if s then str "-" else []) ++ str "Infinity"
  | S754_finite s m e =>
      (if s then str "-" else [])
      ++ (if (0 <? e)%Z then decimal (Zpos m * 2 ^ e)
          else shortest 24 (Zpos m) (- e) 0)
  end.

End Number.

(* ===================================================================== *)
(** ** The sanitizer *)
(* ===================================================================== *)

Module Sanitizer.
Import RegExp.

(** A sparse array of strings ([mathBlocks], [verbatimBlocks]) and an
    object used as a dictionary ([commentLines]): the latest write of a
    key is the one read. *)
Definition sparse := list (nat * jsstring).

Fixpoint aget (i : nat) (a : sparse) : option jsstring :=
  match a with
  | [] => None
  | (j, v) :: a' => if i =? j then Some v else aget i a'
  end.

Definition dict := list (jsstring * jsstring).

Fixpoint dget (key : jsstring) (d : dict) : option jsstring :=
  match d with
  | [] => None
  | (k, v) :: d' => if eqs key k then Some v else dget key d'
  end.

(** [if (x)] on a string that may be [undefined]. *)
Definition truthy (o : option jsstring) : option jsstring :=
  match o with
  | Some (c :: s) => Some (c :: s)
  | _ => None
  end.

(** The variables the replacer callbacks close over. *)
Record blocks := {
  counter : nat;
  mathBlocks : sparse;
  verbatimBlocks : sparse
}.

Record comments := {
  commentCounter : nat;
  commentLines : dict
}.

Definition mathPlaceholder (i : nat) : jsstring := str "MATHBLOCK" ++ ofNat i.
Definition verbPlaceholder (i : nat) : jsstring := str "VERBBLOCK" ++ ofNat i.
Definition commentPlaceholder (i : nat) : jsstring := str "LATEXCOMMENT" ++ ofNat i.

(** Lines 28-33, 36-41 and 44-49: the callback of the three math passes. *)
Definition stashMath (b : blocks) (m : Match) : blocks * jsstring :=
  let placeholder := mathPlaceholder (counter b) in
  ({| counter := S (counter b);
      mathBlocks := (counter b, matched m) :: mathBlocks b;
      verbatimBlocks := verbatimBlocks b |}, placeholder).

(** Lines 52-57. *)
Definition stashVerb (b : blocks) (m : Match) : blocks * jsstring :=
  let placeholder := verbPlaceholder (counter b) in
  ({| counter := S (counter b);
      mathBlocks := mathBlocks b;
      verbatimBlocks := (counter b, matched m) :: verbatimBlocks b |}, placeholder).

(** Lines 62-67. *)
Definition stashComment (c : comments) (m : Match) : comments * jsstring :=
  let placeholder := commentPlaceholder (commentCounter c) in
  ({| commentCounter := S (commentCounter c);
      commentLines := (placeholder, matched m) :: commentLines c |}, placeholder).

(** Lines 13-19: legacy [enumerate] options. *)
Definition fixEnumerate (s : jsstring) : jsstring :=
  let s := replace (RE "\\begin\{enumerate\}\[\(a\)\]" "g")
                   (str "\begin{enumerate}[label=(\alph*)]") s in
  let s := replace (RE "\\begin\{enumerate\}\[\(i\)\]" "g")
                   (str "\begin{enumerate}[label=(\roman*)]") s in
  let s := replace (RE "\\begin\{enumerate\}\[\(1\)\]" "g")
                   (str "\begin{enumerate}[label=(\arabic*)]") s in
  let s := replace (RE "\\begin\{enumerate\}\[a\)\]" "g")
                   (str "\begin{enumerate}[label=\alph*)]") s in
  replace (RE "\\begin\{enumerate\}\[1\)\]" "g")
          (str "\begin{enumerate}[label=\arabic*)]") s.

(** Lines 23-67: protected spans are swapped for placeholders. *)
Definition protect (s : jsstring) : blocks * comments * jsstring :=
  let b := {| counter := 0; mathBlocks := []; verbatimBlocks := [] |} in
  let (b, s) := replaceWith (RE "\$([^$]+)\$" "g") stashMath b s in
  let (b, s) := replaceWith (RE "\\\[([^\]]+)\\\]" "g") stashMath b s in
  let (b, s) := replaceWith (RE "\$\$([\s\S]+?)\$\$" "g") stashMath b s in
  let (b, s) := replaceWith (RE "\\verb([^a-zA-Z])(.+?)\1" "g") stashVerb b s in
  let c := {| commentCounter := 0; commentLines := [] |} in
  let (c, s) := replaceWith (RE "^[ \t]*%.*" "gm") stashComment c s in
  (b, c, s).

(** Lines 70-74: bare special characters. *)
Definition escapeSpecials (s : jsstring) : jsstring :=
  let s := replace (RE "(?<!\\)_(?![_\s])" "g") (str "\_") s in
  let s := replace (RE "(?<!\\)&" "g") (str "\&") s in
  let s := replace (RE "(?<!\\)%" "g") (str "\%") s in
  let s := replace (RE "(?<!\\)#" "g") (str "\#") s in
  replace (RE "(?<!\\)\^" "g") (str "\^{}") s.

(** [Math.min(match.length * k, 4)] printed inside the blank construct. *)
Definition blank (k : Number.double) (m : Match) : jsstring :=
  let length :=
    Number.min (Number.mul (Number.ofNat (List.length (matched m))) k)
               (Number.ofNat 4) in
  str "\underline{\hspace{" ++ Number.toString length ++ str "cm}}".

(** Lines 78-87: runs of underscores. *)
Definition collapseBlanks (s : jsstring) : jsstring :=
  let s := snd (replaceWith (RE "(\\_){2,}" "g")
                  (fun (_ : unit) m => (tt, blank (Number.literal 15 100) m)) tt s) in
  snd (replaceWith (RE "_{2,}" "g")
         (fun (_ : unit) m => (tt, blank (Number.literal 3 10) m)) tt s).

(** Lines 90-97: the loop body runs for [i = n-1] down to [0]. *)
Fixpoint restoreBlocks (b : blocks) (n : nat) (s : jsstring) : jsstring :=
  match n with
  | 0 => s
  | S i =>
      let s :=
        match truthy (aget i (mathBlocks b)) with
        | Some v => replaceStr (mathPlaceholder i) v s
        | None => s
        end in
      let s :=
        match truthy (aget i (verbatimBlocks b)) with
        | Some v => replaceStr (verbPlaceholder i) v s
        | None => s
        end in
      restoreBlocks b i s
  end.

(** Lines 100-105. *)
Fixpoint restoreComments (c : comments) (n : nat) (s : jsstring) : jsstring :=
  match n with
  | 0 => s
  | S i =>
      let placeholder := commentPlaceholder i in
      let s :=
        match truthy (dget placeholder (commentLines c)) with
        | Some v => replaceStr placeholder v s
        | None => s
        end in
      restoreComments c i s
  end.

(** Lines 108-110. *)
Definition tidy (s : jsstring) : jsstring :=
  let s := replace (RE "\\\\" "g") (str "\\") s in
  let s := replace (RE "\\textbf\s*\{" "g") (str "\textbf{") s in
  replace (RE "\\textit\s*\{" "g") (str "\textit{") s.

(** [x || []] for what [match] returned ([None] is [null]). *)
Definition orEmpty (x : option (list jsstring)) : option (list jsstring) :=
  match x with
  | Some l => Some l
  | None => Some []
  end.

(** [x.length]: reading a property of [null] throws a TypeError, which
    [None] stands for. *)
Definition lengthOf (x : option (list jsstring)) : option nat :=
  option_map (@length jsstring) x.

(** [(s.match(re) || []).length] *)
Definition countMatches (re : t) (s : jsstring) : option nat :=
  lengthOf (orEmpty (matchGlobal re s)).

(** Lines 113-117: what [console.warn] receives, if anything. *)
Definition braceWarning (s : jsstring) : option (list jsstring) :=
  match countMatches (RE "(?<!\\)\{" "g") s, countMatches (RE "(?<!\\)\}" "g") s with
  | Some openBraces, Some closeBraces =>
      Some (if closeBraces <? openBraces
            then [str "Unmatched braces detected: " ++ ofNat openBraces
                  ++ str " open, " ++ ofNat closeBraces ++ str " close"]
            else [])
  | _, _ => None
  end.

(** Lines 11-110: the variable [sanitized] when line 110 is done. *)
Definition sanitized (latex : jsstring) : jsstring :=
  let sanitized := latex in
  let sanitized := fixEnumerate sanitized in
  let '(b, c, sanitized) := protect sanitized in
  let sanitized := escapeSpecials sanitized in
  let sanitized := collapseBlanks sanitized in
  let sanitized := restoreBlocks b (counter b) sanitized in
  let sanitized := restoreComments c (commentCounter c) sanitized in
  tidy sanitized.

(** The value returned and the console output. *)
Record outcome := {
  value : jsstring;
  warned : list jsstring
}.

(** Lines 10-120.  [None] stands for an exception the code itself
    raises; the one place that could raise is the read of [length] at
    lines 113-114.  Strings are lists without a bound here, so the result
    is the one of the code whenever the code returns; [sanitizeLatexOn]
    below is the same call on an engine whose strings are bounded. *)
Definition sanitizeLatex (latex : jsstring) : option outcome :=
  let sanitized := sanitized latex in
  match braceWarning sanitized with
  | Some w => Some {| value := sanitized; warned := w |}
  | None => None
  end.

(** *** The same call where strings are bounded

    A string of an engine holds at most [maxLength] code units ([2^53 - 1]
    by ECMA-262, [2^29 - 24] in V8), and a call of [replace] that has to
    build a longer one throws a RangeError ("Invalid string length").
    Below, the result of every call of [replace] in lines 15-110 is
    checked against the bound, and [None] stands for the exception.  (An
    engine also bounds the depth of its matcher; that bound is no part of
    the model.) *)
Section Bounded.

Variable maxLength : Z.

(** The string a call has built, when the engine can hold it. *)
Definition built (s : jsstring) : option jsstring :=
  if (Z.of_nat (length s) <=? maxLength)%Z then Some s else None.

(** One more call on the result of the calls before. *)
Definition andThen (x : option jsstring) (call : jsstring -> jsstring)
  : option jsstring :=
  match x with
  | Some s => built (call s)
  | None => None
  end.

Definition calls (l : list (jsstring -> jsstring)) (s : jsstring) : option jsstring :=
  fold_left andThen l (Some s).

(** Lines 15-19. *)
Definition fixEnumerateOn : jsstring -> option jsstring := calls [
  replace (RE "\\begin\{enumerate\}\[\(a\)\]" "g")
          (str "\begin{enumerate}[label=(\alph*)]");
  replace (RE "\\begin\{enumerate\}\[\(i\)\]" "g")
          (str "\begin{enumerate}[label=(\roman*)]");
  replace (RE "\\begin\{enumerate\}\[\(1\)\]" "g")
          (str "\begin{enumerate}[label=(\arabic*)]");
  replace (RE "\\begin\{enumerate\}\[a\)\]" "g")
          (str "\begin{enumerate}[label=\alph*)]");
  replace (RE "\\begin\{enumerate\}\[1\)\]" "g")
          (str "\begin{enumerate}[label=\arabic*)]")
].

(** Lines 28-67. *)
Definition protectOn (s : jsstring) : option (blocks * comments * jsstring) :=
  let b := {| counter := 0; mathBlocks := []; verbatimBlocks := [] |} in
  let (b, s) := replaceWith (RE "\$([^$]+)\$" "g") stashMath b s in
  match built s with
  | None => None
  | Some s =>
  let (b, s) := replaceWith (RE "\\\[([^\]]+)\\\]" "g") stashMath b s in
  match built s with
  | None => None
  | Some s =>
  let (b, s) := replaceWith (RE "\$\$([\s\S]+?)\$\$" "g") stashMath b s in
  match built s with
  | None => None
  | Some s =>
  let (b, s) := replaceWith (RE "\\verb([^a-zA-Z])(.+?)\1" "g") stashVerb b s in
  match built s with
  | None => None
  | Some s =>
  let c := {| commentCounter := 0; commentLines := [] |} in
  let (c, s) := replaceWith (RE "^[ \t]*%.*" "gm") stashComment c s in
  match built s with
  | None => None
  | Some s => Some (b, c, s)
  end end end end end.

(** Lines 70-74. *)
Definition escapeSpecialsOn : jsstring -> option jsstring := calls [
  replace (RE "(?<!\\)_(?![_\s])" "g") (str "\_");
  replace (RE "(?<!\\)&" "g") (str "\&");
  replace (RE "(?<!\\)%" "g") (str "\%");
  replace (RE "(?<!\\)#" "g") (str "\#");
  replace (RE "(?<!\\)\^" "g") (str "\^{}")
].

(** Lines 78-87. *)
Definition collapseBlanksOn : jsstring -> option jsstring := calls [
  (fun s => snd (replaceWith (RE "(\\_){2,}" "g")
                   (fun (_ : unit) m => (tt, blank (Number.literal 15 100) m)) tt s));
  (fun s => snd (replaceWith (RE "_{2,}" "g")
                   (fun (_ : unit) m => (tt, blank (Number.literal 3 10) m)) tt s))
].

(** Lines 90-97. *)
Fixpoint restoreBlocksOn (b : blocks) (n : nat) (s : jsstring) : option jsstring :=
  match n with
  | 0 => Some s
  | S i =>
      let s :=
        match truthy (aget i (mathBlocks b)) with
        | Some v => built (replaceStr (mathPlaceholder i) v s)
        | None => Some s
        end in
      match s with
      | None => None
      | Some s =>
          let s :=
            match truthy (aget i (verbatimBlocks b)) with
            | Some v => built (replaceStr (verbPlaceholder i) v s)
            | None => Some s
            end in
          match s with
          | None => None
          | Some s => restoreBlocksOn b i s
          end
      end
  end.

(** Lines 100-105. *)
Fixpoint restoreCommentsOn (c : comments) (n : nat) (s : jsstring) : option jsstring :=
  match n with
  | 0 => Some s
  | S i =>
      let placeholder := commentPlaceholder i in
      let s :=
        match truthy (dget placeholder (commentLines c)) with
        | Some v => built (replaceStr placeholder v s)
        | None => Some s
        end in
      match s with
      | None => None
      | Some s => restoreCommentsOn c i s
      end
  end.

(** Lines 108-110. *)
Definition tidyOn : jsstring -> option jsstring := calls [
  replace (RE "\\\\" "g") (str "\\");
  replace (RE "\\textbf\s*\{" "g") (str "\textbf{");
  replace (RE "\\textit\s*\{" "g") (str "\textit{")
].

(** Lines 10-120. *)
Definition sanitizeLatexOn (latex : jsstring) : option outcome :=
  match fixEnumerateOn latex with
  | None => None
  | Some sanitized =>
  match protectOn sanitized with
  | None => None
  | Some (b, c, sanitized) =>
  match escapeSpecialsOn sanitized with
  | None => None
  | Some sanitized =>
  match collapseBlanksOn sanitized with
  | None => None
  | Some sanitized =>
  match restoreBlocksOn b (counter b) sanitized with
  | None => None
  | Some sanitized =>
  match restoreCommentsOn c (commentCounter c) sanitized with
  | None => None
  | Some sanitized =>
  match tidyOn sanitized with
  | None => None
  | Some sanitized =>
  match braceWarning sanitized with
  | Some w => Some {| value := sanitized; warned := w |}
  | None => None
  end end end end end end end end.

End Bounded.

End Sanitizer.

(* ===================================================================== *)
(** ** The question extractor *)
(* ===================================================================== *)

Module Extractor.
Import RegExp.

(** [interface Question].  [number] is the Number [parseInt] returned. *)
Record Question := {
  number : Number.double;
  question : jsstring;
  solution : jsstring
}.

(** The integer the leading decimal digits of [s] denote; [acc] is [None]
    as long as no digit was read. *)
Fixpoint digitsValue (s : jsstring) (acc : option Z) : option Z :=
  match s with
  | c :: s' =>
      if isDigit c
      then digitsValue s'
             (Some (10 * match acc with Some a => a | None => 0 end
                    + Z.of_nat (code c - 48))%Z)
      else acc
  | [] => acc
  end.

(** [parseInt(s)] (19.2.5) with no radix: white space, an optional sign,
    then the longest run of decimal digits.  The result is the Number
    value of the integer the digits denote (the nearest double, ties to
    even; [Infinity] beyond the range of a double), negated after a minus
    sign, and [NaN] when there is no digit.  (ECMA-262 lets an engine take
    every digit after the 20th as 0; the model reads all digits, as V8
    does.  The hexadecimal prefix is left out: the argument is always the
    capture of [(\d+)].) *)
Definition parseInt (s : jsstring) : Number.double :=
  let number (negative : bool) (digits : option Z) : Number.double :=
    match digits with
    | Some mathInt =>
        if negative then Number.opp (Number.ofZ mathInt) else Number.ofZ mathInt
    | None => Number.nan
    end in
  match trimStart s with
  | c :: s' =>
      if isc c "-" then number true (digitsValue s' None)
      else if isc c "+" then number false (digitsValue s' None)
      else number false (digitsValue (c :: s') None)
  | [] => Number.nan
  end.

(** [a || b] on values that may be [undefined] or the empty string. *)
Definition orElse (a b : option jsstring) : option jsstring :=
  match a with
  | Some (c :: s) => a
  | _ => b
  end.

(** [!x] is false: the string is defined and not empty. *)
Definition truthyContent (a : option jsstring) : option jsstring := orElse a None.

(** A strategy of the cascade (lines 58-94). *)
Record strategy := {
  regex : RegExp.t;
  solutionPattern : RegExp.t
}.

(** Pattern 1: \noindent\textbf{Q.N} format *)
Definition pattern1 : strategy :=
  {| regex := RE "\\noindent\\textbf\{Q\.(\d+)\}\s*\\hfill\s*\\textbf\{\[([^\]]+)\]\}([\s\S]*?)(?=\\noindent\\textbf\{Q\.\d+\}|\\end\{document\}|$)" "g";
     solutionPattern := RE "([\s\S]*?)\\noindent\\textbf\{Solution:\}([\s\S]*?)(?=\\noindent\\rule|$)" "" |}.

(** Pattern 2: \textbf{Q.N} \hfill format *)
Definition pattern2 : strategy :=
  {| regex := RE "\\textbf\{Q\.(\d+)\}\s*\\hfill\s*\\textbf\{\[([^\]]+)\]\}([\s\S]*?)(?=\\textbf\{Q\.\d+\}|\\end\{document\}|$)" "g";
     solutionPattern := RE "([\s\S]*?)(?:\\textbf\{)?Solution[:\.]?(?:\})?[\s\S]*?([\s\S]*?)$" "" |}.

(** Pattern 2b: \textbf{Q.N} without \hfill *)
Definition pattern2b : strategy :=
  {| regex := RE "\\textbf\{Q\.(\d+)\}[\s\S]*?\[([^\]]+)\]([\s\S]*?)(?=\\textbf\{Q\.\d+\}|\\end\{document\}|$)" "g";
     solutionPattern := RE "([\s\S]*?)(?:\\textbf\{)?(?:Solution|Ans)[:\.\)]?(?:\})?[\s\S]*?([\s\S]*?)$" "" |}.

(** Pattern 3: \subsection* format *)
Definition pattern3 : strategy :=
  {| regex := RE "\\subsection\*\{(?:Q\.|Question)\s*(\d+)\s*\[([^\]]+)\]\}([\s\S]*?)(?=\\subsection\*\{(?:Q\.|Question)|\\end\{document\}|$)" "g";
     solutionPattern := RE "([\s\S]*?)\\subsection\*\{Solution\}([\s\S]*?)(?=\\vspace|$)" "" |}.

(** Pattern 4: simple numbered format *)
Definition pattern4 : strategy :=
  {| regex := RE "(?:^|\\noindent\s*)(?:\\textbf\{)?(?:Q\.?|Question)\s*(\d+)(?:\})?(?:\s*[\(\[]?([^\]\)]*?marks?)[\]\)]?)?[:\.\)]?\s*([\s\S]*?)(?=(?:^|\\noindent\s*)(?:\\textbf\{)?(?:Q\.?|Question)\s*\d+|\\end\{document\}|$)" "gm";
     solutionPattern := RE "([\s\S]*?)(?:\\textbf\{)?(?:Solution|Answer|Ans)[:\.\)]?(?:\})?[\s\S]*?([\s\S]*?)$" "" |}.

(** Pattern 5: section-based *)
Definition pattern5 : strategy :=
  {| regex := RE "\\section\*\{(?:Question\s+)?(\d+)(?:\s*\[([^\]]+)\])?\}([\s\S]*?)(?=\\section\*\{|\\end\{document\}|$)" "g";
     solutionPattern := RE "([\s\S]*?)\\section\*\{Solution\}([\s\S]*?)$" "" |}.

(** Pattern 6: number with period at start of line *)
Definition pattern6 : strategy :=
  {| regex := RE "(?:^|\n)\s*(\d+)[\.\)]\s*([\s\S]*?)(?=(?:^|\n)\s*\d+[\.\)]|\\end\{document\}|$)" "gm";
     solutionPattern := RE "([\s\S]*?)(?:Solution|Answer|Ans)[:\.\)]?\s*([\s\S]*?)$" "" |}.

(** Lines 58-94: the cascade, most specific first. *)
Definition patterns : list strategy :=
  [pattern1; pattern2; pattern2b; pattern3; pattern4; pattern5; pattern6].

(** Lines 39-43. *)
Definition sectionMarkers : list RegExp.t := [
  RE "(?:SECTION:\s*QUESTIONS|Questions Section|QUESTIONS|BEGIN QUESTIONS)([\s\S]*?)(?=\\end\{document\}|$)" "i";
  RE "(?:\\end\{tabular\}[\s\S]*?\\end\{tabular\})([\s\S]*?)(?=\\end\{document\}|$)" "";
  RE "(?:\\end\{enumerate\}[\s\S]{0,200})(\\textbf\{Q|\\noindent[\s\S]*?Q\.|^\s*\d+\.)" "m"
].

(** Lines 29-52: the region the strategies run on. *)
Fixpoint narrow (markers : list RegExp.t) (questionsContent : jsstring) : jsstring :=
  match markers with
  | [] => questionsContent
  | marker :: rest =>
      match matchFirst marker questionsContent with
      | Some m =>
          match orElse (group 1 m) (group 0 m) with
          | Some s => s
          | None => []
          end
      | None => narrow rest questionsContent
      end
  end.

Definition body (content : jsstring) : jsstring :=
  let questionsContent :=
    match indexOf (str "\begin{document}") content with
    | Some docStart => substringFrom docStart content
    | None => content
    end in
  narrow sectionMarkers questionsContent.

(** Lines 115-120: the instruction filter. *)
Definition isBoilerplate (fullContent : jsstring) : bool :=
  let lowerContent := toLowerCase fullContent in
  includes lowerContent (str "instructions to candidates")
  || includes lowerContent (str "general instructions")
  || (includes lowerContent (str "answer any") && (length fullContent <? 100))
  || includes lowerContent (str "examination paper")
  || (includes lowerContent (str "duration:")
      && includes lowerContent (str "maximum marks:")).

(** Lines 103-145: the body of the [while] loop for one match; the result
    is [parsedQuestions] after it. *)
Definition processMatch (p : strategy) (m : Match) (parsedQuestions : list Question)
  : list Question :=
  let questionNumber := parseInt (groupText 1 m) in
  let fullContent := orElse (group 3 m) (group 2 m) in
  match truthyContent fullContent with
  | Some fullContent =>
      if Number.isNaN questionNumber || (length (trim fullContent) <? 5)
      then parsedQuestions
      else if isBoilerplate fullContent then parsedQuestions
      else
        let (questionText, solutionText) :=
          match matchFirst (solutionPattern p) fullContent with
          | Some solutionMatch =>
              (trim (groupText 1 solutionMatch),
               match group 2 solutionMatch with
               | Some s => trim s
               | None => []
               end)
          | None => (trim fullContent, [])
          end in
        if 5 <? length questionText
        then parsedQuestions
             ++ [{| number := questionNumber; question := questionText;
                    solution := solutionText |}]
        else parsedQuestions
  | None => parsedQuestions
  end.

(** Lines 98-146: [while ((match = pattern.regex.exec(...)) !== null)].
    [exec] resumes at [lastIndex], which a match sets to its end.  The
    loop has no bound of its own; [fuel] counts its iterations and [None]
    stands for a loop that does not end. *)
Fixpoint execLoop (fuel : nat) (p : strategy) (questionsContent : jsstring)
  (lastIndex : nat) (parsedQuestions : list Question) : option (list Question) :=
  match fuel with
  | 0 => None
  | S f =>
      match execFrom (regex p) questionsContent lastIndex with
      | None => Some parsedQuestions
      | Some m =>
          execLoop f p questionsContent (index m + length (matched m))
                   (processMatch p m parsedQuestions)
      end
  end.

(** Lines 96-152: the strategies in order, stopping at the first one that
    leaves [parsedQuestions] non-empty. *)
Fixpoint cascade (ps : list strategy) (questionsContent : jsstring)
  (parsedQuestions : list Question) : option (list Question) :=
  match ps with
  | [] => Some parsedQuestions
  | p :: ps' =>
      match execLoop (length questionsContent + 2) p questionsContent 0
                     parsedQuestions with
      | None => None
      | Some parsed =>
          if 0 <? length parsed then Some parsed
          else cascade ps' questionsContent parsed
      end
  end.

(** [new Map(entries)]: keys are compared with SameValueZero; a key keeps
    the place of its first [set] and the value of its last one. *)
Fixpoint mapSet (k : Number.double) (v : Question)
  (m : list (Number.double * Question)) : list (Number.double * Question) :=
  match m with
  | [] => [(k, v)]
  | (k', v') :: m' =>
      if Number.sameValueZero k k' then (k', v) :: m' else (k', v') :: mapSet k v m'
  end.

Definition newMap (entries : list (Number.double * Question))
  : list (Number.double * Question) :=
  fold_left (fun m e => mapSet (fst e) (snd e) m) entries [].

Definition values (m : list (Number.double * Question)) : list Question :=
  map snd m.

(** The comparator of line 157: [(a, b) => a.number - b.number]. *)
Definition comparator (a b : Question) : Number.double :=
  Number.sub (number a) (number b).

(** [.sort(comparator)]: the sort is stable, and [a] comes to stand before
    [b] when the comparator's result for them is below zero.  Each element
    is put before the first one already placed that it has to precede.
    (Where the comparator is not consistent, which takes a result of NaN,
    ECMA-262 leaves the order to the engine; the numbers of one [Map] are
    distinct, and their differences are never NaN.) *)
Fixpoint insert (q : Question) (l : list Question) : list Question :=
  match l with
  | [] => [q]
  | x :: l' =>
      if Number.ltb (comparator q x) Number.zero then q :: l else x :: insert q l'
  end.

Definition sort (l : list Question) : list Question :=
  fold_left (fun acc q => insert q acc) l [].

(** Lines 155-157. *)
Definition uniqueQuestions (parsedQuestions : list Question) : list Question :=
  sort (values (newMap (map (fun q => (number q, q)) parsedQuestions))).

(** Lines 22-165: the list handed to [setQuestions]. *)
Definition parseQuestions (content : jsstring) : option (list Question) :=
  option_map uniqueQuestions (cascade patterns (body content) []).

End Extractor.

(* ===================================================================== *)
(** ** The preview renderer *)
(* ===================================================================== *)

Module Renderer.
Import RegExp.

(** An HTML literal of the source.  The source writes double quotes
    inside them; the literal here writes an apostrophe in their place. *)
Definition html (s : string) : jsstring :=
  map (fun c => if isc c "'" then DQ else c) (str s).

(** A run of [.replace(re, text)] calls. *)
Definition rule := (RegExp.t * jsstring)%type.

Definition chain (rules : list rule) (s : jsstring) : jsstring :=
  fold_left (fun s r => replace (fst r) (snd r) s) rules s.

(** Lines 221-243. *)
Definition preambleRules : list rule := [
  (RE "\\documentclass(?:\[[^\]]*\])?\{[^}]*\}" "g", []);
  (RE "\\usepackage(?:\[[^\]]*\])?\{[^}]*\}" "g", []);
  (RE "\\geometry\{[^}]*\}" "g", []);
  (RE "\\pagestyle\{[^}]*\}" "g", []);
  (RE "\\setlength\{[^}]*\}\{[^}]*\}" "g", []);
  (RE "\\addtolength\{[^}]*\}\{[^}]*\}" "g", []);
  (RE "\\fancyhf\{\}" "g", []);
  (RE "\\fancyhead\[[^\]]*\]\{[^}]*\}" "g", []);
  (RE "\\fancyfoot\[[^\]]*\]\{[^}]*\}" "g", []);
  (RE "\\begin\{document\}" "g", []);
  (RE "\\end\{document\}" "g", []);
  (RE "\\maketitle" "g", []);
  (RE "\\title\{([^}]*)\}" "g", []);
  (RE "\\author\{([^}]*)\}" "g", []);
  (RE "\\date\{([^}]*)\}" "g", []);
  (RE "\\noindent" "g", []);
  (RE "\\centering" "g", []);
  (RE "\\phantom\{[^}]*\}" "g", []);
  (RE "\\dimexpr[^}]*\\fboxsep[^}]*\\fboxrule" "g", str "100%");
  (RE "\\vspace\{[^}]*\}" "g", html "<div class='my-4'></div>");
  (RE "\\hspace\{[^}]*\}" "g", html "<span class='inline-block w-4'></span>");
  (RE "\\newpage" "g", html "<div class='border-t-2 border-gray-300 my-8'></div>")
].

(** Line 247. *)
Definition centerRules : list rule := [
  (RE "\\begin\{center\}([\s\S]*?)\\end\{center\}" "g",
   html "<div class='text-center'>$1</div>")
].

(** Lines 253-256: the lists inside an instruction box. *)
Definition boxListRules : list rule := [
  (RE "\\begin\{itemize\}\[leftmargin=\*,?\s*itemsep=[^\]]*\]" "g",
   html "<ul class='list-disc ml-5 space-y-0.5 my-2'>");
  (RE "\\begin\{itemize\}\[itemsep=[^\]]*\]" "g",
   html "<ul class='list-disc ml-5 space-y-0.5 my-2'>");
  (RE "\\begin\{itemize\}" "g",
   html "<ul class='list-disc ml-5 space-y-1 my-2'>")
].

(** Lines 251-258: the replacer of the [\fbox{\parbox{..}{..}}] rule. *)
Definition instructionBox (_ : unit) (m : Match) : unit * jsstring :=
  let content := groupText 1 m in
  let processed := chain boxListRules content in
  (tt, html "<div class='border-2 border-black p-4 my-6 bg-white'>" ++ processed
       ++ html "</div>").

Definition parboxRule : RegExp.t :=
  RE "\\fbox\{\\parbox\{[^}]*\}\{([\s\S]*?)\}\}" "g".

(** Line 259. *)
Definition fboxRules : list rule := [
  (RE "\\fbox\{([\s\S]*?)\}" "g",
   html "<div class='border-2 border-gray-800 p-4 rounded-md inline-block'>$1</div>")
].

(** Line 263. *)
Definition ruleRules : list rule := [
  (RE "\\rule\{[^}]*\}\{[^}]*\}" "g", html "<hr class='border-t-2 border-gray-400 my-2' />")
].

(** Lines 267-270. *)
Definition sectionRules : list rule := [
  (RE "\\section\*\{([^}]*)\}" "g",
   html "<h2 class='text-2xl font-bold mt-8 mb-4 text-purple-700'>$1</h2>");
  (RE "\\subsection\*\{([^}]*)\}" "g",
   html "<h3 class='text-xl font-semibold mt-6 mb-3 text-indigo-600'>$1</h3>");
  (RE "\\section\{([^}]*)\}" "g",
   html "<h2 class='text-2xl font-bold mt-8 mb-4 text-purple-700'>$1</h2>");
  (RE "\\subsection\{([^}]*)\}" "g",
   html "<h3 class='text-xl font-semibold mt-6 mb-3 text-indigo-600'>$1</h3>")
].

(** Lines 274-277. *)
Definition fontRules : list rule := [
  (RE "\{\\Large\s+(.*?)\}" "g", html "<span class='text-2xl'>$1</span>");
  (RE "\{\\large\s+(.*?)\}" "g", html "<span class='text-xl'>$1</span>");
  (RE "\{\\small\s+(.*?)\}" "g", html "<span class='text-sm'>$1</span>");
  (RE "\{\\tiny\s+(.*?)\}" "g", html "<span class='text-xs'>$1</span>")
].

(** Lines 281-285. *)
Definition listRules : list rule := [
  (RE "\\begin\{itemize\}(?:\[[^\]]*\])?" "g",
   html "<ul class='list-disc ml-6 my-3 space-y-1'>");
  (RE "\\end\{itemize\}" "g", html "</ul>");
  (RE "\\begin\{enumerate\}(?:\[[^\]]*\])?" "g",
   html "<ol class='list-decimal ml-6 my-3 space-y-1'>");
  (RE "\\end\{enumerate\}" "g", html "</ol>");
  (RE "\\item(?:\s*\[[^\]]*\])?" "g", html "<li class='ml-0 pl-1'>")
].

(** Lines 289-292. *)
Definition textRules : list rule := [
  (RE "\\textbf\{([^}]*)\}" "g", html "<strong>$1</strong>");
  (RE "\\textit\{([^}]*)\}" "g", html "<em>$1</em>");
  (RE "\\emph\{([^}]*)\}" "g", html "<em>$1</em>");
  (RE "\\underline\{([^}]*)\}" "g", html "<u>$1</u>")
].

(** Lines 296-297. *)
Definition breakRules : list rule := [
  (RE "\\\\\[?[^\]]*\]?" "g", html "<br/>");
  (RE "\\newline" "g", html "<br/>")
].

(** Lines 301-305. *)
Definition specialRules : list rule := [
  (RE "\\&" "g", str "&");
  (RE "\\%" "g", str "%");
  (RE "\\#" "g", str "#");
  (RE "\\_(?![^$]*\$)" "g", str "_")
].

(** Lines 309-314. *)
Definition spacingRules : list rule := [
  (RE "\\bigskip" "g", html "<div class='my-6'></div>");
  (RE "\\medskip" "g", html "<div class='my-4'></div>");
  (RE "\\smallskip" "g", html "<div class='my-2'></div>");
  (RE "\\quad" "g", html "<span class='inline-block w-8'></span>");
  (RE "\\qquad" "g", html "<span class='inline-block w-16'></span>");
  (RE "\\par\s*" "g", html "</p><p class='my-4'>")
].

(** Lines 221-314: every rewrite, in the order of the source. *)
Definition rewrite (latex : jsstring) : jsstring :=
  let formatted := chain preambleRules latex in
  let formatted := chain centerRules formatted in
  let formatted := snd (replaceWith parboxRule instructionBox tt formatted) in
  let formatted := chain fboxRules formatted in
  let formatted := chain ruleRules formatted in
  let formatted := chain sectionRules formatted in
  let formatted := chain fontRules formatted in
  let formatted := chain listRules formatted in
  let formatted := chain textRules formatted in
  let formatted := chain breakRules formatted in
  let formatted := chain specialRules formatted in
  chain spacingRules formatted.

(** Lines 321-327: the wrapper of one paragraph. *)
Definition wrap (para : jsstring) : jsstring :=
  if test (RE "^<(div|h[1-6]|ul|ol|hr)" "") para then para
  else html "<p class='my-4'>" ++ para ++ html "</p>".

Definition keep (para : jsstring) : bool :=
  (0 <? length para) && negb (test (RE "^<[^>]+>$" "") para).

(** Lines 317-328. *)
Definition paragraphs (formatted : jsstring) : jsstring :=
  join [LF] (map wrap (filter keep (map trim (split [LF; LF] formatted)))).

Definition formatContent (latex : jsstring) : jsstring :=
  paragraphs (rewrite latex).

End Renderer.

(* ===================================================================== *)
(** ** The PDF route around the sanitizer *)
(* ===================================================================== *)

(** The request handler that calls [sanitizeLatex] (the PDF route, lines
    122-302).  Its file-system and process calls are left to the
    environment; what is kept are the pure steps in between: the text
    handed to the compiler, the message built from the compiler's log and
    the name given to the download. *)
Module PdfRoute.
Import RegExp Sanitizer.

(** Lines 146-167: the rewrites made when solutions are not wanted. *)
Definition removeSolutions (processedLatex : jsstring) : jsstring :=
  let s := processedLatex in
  let s := replace (RE "\\subsection\*\{Solution\}[\s\S]*?(?=\\noindent\\textbf\{Q\.|\\subsection\*\{Q|\\subsection\*\{Question|\\end\{document\})" "gi") [] s in
  let s := replace (RE "\\noindent\\textbf\{Solution:\}[\s\S]*?(?=\\noindent\\textbf\{Q\.|\\subsection\*\{Q|\\subsection\*\{Question|\\end\{document\})" "gi") [] s in
  let s := replace (RE "\\textbf\{Solution[:\.]?\}[\s\S]*?(?=\\noindent\\textbf\{Q\.|\\subsection\*\{Q|\\subsection\*\{Question|\\textbf\{Q\.|\\end\{document\})" "gi") [] s in
  let s := replace (RE "\n\s*Solution:\s*[\s\S]*?(?=\\noindent\\textbf\{Q\.|\\subsection\*\{Q|\\subsection\*\{Question|\\end\{document\})" "gi") [] s in
  let s := replace (RE "(\\vspace\{[^}]*\}\s*){2,}" "g") (str "\vspace{0.5cm}" ++ [LF]) s in
  let s := replace (RE "(\\noindent\\rule\{[^}]*\}\{[^}]*\}\s*){2,}" "g")
                   (str "\noindent\rule{0.5\textwidth}{0.3pt}" ++ [LF]) s in
  let s := replace (RE "\\textbf\{Solution\}" "gi") [] s in
  replace (RE "\\subsection\*\{Solution\}" "gi") [] s.

(** Lines 140-168: the variable [processedLatex] when line 168 is done.
    [includeSolutions] is the truth value of the request field; [None]
    stands for an exception of [sanitizeLatex]. *)
Definition processedLatex (latex : jsstring) (includeSolutions : bool)
  : option jsstring :=
  match sanitizeLatex latex with
  | Some out =>
      Some (if includeSolutions then value out else removeSolutions (value out))
  | None => None
  end.

(** Lines 227-233: a log line that starts with [!] or holds [Error],
    with the two lines after it. *)
Fixpoint errorDetails (lines : list jsstring) : list jsstring :=
  match lines with
  | [] => []
  | line :: rest =>
      (if startsWith (str "!") line || includes line (str "Error")
       then [join [LF] (firstn 3 lines)]
       else [])
      ++ errorDetails rest
  end.

(** Lines 219-257: the message of the error thrown when no PDF was
    written.  [logFile] is the content of the log, [None] when the log
    does not exist. *)
Definition errorMsg (logFile : option jsstring) : jsstring :=
  let errorMsg := str "LaTeX compilation failed." in
  match logFile with
  | None => errorMsg
  | Some logContent =>
      let lines := split [LF] logContent in
      let errorDetails := errorDetails lines in
      let errorMsg :=
        if 0 <? length errorDetails
        then substringTo 300 (join (str " | ") (firstn 2 errorDetails))
        else errorMsg in
      let errorMsg :=
        if includes logContent (str "Missing $ inserted")
        then str "LaTeX syntax error: Math mode issue. Please check underscores and special characters."
        else errorMsg in
      let errorMsg :=
        if includes logContent (str "Undefined control sequence")
        then
          match matchFirst (RE "Undefined control sequence[.\s\S]{0,100}" "") logContent with
          | Some m => substringTo 200 (matched m)
          | None => str "LaTeX syntax error: Invalid command used."
          end
        else errorMsg in
      if includes logContent (str "! Package")
      then str "Missing LaTeX package. The generated code uses packages that may not be installed."
      else errorMsg
  end.

(** Lines 284-289: the body of the 500 response the thrown error ends in. *)
Definition failure (logFile : option jsstring) : jsstring :=
  str "PDF generation failed: " ++ errorMsg logFile.

(** Lines 265-268.  [iso] is what [toISOString] returned. *)
Definition dateStr (iso : jsstring) : jsstring := hd [] (split (str "T") iso).

Definition sanitizedSubject (subject : jsstring) : jsstring :=
  replace (RE "[^a-z0-9]+" "g") [] (toLowerCase subject).

Definition sanitizedClass (studentClass : jsstring) : jsstring :=
  replace (RE "[^a-z0-9]+" "g") [] studentClass.

Definition filename (subject studentClass iso : jsstring) : jsstring :=
  str "studdybuddy_" ++ sanitizedSubject subject ++ str "_"
  ++ sanitizedClass studentClass ++ str "_" ++ dateStr iso ++ str ".pdf".

End PdfRoute.

(* ===================================================================== *)
(** ** The preview component around the extractor *)
(* ===================================================================== *)

(** [visibleSolutions] of components/LatexPreview.tsx: a [Set] of question
    numbers, kept as the list of its members in insertion order. *)
Module Preview.

Definition has (n : Z) (s : list Z) : bool := existsb (Z.eqb n) s.

Definition delete (n : Z) (s : list Z) : list Z :=
  filter (fun x => negb (x =? n)%Z) s.

Definition add (n : Z) (s : list Z) : list Z :=
  if has n s then s else s ++ [n].

(** Lines 206-216: the new set handed to [setVisibleSolutions]. *)
Definition toggleSolution (questionNumber : Z) (prev : list Z) : list Z :=
  let newSet := prev in
  if has questionNumber newSet
  then delete questionNumber newSet
  else add questionNumber newSet.

End Preview.

(* ===================================================================== *)
(** ** The question customizer *)
(* ===================================================================== *)

(** The handlers of the customizer component (lines 84-139 of its file).
    Counts are JavaScript numbers holding small integers; the model keeps
    the exact integer. *)
Module Customizer.

Record byType := {
  mcq : Z;
  fillInBlanks : Z;
  trueFalse : Z;
  general : Z
}.

Record byMarks := {
  marks2 : Z;
  marks3 : Z;
  marks4 : Z;
  marks5 : Z;
  marks6 : Z;
  marks10 : Z
}.

Record QuestionConfig := {
  subject : jsstring;
  questionTypes : list jsstring;
  difficulty : jsstring;
  studentClass : jsstring;
  customInstructions : option jsstring;
  questionsByType : option byType;
  questionsByMarks : option byMarks
}.

(** The keys of [questionsByType] and of [questionsByMarks]. *)
Inductive typeKey := Kmcq | KfillInBlanks | KtrueFalse | Kgeneral.
Inductive marksKey := K2 | K3 | K4 | K5 | K6 | K10.

Definition getType (k : typeKey) (t : byType) : Z :=
  match k with
  | Kmcq => mcq t
  | KfillInBlanks => fillInBlanks t
  | KtrueFalse => trueFalse t
  | Kgeneral => general t
  end.

Definition setType (k : typeKey) (v : Z) (t : byType) : byType :=
  match k with
  | Kmcq => {| mcq := v; fillInBlanks := fillInBlanks t;
               trueFalse := trueFalse t; general := general t |}
  | KfillInBlanks => {| mcq := mcq t; fillInBlanks := v;
                        trueFalse := trueFalse t; general := general t |}
  | KtrueFalse => {| mcq := mcq t; fillInBlanks := fillInBlanks t;
                     trueFalse := v; general := general t |}
  | Kgeneral => {| mcq := mcq t; fillInBlanks := fillInBlanks t;
                   trueFalse := trueFalse t; general := v |}
  end.

Definition getMarks (k : marksKey) (m : byMarks) : Z :=
  match k with
  | K2 => marks2 m
  | K3 => marks3 m
  | K4 => marks4 m
  | K5 => marks5 m
  | K6 => marks6 m
  | K10 => marks10 m
  end.

Definition setMarks (k : marksKey) (v : Z) (m : byMarks) : byMarks :=
  match k with
  | K2 => {| marks2 := v; marks3 := marks3 m; marks4 := marks4 m;
             marks5 := marks5 m; marks6 := marks6 m; marks10 := marks10 m |}
  | K3 => {| marks2 := marks2 m; marks3 := v; marks4 := marks4 m;
             marks5 := marks5 m; marks6 := marks6 m; marks10 := marks10 m |}
  | K4 => {| marks2 := marks2 m; marks3 := marks3 m; marks4 := v;
             marks5 := marks5 m; marks6 := marks6 m; marks10 := marks10 m |}
  | K5 => {| marks2 := marks2 m; marks3 := marks3 m; marks4 := marks4 m;
             marks5 := v; marks6 := marks6 m; marks10 := marks10 m |}
  | K6 => {| marks2 := marks2 m; marks3 := marks3 m; marks4 := marks4 m;
             marks5 := marks5 m; marks6 := v; marks10 := marks10 m |}
  | K10 => {| marks2 := marks2 m; marks3 := marks3 m; marks4 := marks4 m;
              marks5 := marks5 m; marks6 := marks6 m; marks10 := v |}
  end.

(** [config.questionsByType || { mcq: 0, ... }] *)
Definition typesOf (config : QuestionConfig) : byType :=
  match questionsByType config with
  | Some t => t
  | None => {| mcq := 0; fillInBlanks := 0; trueFalse := 0; general := 0 |}
  end.

(** [config.questionsByMarks || { '2': 0, ... }] *)
Definition marksOf (config : QuestionConfig) : byMarks :=
  match questionsByMarks config with
  | Some m => m
  | None => {| marks2 := 0; marks3 := 0; marks4 := 0;
               marks5 := 0; marks6 := 0; marks10 := 0 |}
  end.

(** Lines 91-99: what [onConfigChange] receives; [None] when it is not
    called. *)
Definition handleQuestionTypeToggle (config : QuestionConfig) (type : jsstring)
  : option QuestionConfig :=
  let types :=
    if existsb (eqs type) (questionTypes config)
    then filter (fun t => negb (eqs t type)) (questionTypes config)
    else questionTypes config ++ [type] in
  if 0 <? length types
  then Some {| subject := subject config;
               questionTypes := types;
               difficulty := difficulty config;
               studentClass := studentClass config;
               customInstructions := customInstructions config;
               questionsByType := questionsByType config;
               questionsByMarks := questionsByMarks config |}
  else None.

(** Lines 113-120: what [onConfigChange] receives. *)
Definition handleQuestionTypeCountChange (config : QuestionConfig)
  (type : typeKey) (delta : Z) : QuestionConfig :=
  let current := typesOf config in
  let newValue := Z.max 0 (getType type current + delta) in
  {| subject := subject config;
     questionTypes := questionTypes config;
     difficulty := difficulty config;
     studentClass := studentClass config;
     customInstructions := customInstructions config;
     questionsByType := Some (setType type newValue current);
     questionsByMarks := questionsByMarks config |}.

(** Lines 122-129. *)
Definition handleQuestionMarkCountChange (config : QuestionConfig)
  (marks : marksKey) (delta : Z) : QuestionConfig :=
  let current := marksOf config in
  let newValue := Z.max 0 (getMarks marks current + delta) in
  {| subject := subject config;
     questionTypes := questionTypes config;
     difficulty := difficulty config;
     studentClass := studentClass config;
     customInstructions := customInstructions config;
     questionsByType := questionsByType config;
     questionsByMarks := Some (setMarks marks newValue current) |}.

(** Lines 131-134. *)
Definition getTotalQuestionsByType (config : QuestionConfig) : Z :=
  let types := typesOf config in
  (mcq types + fillInBlanks types + trueFalse types + general types)%Z.

(** Lines 136-139. *)
Definition getTotalQuestionsByMarks (config : QuestionConfig) : Z :=
  let marks := marksOf config in
  (marks2 marks + marks3 marks + marks4 marks + marks5 marks + marks6 marks
   + marks10 marks)%Z.

End Customizer.

(* ===================================================================== *)
(** ** The upload route *)
(* ===================================================================== *)

(** The upload handler takes the LaTeX document out of the reply of the
    generative model (lines 431-458 of its file). *)
Module Upload.
Import RegExp.

Definition extractLatex (latexContent : jsstring) : jsstring :=
  let latexContent :=
    match matchFirst (RE "```(?:latex)?\s*\n([\s\S]*?)\n```" "i") latexContent with
    | Some codeBlockMatch => groupText 1 codeBlockMatch
    | None =>
        let latexContent :=
          replace (RE "^```(?:latex)?\s*\n?" "i") [] latexContent in
        replace (RE "\n?```\s*$" "i") [] latexContent
    end in
  let latexContent :=
    match matchFirst (RE "\\documentclass[\s\S]*" "") latexContent with
    | Some docStartMatch => matched docStartMatch
    | None => latexContent
    end in
  trim latexContent.

End Upload.

(* ===================================================================== *)
(** ** Definitions the properties are stated with *)
(* ===================================================================== *)

Module Shape.
Import RegExp.

(** A lower bound on the length of what a pattern matches. *)
Fixpoint minWidth (r : ast) : nat :=
  match r with
  | Chr _ | Any | Class _ _ => 1
  | Seq a b => minWidth a + minWidth b
  | Alt a b => Nat.min (minWidth a) (minWidth b)
  | Repeat a lo hi _ => if (lo =? 0) || isZero hi then 0 else minWidth a
  | Group _ a => minWidth a
  | _ => 0
  end.

(** [st'] is [st] after reading [x]. *)
Definition extends (st st' : mstate) (x : jsstring) : Prop :=
  before st' = rev x ++ before st /\ after st = x ++ after st'.

(** A matcher that succeeds has called its continuation at least [w]
    code units further on. *)
Definition advances (w : nat)
  (m : (mstate -> option mstate) -> mstate -> option mstate) : Prop :=
  forall k st res, m k st = Some res ->
    exists st' x, k st' = Some res /\ extends st st' x /\ w <= length x.

(** Two continuations that agree on every state reached from [st]. *)
Definition agreeFrom (st : mstate) (k1 k2 : mstate -> option mstate) : Prop :=
  forall st' x, extends st st' x -> k1 st' = k2 st'.

(** A matcher that consults its continuation only at states reached from
    the one it starts in. *)
Definition local (m : (mstate -> option mstate) -> mstate -> option mstate) : Prop :=
  forall k1 k2 st, agreeFrom st k1 k2 -> m k1 st = m k2 st.

(** The text a global [replace] builds, read off in one left-to-right
    scan; [f] gives the replacement of a match. *)
Fixpoint stream (re : t) (f : Match -> jsstring) (pre suf : jsstring) (skip : nat)
  : jsstring :=
  match skip with
  | S k =>
      match suf with
      | [] => []
      | c :: suf' => stream re f (c :: pre) suf' k
      end
  | 0 =>
      match matchAt re pre suf with
      | Some m =>
          f m ++ match suf with
                 | [] => []
                 | c :: suf' =>
                     (if length (matched m) =? 0 then [c] else [])
                     ++ stream re f (c :: pre) suf' (pred (length (matched m)))
                 end
      | None =>
          match suf with
          | [] => []
          | c :: suf' => c :: stream re f (c :: pre) suf' 0
          end
      end
  end.

Definition plainFlags : flags := {| ignoreCase := false; multiline := false |}.

(** [/(?<!\\)t/g] for a code unit [t]. *)
Definition bareRe (t : ascii) : RegExp.t :=
  {| pattern := Seq (Behind true false [CChar BSL]) (Chr t);
     global := true; fl := plainFlags |}.

(** [/(?<!\\)_(?![_\s])/g] *)
Definition underscoreRe : RegExp.t :=
  {| pattern := Seq (Behind true false [CChar BSL])
                    (Seq (Chr "_") (Ahead true (Class false [CChar "_"; CSpace false])));
     global := true; fl := plainFlags |}.

(** The match of one code unit [c] at the position after [pre]. *)
Definition single (pre suf : jsstring) (c : ascii) : Match :=
  {| index := length pre; matched := [c]; groups := []; input := rev pre ++ suf |}.

Definition bracket (c : ascii) : bool :=
  isc c "[" || isc c "]" || isc c "(" || isc c ")".

(** Every backslash of [s] stands before a bracket, as in the math
    delimiters, or at the very end. *)
Fixpoint mathOnly (s : jsstring) : bool :=
  match s with
  | [] => true
  | c :: rest =>
      (if Ascii.eqb c BSL
       then match rest with d :: _ => bracket d | [] => true end
       else true)
      && mathOnly rest
  end.

Definition startsCommand (r : ast) : bool :=
  match r with
  | Chr x | Seq (Chr x) _ => negb (bracket x)
  | _ => false
  end.

(** A match of [r] has to read a backslash and, next to it, a code unit
    that is not a bracket. *)
Fixpoint needsCommand (r : ast) : bool :=
  match r with
  | Seq a b =>
      (match a with Chr c => Ascii.eqb c BSL && startsCommand b | _ => false end)
      || needsCommand a || needsCommand b
  | Alt a b => needsCommand a && needsCommand b
  | Repeat a lo hi _ => negb ((lo =? 0) || isZero hi) && needsCommand a
  | Group _ a => needsCommand a
  | _ => false
  end.

(** A pattern that cannot match in math-only text. *)
Definition inert (re : RegExp.t) : bool :=
  needsCommand (pattern re) && negb (ignoreCase (fl re)).

(** A pattern anchored at the start of the input that wants [<] there. *)
Definition wantsTag (re : RegExp.t) : bool :=
  match pattern re with
  | Seq Bol (Seq (Chr c) _) => Ascii.eqb c "<"
  | _ => false
  end
  && negb (multiline (fl re)) && negb (ignoreCase (fl re)).

End Shape.

Module EscapeSpec.
Import RegExp.

(** The code unit before the current one is a backslash. *)
Definition escaped (prev : option ascii) : bool :=
  match prev with
  | Some p => Ascii.eqb BSL p
  | None => false
  end.

(** What follows is another underscore or white space. *)
Definition blankAhead (rest : jsstring) : bool :=
  match rest with
  | n :: _ => Ascii.eqb "_" n || isWhiteSpace n
  | [] => false
  end.

(** One scan that writes [rep] for every [t] that no backslash precedes
    and whose right context [look] accepts. *)
Fixpoint pass (t : ascii) (look : jsstring -> bool) (rep : jsstring)
  (prev : option ascii) (s : jsstring) : jsstring :=
  match s with
  | [] => []
  | c :: rest =>
      (if Ascii.eqb c t && negb (escaped prev) && look rest then rep else [c])
      ++ pass t look rep (Some c) rest
  end.

(** The five scans of lines 70-74, in their order. *)
Definition passes (prev : option ascii) (s : jsstring) : jsstring :=
  pass "^" (fun _ => true) (str "\^{}") prev
    (pass "#" (fun _ => true) (str "\#") prev
      (pass "%" (fun _ => true) (str "\%") prev
        (pass "&" (fun _ => true) (str "\&") prev
          (pass "_" (fun rest => negb (blankAhead rest)) (str "\_") prev s)))).

(** The escaping rule in the words of the specification (4.1, step 3),
    with the guard of the code on underscores: a single scan in which a
    reserved character that no backslash precedes gets one; an underscore
    before another underscore or white space is left as it is, and a caret
    also gets an empty group after it. *)
Fixpoint escapeEach (prev : option ascii) (s : jsstring) : jsstring :=
  match s with
  | [] => []
  | c :: rest =>
      (if escaped prev then [c]
       else if isc c "&" || isc c "%" || isc c "#" then [BSL; c]
       else if isc c "^" then str "\^{}"
       else if isc c "_" && negb (blankAhead rest) then [BSL; c]
       else [c])
      ++ escapeEach (Some c) rest
  end.




End EscapeSpec.

Module DedupSpec.
Import Extractor.

(** Two questions share a number: their numbers are equal as keys of a
    [Map]. *)
Definition sameNumber (a b : Question) : bool :=
  Number.sameValueZero (number a) (number b).

(** Every entry of the map is filed under the number of its question. *)
Definition keyed (m : list (Number.double * Question)) : Prop :=
  Forall (fun e => Number.sameValueZero (fst e) (number (snd e)) = true) m.

(** [parsedQuestions.map(q => [q.number, q])] *)
Definition entriesOf (l : list Question) : list (Number.double * Question) :=
  map (fun q => (number q, q)) l.

(** [q] stands in [l] and no later element of [l] has its number. *)
Definition lastOfItsNumber (q : Question) (l : list Question) : Prop :=
  exists l1 l2, l = l1 ++ q :: l2 /\ Forall (fun q' => sameNumber q' q = false) l2.

(** The numbers [parseInt] returns on a run of digits: zero, the doubles
    from 1 up that have a full mantissa of 53 bits, and [Infinity]. *)
Definition natural (x : Number.double) : bool :=
  match x with
  | S754_zero false => true
  | S754_infinity false => true
  | S754_finite false m e =>
      (Z.pos (digits2_pos m) =? 53)%Z && (-52 <=? e)%Z && (e <=? 971)%Z
  | _ => false
  end.

(** The place of such a number in their order. *)
Definition rank (x : Number.double) : Z :=
  match x with
  | S754_finite _ m e => (e + 53) * 2 ^ 53 + Z.pos m
  | S754_infinity _ => 1025 * 2 ^ 53
  | _ => 0
  end.

End DedupSpec.

Module Examples.
Import RegExp Extractor.


(** The blank-run example of the specification (section 8). *)
Definition nameBlank : jsstring := str "Name: ______".

(** The renderer example of the specification (section 8). *)
Definition helloWorld : jsstring := str "\textbf{Hello} \& \textit{World}".

(** Four headers in the standard format, numbered 3, 1, 2, 1. *)
Definition headers3121 : jsstring :=
  str "\noindent\textbf{Q.3} \hfill \textbf{[2 marks]} Define a prime number. \noindent\textbf{Q.1} \hfill \textbf{[2 marks]} State the theorem. \noindent\textbf{Q.2} \hfill \textbf{[5 marks]} Solve for x. \noindent\textbf{Solution:} x is 4 \noindent\textbf{Q.1} \hfill \textbf{[1 marks]} State it once more.".

(** [n] inline spans that hold a quote, and one letter: 85 code units
    for 28 spans. *)
Definition dollarQuotes (n : nat) : jsstring :=
  concat (repeat (str "$'$") n) ++ str "x".

(** A header numbered 0. *)
Definition questionZero : jsstring :=
  str "\noindent\textbf{Q.0} \hfill \textbf{[2 marks]} What is zero?".

(** A header in the standard format with instruction boilerplate on the
    line below it. *)
Definition instructionsBelow : jsstring :=
  str "\noindent\textbf{Q.1} \hfill \textbf{[2 marks]} Read this first."
  ++ [LF] ++ str "General instructions: attempt all parts.".

(** A header with a marks label and nothing after it. *)
Definition marksOnly : jsstring := str "Q1 (2 marks)".

(** Two headers whose numbers differ as integers and are one double. *)
Definition roundedTwins : jsstring :=
  str "\noindent\textbf{Q.9007199254740993} \hfill \textbf{[2 marks]} First question. \noindent\textbf{Q.9007199254740992} \hfill \textbf{[2 marks]} Second question.".

(** A header whose body is instruction boilerplate. *)
Definition generalInstructions : jsstring :=
  str "\noindent\textbf{Q.1} \hfill \textbf{[2 marks]} General Instructions: attempt all parts.".

(** The match the first strategy finds in [generalInstructions]. *)
Definition boilerplateMatch : Match :=
  {| index := 0;
     matched := generalInstructions;
     groups := [Some (str "1"); Some (str "2 marks");
                Some (str " General Instructions: attempt all parts.")];
     input := generalInstructions |}.


End Examples.

Import Js RegExp Shape EscapeSpec DedupSpec Examples.

(* ===================================================================== *)
(** ** What a pattern can match *)
(* ===================================================================== *)

(** The words of a pattern, read off its syntax: a bound from above on
    what the backtracking matcher returns (lemma [run_sound]).  The
    properties of the code around the three functions are argued on
    these words. *)
Module Language.
Import RegExp.

(** The least number of iterations a quantifier makes, and the most. *)
Definition least (lo : nat) (hi : option nat) : nat :=
  match hi with
  | Some h => Nat.min lo h
  | None => lo
  end.

Definition atMost (hi : option nat) (n : nat) : Prop :=
  match hi with
  | Some h => n <= h
  | None => True
  end.

(** The pieces [xs] are read one after the other and [rest] follows. *)
Fixpoint iter (P : jsstring -> jsstring -> Prop) (xs : list jsstring)
  (rest : jsstring) : Prop :=
  match xs with
  | [] => True
  | y :: ys => P y (concat ys ++ rest) /\ iter P ys rest
  end.

Section Words.

Variable fl : flags.

(** [lang r x rest]: a match of [r] may read [x] when [rest] follows.
    A look-behind, an anchor and a negative look-ahead read nothing and
    are not looked into; a back-reference may read anything. *)
Fixpoint lang (r : ast) (x rest : jsstring) {struct r} : Prop :=
  match r with
  | Empty => x = []
  | Chr c => exists d, x = [d] /\ Ascii.eqb (canon fl d) (canon fl c) = true
  | Any => exists d, x = [d] /\ isLineTerminator d = false
  | Class neg items => exists d, x = [d] /\ inClass fl neg items d = true
  | Seq a b =>
      exists x1 x2, x = x1 ++ x2 /\ lang a x1 (x2 ++ rest) /\ lang b x2 rest
  | Alt a b => lang a x rest \/ lang b x rest
  | Repeat a lo hi _ =>
      exists xs, x = concat xs /\ least lo hi <= length xs
                 /\ atMost hi (length xs) /\ iter (lang a) xs rest
  | Group _ a => lang a x rest
  | Backref _ => True
  | Ahead neg a =>
      x = [] /\ (neg = false -> exists y z, rest = y ++ z /\ lang a y z)
  | Behind _ _ _ | Bol | Eol => x = []
  | Invalid => False
  end.

(** The capturing groups of a pattern with their bodies. *)
Fixpoint groupBodies (r : ast) : list (nat * ast) :=
  match r with
  | Seq a b | Alt a b => groupBodies a ++ groupBodies b
  | Repeat a _ _ _ | Ahead _ a => groupBodies a
  | Group i a => (i, a) :: groupBodies a
  | _ => []
  end.

(** A capture made while matching [r] on [suf]: a piece of [suf] that is
    a word of the body of its group. *)
Definition capOrigin (r : ast) (suf : jsstring) (e : nat * jsstring) : Prop :=
  exists a u v, In (fst e, a) (groupBodies r) /\ suf = u ++ snd e ++ v
                /\ lang a (snd e) v.

Definition capsFrom (r : ast) (st st' : mstate) : Prop :=
  forall e, In e (caps st') -> In e (caps st) \/ capOrigin r (after st) e.

(** A matcher that succeeds has read a word of [r], and every capture it
    added comes from a group of [r]. *)
Definition sound (r : ast)
  (m : (mstate -> option mstate) -> mstate -> option mstate) : Prop :=
  forall k st res, m k st = Some res ->
    exists st' x, k st' = Some res /\ Shape.extends st st' x
                  /\ lang r x (after st') /\ capsFrom r st st'.

(** The 256 code units of the model. *)
Definition allChars : list ascii := map ascii_of_nat (seq 0 256).

(** Every code unit [accept] takes satisfies [p]. *)
Definition subset (accept p : ascii -> bool) : bool :=
  forallb (fun c => implb (accept c) (p c)) allChars.

(** The code units an atom takes. *)
Definition accepts (r : ast) : option (ascii -> bool) :=
  match r with
  | Chr c => Some (fun d => Ascii.eqb (canon fl d) (canon fl c))
  | Any => Some (fun d => negb (isLineTerminator d))
  | Class neg items => Some (inClass fl neg items)
  | _ => None
  end.

(** Every code unit the atom [r] takes satisfies [p].  A character takes
    itself, so the test starts there. *)
Definition atomIn (p : ascii -> bool) (r : ast) : bool :=
  match r, accepts r with
  | Chr c, Some accept => if p c then subset accept p else false
  | _, Some accept => subset accept p
  | _, None => false
  end.

(** Every code unit a match of [r] reads satisfies [p]. *)
Fixpoint within (p : ascii -> bool) (r : ast) : bool :=
  match r with
  | Empty | Ahead _ _ | Behind _ _ _ | Bol | Eol => true
  | Chr _ | Any | Class _ _ => atomIn p r
  | Seq a b | Alt a b => within p a && within p b
  | Repeat a _ _ _ | Group _ a => within p a
  | Backref _ | Invalid => false
  end.

(** A match of [r] reads, or looks ahead at, a code unit that satisfies
    [p]. *)
Fixpoint mustSee (p : ascii -> bool) (r : ast) : bool :=
  match r with
  | Chr _ | Any | Class _ _ => atomIn p r
  | Seq a b => mustSee p a || mustSee p b
  | Alt a b => mustSee p a && mustSee p b
  | Repeat a lo hi _ => (0 <? least lo hi) && mustSee p a
  | Group _ a => mustSee p a
  | Ahead neg a => negb neg && mustSee p a
  | _ => false
  end.

(** The first code unit a match of [r] reads satisfies [p]. *)
Fixpoint startsIn (p : ascii -> bool) (r : ast) : bool :=
  match r with
  | Chr _ | Any | Class _ _ => atomIn p r
  | Seq a _ => startsIn p a
  | Alt a b => startsIn p a && startsIn p b
  | Repeat a lo hi _ => (0 <? least lo hi) && startsIn p a
  | Group _ a => startsIn p a
  | _ => false
  end.

(** A match of [r] reads, or looks ahead at, a backslash and, right
    after it, a code unit that [ok] rejects. *)
Fixpoint needsPair (ok : ascii -> bool) (r : ast) : bool :=
  match r with
  | Seq a b =>
      if atomIn (Ascii.eqb BSL) a
      then if startsIn (fun c => negb (ok c)) b then true else needsPair ok b
      else if needsPair ok a then true else needsPair ok b
  | Alt a b => needsPair ok a && needsPair ok b
  | Repeat a lo hi _ => (0 <? least lo hi) && needsPair ok a
  | Group _ a => needsPair ok a
  | Ahead neg a => negb neg && needsPair ok a
  | _ => false
  end.

(** The text every match of [r] starts with. *)
Fixpoint prefixLit (r : ast) : jsstring :=
  match r with
  | Chr c => [c]
  | Seq (Chr c) b => c :: prefixLit b
  | _ => []
  end.

(** After its literal start, [r] goes on with a part that may read
    nothing. *)
Fixpoint openEnded (r : ast) : bool :=
  match r with
  | Chr _ => true
  | Seq (Chr _) b => openEnded b
  | Repeat _ lo _ _ => lo =? 0
  | _ => false
  end.

End Words.

(** The literal text a pattern starts with, and what follows it. *)
Fixpoint litSplit (r : ast) : jsstring * ast :=
  match r with
  | Seq (Chr c) b => let (l, t) := litSplit b in (c :: l, t)
  | _ => ([], r)
  end.

(** The state [n] code units further on. *)
Definition advance (n : nat) (st : mstate) : mstate :=
  {| before := rev (firstn n (after st)) ++ before st;
     after := skipn n (after st);
     caps := caps st |}.

(** How many of [n] code units a quantifier with upper bound [hi] takes
    when every one of them is accepted. *)
Definition take (hi : option nat) (n : nat) : nat :=
  match hi with
  | Some h => Nat.min h n
  | None => n
  end.

(** No code unit of [s] satisfies [p]. *)
Definition quiet (p : ascii -> bool) (s : jsstring) : bool :=
  forallb (fun c => negb (p c)) s.

(** Every backslash of [s] is followed by a code unit [ok] accepts, or is
    the last code unit. *)
Fixpoint guarded (ok : ascii -> bool) (s : jsstring) : bool :=
  match s with
  | [] => true
  | c :: rest =>
      (if Ascii.eqb c BSL
       then match rest with d :: _ => ok d | [] => true end
       else true)
      && guarded ok rest
  end.

(** [c] is one of the code units of [set]. *)
Definition oneOf (set : string) (c : ascii) : bool :=
  existsb (Ascii.eqb c) (str set).

End Language.

Module Texts.
Import RegExp Language.

(** What the sanitizer writes for one code unit of plain text. *)
Definition escapeChar (c : ascii) : jsstring :=
  if isc c "&" || isc c "#" then [BSL; c]
  else if isc c "^" then str "\^{}"
  else [c].

(** A lowercase letter of the basic alphabet or a digit: [[a-z0-9]]. *)
Definition lowerAlnum (c : ascii) : bool := between 97 122 c || isDigit c.

(** [/[^a-z0-9]+/g] *)
Definition notAlnum : RegExp.t := RE "[^a-z0-9]+" "g".

(** [/Undefined control sequence[.\s\S]{0,100}/] *)
Definition undefinedRe : RegExp.t := RE "Undefined control sequence[.\s\S]{0,100}" "".

(** [/\\documentclass[\s\S]*/] *)
Definition docStartRe : RegExp.t := RE "\\documentclass[\s\S]*" "".

(** [/\\x/g] for a code unit [x]: a backslash followed by [x]. *)
Definition pairRe (x : ascii) : RegExp.t :=
  {| pattern := Seq (Chr BSL) (Chr x); global := true; fl := Shape.plainFlags |}.

(** [s] without the backslashes that stand before [x]. *)
Fixpoint dropPair (x : ascii) (s : jsstring) : jsstring :=
  match s with
  | [] => []
  | c :: rest =>
      if Ascii.eqb c BSL && match rest with d :: _ => Ascii.eqb d x | [] => false end
      then dropPair x rest
      else c :: dropPair x rest
  end.

(** [s] without the backslashes that stand before [&], [%] or [#]. *)
Fixpoint unescape (s : jsstring) : jsstring :=
  match s with
  | [] => []
  | c :: rest =>
      if Ascii.eqb c BSL
         && match rest with d :: _ => oneOf "&%#" d | [] => false end
      then unescape rest
      else c :: unescape rest
  end.

(** The placeholders of the first [n] protected spans, in a row. *)
Definition placeholders (n : nat) : jsstring :=
  concat (map Sanitizer.mathPlaceholder (seq 0 n)).

(** [t], a dollar sign, and [t] again. *)
Definition doubled (t : jsstring) : jsstring := t ++ "$"%char :: t.





End Texts.
Import Language Texts.

(* ===================================================================== *)
(** ** Lemmas *)
(* ===================================================================== *)

Import Sanitizer Extractor Renderer.

Local Arguments Ascii.eqb !a !b.
Local Arguments isWhiteSpace : simpl never.
Local Arguments consumed : simpl never.

(** *** Every pattern literal of the three functions is read in full. *)

Section Literals.

Lemma sanitizer_patterns_parse :
  forallb (fun src => wellFormed (parse src))
    ["\\begin\{enumerate\}\[\(a\)\]"; "\\begin\{enumerate\}\[\(i\)\]";
     "\\begin\{enumerate\}\[\(1\)\]"; "\\begin\{enumerate\}\[a\)\]";
     "\\begin\{enumerate\}\[1\)\]"; "\$([^$]+)\$"; "\\\[([^\]]+)\\\]";
     "\$\$([\s\S]+?)\$\$"; "\\verb([^a-zA-Z])(.+?)\1"; "^[ \t]*%.*";
     "(?<!\\)_(?![_\s])"; "(?<!\\)&"; "(?<!\\)%"; "(?<!\\)#"; "(?<!\\)\^";
     "(\\_){2,}"; "_{2,}"; "\\\\"; "\\textbf\s*\{"; "\\textit\s*\{";
     "(?<!\\)\{"; "(?<!\\)\}"]%string
  = true.
Proof. vm_compute; reflexivity. Qed.

Lemma extractor_patterns_parse :
  forallb (fun p => wellFormed (pattern (regex p))
                    && wellFormed (pattern (solutionPattern p))) patterns
  && forallb (fun re => wellFormed (pattern re)) sectionMarkers
  = true.
Proof. vm_compute; reflexivity. Qed.

Lemma renderer_patterns_parse :
  forallb (fun r : rule => wellFormed (pattern (fst r)))
    (preambleRules ++ centerRules ++ boxListRules ++ fboxRules ++ ruleRules
     ++ sectionRules ++ fontRules ++ listRules ++ textRules ++ breakRules
     ++ specialRules ++ spacingRules)
  && wellFormed (pattern parboxRule)
  && wellFormed (parse "^<[^>]+>$") && wellFormed (parse "^<(div|h[1-6]|ul|ol|hr)")
  = true.
Proof. vm_compute; reflexivity. Qed.

(** The sizes the blank rules print: the run length times 0.3 (raw
    underscores, lengths 2 to 15) and times 0.15 (escaped ones, lengths 4
    to 28), as doubles, capped at 4. *)
Lemma blank_sizes :
  map (fun n => Number.toString
                  (Number.min (Number.mul (Number.ofNat n) (Number.literal 3 10))
                              (Number.ofNat 4)))
      (seq 2 14)
  = map str ["0.6"; "0.8999999999999999"; "1.2"; "1.5"; "1.7999999999999998";
             "2.1"; "2.4"; "2.6999999999999997"; "3"; "3.3";
             "3.5999999999999996"; "3.9"; "4"; "4"]%string
  /\ map (fun n => Number.toString
                     (Number.min (Number.mul (Number.ofNat (2 * n)) (Number.literal 15 100))
                                 (Number.ofNat 4)))
         (seq 2 13)
     = map str ["0.6"; "0.8999999999999999"; "1.2"; "1.5"; "1.7999999999999998";
                "2.1"; "2.4"; "2.6999999999999997"; "3"; "3.3";
                "3.5999999999999996"; "3.9"; "4"]%string.
Proof. split; vm_compute; reflexivity. Qed.

(** The match of [boilerplateMatch] is the one [exec] returns. *)
Lemma boilerplateMatch_found :
  execFrom (regex pattern1) generalInstructions 0 = Some boilerplateMatch.
Proof. vm_compute; reflexivity. Qed.

End Literals.

(** *** Every successful match moves forward by at least the minimal width of its pattern. *)

Section MatcherProgress.

Lemma extends_refl st : extends st st [].
Proof. split; reflexivity. Qed.

Lemma extends_trans st1 st2 st3 x y :
  extends st1 st2 x -> extends st2 st3 y -> extends st1 st3 (x ++ y).
Proof.
  intros [H1 H2] [H3 H4]. split.
  - rewrite H3, H1, rev_app_distr, app_assoc. reflexivity.
  - rewrite H2, H4, app_assoc. reflexivity.
Qed.

Lemma extends_caps st st' x cs cs' :
  extends st st' x ->
  extends {| before := before st; after := after st; caps := cs |}
          {| before := before st'; after := after st'; caps := cs' |} x.
Proof. intros [H1 H2]. split; simpl; assumption. Qed.

Lemma step_advances p : advances 1 (step p).
Proof.
  intros k st res H. unfold step in H.
  destruct (after st) as [|c rest] eqn:E; [discriminate|].
  destruct (p c); [|discriminate].
  eexists _, [c]. split; [exact H|]. split; [|simpl; lia].
  split; simpl; [reflexivity|assumption].
Qed.

Lemma stepAll_advances fl s : advances 0 (stepAll fl s).
Proof.
  induction s as [|c s IH]; intros k st res H; simpl in H.
  - exists st, []. split; [assumption|]. split; [apply extends_refl|simpl; lia].
  - apply step_advances in H. destruct H as (st1 & x1 & H & E1 & _).
    apply IH in H. destruct H as (st2 & x2 & H & E2 & _).
    exists st2, (x1 ++ x2). split; [assumption|]. split; [|lia].
    eapply extends_trans; eassumption.
Qed.

Lemma repeat_advances w m gs greedy k :
  advances w m ->
  forall fuel lo hi st res,
    repeatMatcher m gs greedy k fuel lo hi st = Some res ->
    exists st' x, k st' = Some res /\ extends st st' x
                  /\ (if (lo =? 0) || isZero hi then 0 else w) <= length x.
Proof.
  intros Hm. induction fuel as [|f IH]; intros lo hi st res H; simpl in H.
  - destruct (lo =? 0) eqn:E; [|discriminate].
    exists st, []. split; [assumption|]. split; [apply extends_refl|simpl; lia].
  - destruct (isZero hi) eqn:Z.
    { exists st, []. split; [assumption|]. split; [apply extends_refl|].
      rewrite orb_true_r. simpl; lia. }
    assert (again : forall res,
      m (fun st' =>
           if (lo =? 0) && (length (after st') =? length (after st))
           then None
           else repeatMatcher m gs greedy k f (pred lo) (option_map pred hi) st')
        (clearCaps gs st) = Some res ->
      exists st' x, k st' = Some res /\ extends st st' x /\ w <= length x).
    { clear H res. intros res H. apply Hm in H.
      destruct H as (st1 & x1 & H & E1 & W1).
      destruct ((lo =? 0) && (length (after st1) =? length (after st))); [discriminate|].
      apply IH in H. destruct H as (st2 & x2 & H & E2 & _).
      exists st2, (x1 ++ x2). split; [assumption|]. split.
      - eapply extends_trans; [|eassumption].
        destruct E1 as [A B]. split; simpl in *; assumption.
      - rewrite length_app. lia. }
    destruct (0 <? lo) eqn:L.
    + apply again in H. destruct H as (st' & x & H & E & W).
      exists st', x. split; [assumption|]. split; [assumption|].
      destruct ((lo =? 0) || false); lia.
    + apply Nat.ltb_ge in L. assert (lo = 0) by lia. subst lo.
      assert (done : k st = Some res ->
        exists st' x, k st' = Some res /\ extends st st' x
                      /\ (if (0 =? 0) || isZero hi then 0 else w) <= length x).
      { intros K. exists st, []. split; [assumption|].
        split; [apply extends_refl|simpl; lia]. }
      assert (more : forall st' x, k st' = Some res /\ extends st st' x /\ w <= length x ->
        k st' = Some res /\ extends st st' x
        /\ (if (0 =? 0) || isZero hi then 0 else w) <= length x).
      { intros st' x (A & B & C). repeat split; try assumption; try apply B. simpl; lia. }
      destruct greedy; revert H.
      * match goal with |- context [m ?c ?s] => case_eq (m c s) end.
        -- intros r A H. inversion H; subst. apply again in A.
           destruct A as (st' & x & A). exists st', x. apply more, A.
        -- intros _ H. apply done, H.
      * case_eq (k st).
        -- intros r K H. inversion H; subst. apply done, K.
        -- intros _ H. apply again in H.
           destruct H as (st' & x & A). exists st', x. apply more, A.
Qed.

Lemma run_advances fl r : advances (minWidth r) (run fl r).
Proof.
  assert (stay : forall (k : mstate -> option mstate) st res, k st = Some res ->
    exists st' x, k st' = Some res /\ extends st st' x /\ 0 <= length x).
  { intros k st res H. exists st, []. split; [assumption|].
    split; [apply extends_refl|simpl; lia]. }
  induction r; intros k st res H; simpl in H; simpl minWidth;
    try (apply stay; assumption); try (apply step_advances in H; exact H).
  - apply IHr1 in H. destruct H as (st1 & x1 & H & E1 & W1).
    apply IHr2 in H. destruct H as (st2 & x2 & H & E2 & W2).
    exists st2, (x1 ++ x2). split; [assumption|]. split.
    + eapply extends_trans; eassumption.
    + rewrite length_app. lia.
  - revert H. case_eq (run fl r1 k st).
    + intros r A H. inversion H; subst. apply IHr1 in A.
      destruct A as (st' & x & A & E & W).
      exists st', x. repeat split; try assumption; try apply E. lia.
    + intros _ H. apply IHr2 in H. destruct H as (st' & x & A & E & W).
      exists st', x. repeat split; try assumption; try apply E. lia.
  - eapply repeat_advances in H; [|exact IHr]. exact H.
  - apply IHr in H. destruct H as (st1 & x & H & E & W).
    eexists _, x. split; [exact H|]. split; [|exact W].
    destruct E as [A B]. split; simpl; assumption.
  - destruct (getCap i (caps st)).
    + apply stepAll_advances in H. exact H.
    + apply stay, H.
  - destruct (run fl r Some st) as [st1|]; destruct neg; try discriminate.
    + eexists _, []. split; [exact H|]. split; [|simpl; lia]. split; reflexivity.
    + apply stay, H.
  - destruct (xorb neg _); [|discriminate]. apply stay, H.
  - destruct (atLineStart fl st); [|discriminate]. apply stay, H.
  - destruct (atLineEnd fl st); [|discriminate]. apply stay, H.
  - discriminate.
Qed.

Lemma consumed_extends st st' x : extends st st' x -> consumed st st' = x.
Proof.
  intros [A B]. unfold consumed. rewrite A, length_app, length_rev.
  replace (length x + length (before st) - length (before st)) with (length (rev x))
    by (rewrite length_rev; lia).
  rewrite firstn_app, Nat.sub_diag, firstn_all. simpl.
  rewrite app_nil_r. apply rev_involutive.
Qed.

(** What a successful attempt returns. *)
Lemma matchAt_shape re pre suf m :
  matchAt re pre suf = Some m ->
  index m = length pre /\ input m = rev pre ++ suf
  /\ (exists rest, suf = matched m ++ rest)
  /\ minWidth (pattern re) <= length (matched m).
Proof.
  unfold matchAt. intros H.
  destruct (run (fl re) (pattern re) Some _) as [st'|] eqn:R; [|discriminate].
  apply run_advances in R. destruct R as (st1 & x & K & E & W).
  inversion K; subst st1. inversion H; subst m; simpl.
  rewrite (consumed_extends E). repeat split; try assumption.
  destruct E as [_ B]. simpl in B. exists (after st'). exact B.
Qed.

End MatcherProgress.

(** *** The iteration bound of the repeat matcher is never reached. *)

Section RepeatFuel.

Lemma agreeFrom_later st st' x k1 k2 :
  extends st st' x -> agreeFrom st k1 k2 -> agreeFrom st' k1 k2.
Proof.
  intros E A st'' y E'. apply (A st'' (x ++ y)).
  eapply extends_trans; eassumption.
Qed.

Lemma step_local p : local (step p).
Proof.
  intros k1 k2 st A. unfold step.
  destruct (after st) as [|c rest] eqn:E; [reflexivity|].
  destruct (p c); [|reflexivity].
  apply (A _ [c]). split; simpl; [reflexivity|assumption].
Qed.

Lemma stepAll_local fl s : local (stepAll fl s).
Proof.
  induction s as [|c s IH]; intros k1 k2 st A; simpl.
  - apply (A st []). apply extends_refl.
  - apply step_local. intros st' x E. apply IH.
    eapply agreeFrom_later; eassumption.
Qed.

Lemma extends_length st st' x :
  extends st st' x -> length (after st') <= length (after st).
Proof. intros [_ E]. rewrite E, length_app. lia. Qed.

Lemma repeat_local m gs greedy : local m ->
  forall fuel lo hi, local (fun k => repeatMatcher m gs greedy k fuel lo hi).
Proof.
  intros Hm. induction fuel as [|f IH]; intros lo hi k1 k2 st A; simpl.
  - rewrite (A st [] (extends_refl st)). reflexivity.
  - rewrite (A st [] (extends_refl st)).
    assert (E : m (fun st' =>
                     if (lo =? 0) && (length (after st') =? length (after st))
                     then None
                     else repeatMatcher m gs greedy k1 f (pred lo) (option_map pred hi) st')
                  (clearCaps gs st)
              = m (fun st' =>
                     if (lo =? 0) && (length (after st') =? length (after st))
                     then None
                     else repeatMatcher m gs greedy k2 f (pred lo) (option_map pred hi) st')
                  (clearCaps gs st)).
    { apply Hm. intros st' x Ex.
      destruct ((lo =? 0) && (length (after st') =? length (after st))); [reflexivity|].
      apply IH. eapply agreeFrom_later; [|exact A].
      destruct Ex as [B C]. split; simpl in *; eassumption. }
    rewrite E. reflexivity.
Qed.

Lemma run_local fl r : local (run fl r).
Proof.
  induction r; intros k1 k2 st A; simpl;
    try (rewrite (A st [] (extends_refl st)); reflexivity);
    try (apply step_local; assumption).
  - apply IHr1. intros st' x E. apply IHr2. eapply agreeFrom_later; eassumption.
  - rewrite (IHr1 k1 k2 st A), (IHr2 k1 k2 st A). reflexivity.
  - apply (repeat_local (groupsOf r) greedy IHr). assumption.
  - apply IHr. intros st' x E. apply (A _ x).
    destruct E as [B C]. split; simpl; assumption.
  - destruct (getCap i (caps st)); [apply stepAll_local; assumption|].
    apply (A st []), extends_refl.
  - destruct (run fl r Some st); destruct neg; try reflexivity.
    + apply (A _ []). split; reflexivity.
    + apply (A st []), extends_refl.
  - reflexivity.
Qed.

(** The bound [run] gives [repeatMatcher] is never used up: any larger
    one gives the same result. *)
Lemma repeat_fuel_enough m gs greedy k : local m ->
  forall fuel extra lo hi st,
    lo + S (length (after st)) <= fuel ->
    repeatMatcher m gs greedy k (fuel + extra) lo hi st
    = repeatMatcher m gs greedy k fuel lo hi st.
Proof.
  intros Hm. induction fuel as [|f IH]; intros extra lo hi st L; [lia|].
  simpl.
  assert (E : m (fun st' =>
                   if (lo =? 0) && (length (after st') =? length (after st))
                   then None
                   else repeatMatcher m gs greedy k (f + extra) (pred lo)
                                      (option_map pred hi) st')
                (clearCaps gs st)
            = m (fun st' =>
                   if (lo =? 0) && (length (after st') =? length (after st))
                   then None
                   else repeatMatcher m gs greedy k f (pred lo) (option_map pred hi) st')
                (clearCaps gs st)).
  { apply Hm. intros st' x Ex. apply extends_length in Ex. simpl in Ex.
    destruct (lo =? 0) eqn:Z; simpl.
    - destruct (length (after st') =? length (after st)) eqn:Q; [reflexivity|].
      apply Nat.eqb_neq in Q. apply Nat.eqb_eq in Z. apply IH. lia.
    - apply Nat.eqb_neq in Z. apply IH. lia. }
  rewrite E. reflexivity.
Qed.

Lemma run_repeat_fuel fl a lo hi greedy k st extra :
  repeatMatcher (run fl a) (groupsOf a) greedy k
                (lo + S (length (after st)) + extra) lo hi st
  = run fl (Repeat a lo hi greedy) k st.
Proof. apply repeat_fuel_enough; [apply run_local|lia]. Qed.

End RepeatFuel.

(** *** A global replace, match by match, is one scan of the input. *)

Section OneScan.

Lemma matchAll_index re : forall suf pre skip,
  Forall (fun m => length pre + skip <= index m) (matchAll_aux re pre suf skip).
Proof.
  induction suf as [|c suf IH]; intros pre skip.
  - destruct skip; simpl; [|constructor].
    destruct (matchAt re pre []) eqn:A; constructor; [|constructor].
    apply matchAt_shape in A. lia.
  - destruct skip as [|k]; simpl.
    + destruct (matchAt re pre (c :: suf)) eqn:A.
      * constructor; [apply matchAt_shape in A; lia|].
        eapply Forall_impl; [|apply IH]. simpl. intros; lia.
      * eapply Forall_impl; [|apply IH]. simpl. intros; lia.
    + eapply Forall_impl; [|apply IH]. simpl. intros; lia.
Qed.

Lemma splice_shift (s : jsstring) p c (ms : list (Match * jsstring)) :
  Forall (fun e => S p <= index (fst e)) ms ->
  skipn p s = c :: skipn (S p) s ->
  splice s p ms = c :: splice s (S p) ms.
Proof.
  intros F E. destruct ms as [|[m r] ms]; simpl; [assumption|].
  inversion F; subst. simpl in H1.
  replace (index m - p) with (S (index m - S p)) by lia.
  rewrite E. reflexivity.
Qed.

Lemma skipn_length_app (a b : jsstring) : skipn (length a) (a ++ b) = b.
Proof. induction a; simpl; auto. Qed.

Lemma skipn_mid (pre suf : jsstring) c :
  skipn (length pre) (rev pre ++ c :: suf)
  = c :: skipn (S (length pre)) (rev pre ++ c :: suf).
Proof.
  rewrite <- (length_rev pre), skipn_length_app. f_equal.
  replace (S (length (rev pre))) with (length (rev pre ++ [c]))
    by (rewrite length_app; simpl; lia).
  replace (rev pre ++ c :: suf) with ((rev pre ++ [c]) ++ suf)
    by (rewrite <- app_assoc; reflexivity).
  symmetry. apply skipn_length_app.
Qed.

Lemma splice_stream re f : forall suf pre skip, skip <= length suf ->
  splice (rev pre ++ suf) (length pre + skip)
         (map (fun m => (m, f m)) (matchAll_aux re pre suf skip))
  = stream re f pre suf skip.
Proof.
  induction suf as [|c suf IH]; intros pre skip L.
  - simpl in L. assert (skip = 0) by lia. subst. simpl.
    destruct (matchAt re pre []) eqn:A; simpl.
    + destruct (matchAt_shape _ _ _ A) as (I & _ & (rest & Hs) & _).
      rewrite I. rewrite Nat.add_0_r, Nat.sub_diag. simpl.
      rewrite skipn_all2; [rewrite app_nil_r; reflexivity|].
      rewrite app_nil_r, length_rev. lia.
    + rewrite skipn_all2; [reflexivity|]. rewrite app_nil_r, length_rev. lia.
  - assert (R : forall k, rev pre ++ c :: suf = rev (c :: pre) ++ suf /\
                          length pre + S k = length (c :: pre) + k).
    { intros k. simpl. rewrite <- app_assoc. split; [reflexivity|lia]. }
    destruct skip as [|k]; simpl matchAll_aux; simpl stream.
    + rewrite Nat.add_0_r.
      destruct (matchAt re pre (c :: suf)) eqn:A.
      * destruct (matchAt_shape _ _ _ A) as (I & _ & (rest & Hs) & _).
        simpl. rewrite I, Nat.sub_diag. simpl. f_equal.
        apply (f_equal (@length _)) in Hs. rewrite length_app in Hs. simpl in Hs.
        destruct (length (matched m)) as [|n] eqn:Lm; simpl.
        -- rewrite Nat.add_0_r. rewrite <- (IH (c :: pre) 0) by lia.
           rewrite Nat.add_0_r. destruct (R 0) as [R1 _]. rewrite <- R1.
           apply splice_shift; [|apply skipn_mid].
           apply Forall_forall. intros e He. apply in_map_iff in He.
           destruct He as (m' & <- & Hm). simpl.
           pose proof (matchAll_index re suf (c :: pre) 0) as F.
           rewrite Forall_forall in F. apply F in Hm. simpl in Hm. lia.
        -- rewrite <- (IH (c :: pre) n) by lia.
           destruct (R n) as [R1 R2]. rewrite <- R1, <- R2. reflexivity.
      * rewrite <- (IH (c :: pre) 0) by lia.
        rewrite Nat.add_0_r. destruct (R 0) as [R1 _]. rewrite <- R1.
        apply splice_shift; [|apply skipn_mid].
        apply Forall_forall. intros e He. apply in_map_iff in He.
        destruct He as (m' & <- & Hm). simpl.
        pose proof (matchAll_index re suf (c :: pre) 0) as F.
        rewrite Forall_forall in F. apply F in Hm. simpl in Hm. lia.
    + simpl in L. rewrite <- (IH (c :: pre) k) by lia.
      destruct (R k) as [R1 R2]. rewrite <- R1, <- R2. reflexivity.
Qed.

(** A global [replace] is one scan of the input. *)
Lemma replace_stream re rep s : global re = true ->
  replace re rep s = stream re (fun m => getSubstitution m rep) [] s 0.
Proof.
  intros G. unfold replace, matchesOf, matchAll. rewrite G.
  apply (@splice_stream re (fun m => getSubstitution m rep) s [] 0). lia.
Qed.

End OneScan.

(** *** The exec loop ends. *)

Section ExtractorFacts.

Lemma search_shape re : forall suf pre m,
  search re pre suf = Some m ->
  length pre <= index m
  /\ index m + length (matched m) <= length pre + length suf
  /\ minWidth (pattern re) <= length (matched m).
Proof.
  induction suf as [|c suf IH]; intros pre m H; simpl in H.
  - destruct (matchAt re pre []) eqn:A; [|discriminate]. inversion H; subst.
    apply matchAt_shape in A. destruct A as (I & _ & (rest & Hs) & W).
    apply (f_equal (@length _)) in Hs. rewrite length_app in Hs. simpl in *. lia.
  - destruct (matchAt re pre (c :: suf)) eqn:A.
    + inversion H; subst.
      apply matchAt_shape in A. destruct A as (I & _ & (rest & Hs) & W).
      apply (f_equal (@length _)) in Hs. rewrite length_app in Hs. simpl in *. lia.
    + apply IH in H. simpl in *. lia.
Qed.

Lemma execFrom_shape re s i m :
  execFrom re s i = Some m ->
  i <= index m /\ index m + length (matched m) <= length s
  /\ minWidth (pattern re) <= length (matched m).
Proof.
  unfold execFrom. destruct (length s <? i) eqn:L; [discriminate|].
  apply Nat.ltb_ge in L. intros H. apply search_shape in H.
  rewrite length_rev, length_firstn, length_skipn in H. lia.
Qed.

Lemma execLoop_total p s : 1 <= minWidth (pattern (regex p)) ->
  forall fuel i acc, i <= length s -> length s + 2 <= fuel + i ->
  exists r, execLoop fuel p s i acc = Some r.
Proof.
  intros W. induction fuel as [|f IH]; intros i acc Hi Hf; [lia|]. simpl.
  destruct (execFrom (regex p) s i) as [m|] eqn:E.
  - apply execFrom_shape in E. apply IH; lia.
  - eexists; reflexivity.
Qed.

Lemma cascade_total s : forall ps acc,
  Forall (fun p => 1 <= minWidth (pattern (regex p))) ps ->
  exists r, cascade ps s acc = Some r.
Proof.
  induction ps as [|p ps IH]; intros acc H; simpl.
  - eexists; reflexivity.
  - inversion H; subst.
    destruct (@execLoop_total p s H2 (length s + 2) 0 acc) as [r R]; [lia|lia|].
    rewrite R. destruct (0 <? length r); [eexists; reflexivity|]. apply IH, H3.
Qed.

Lemma patterns_consume :
  Forall (fun p => 1 <= minWidth (pattern (regex p))) patterns.
Proof.
  apply Forall_forall. intros p H.
  assert (forallb (fun p => 1 <=? minWidth (pattern (regex p))) patterns = true)
    by (vm_compute; reflexivity).
  rewrite forallb_forall in H0. apply Nat.leb_le, H0, H.
Qed.

End ExtractorFacts.

(** *** Doubles that hold the number of a question. *)

Section Doubles.

Local Open Scope Z_scope.

Lemma digits_succ d : Z.pos (Pos.succ d) = Z.pos d + 1.
Proof. lia. Qed.

(** A mantissa of [d] binary digits lies between [2^(d-1)] and [2^d]. *)
Lemma digits_bounds m :
  2 ^ (Z.pos (digits2_pos m) - 1) <= Z.pos m < 2 ^ Z.pos (digits2_pos m).
Proof.
  induction m as [p IH|p IH|]; cbn [digits2_pos].
  - rewrite digits_succ. replace (Z.pos (digits2_pos p) + 1 - 1) with (Z.succ (Z.pos (digits2_pos p) - 1)) by lia.
    replace (Z.pos (digits2_pos p) + 1) with (Z.succ (Z.pos (digits2_pos p))) by lia.
    rewrite !Z.pow_succ_r by lia. lia.
  - rewrite digits_succ. replace (Z.pos (digits2_pos p) + 1 - 1) with (Z.succ (Z.pos (digits2_pos p) - 1)) by lia.
    replace (Z.pos (digits2_pos p) + 1) with (Z.succ (Z.pos (digits2_pos p))) by lia.
    rewrite !Z.pow_succ_r by lia. lia.
  - simpl. lia.
Qed.

Lemma digits_next m :
  Z.pos (digits2_pos m) <= Z.pos (digits2_pos (Pos.succ m)) <= Z.pos (digits2_pos m) + 1.
Proof.
  induction m as [p IH|p IH|]; cbn [Pos.succ digits2_pos]; rewrite ?digits_succ; lia.
Qed.

Lemma iter_xO m k : Z.pos (Pos.iter xO m k) = Z.pos m * 2 ^ Z.pos k.
Proof.
  induction k as [|k IH] using Pos.peano_ind.
  - simpl. lia.
  - rewrite Pos.iter_succ, Pos2Z.inj_xO, IH, digits_succ.
    replace (Z.pos k + 1) with (Z.succ (Z.pos k)) by lia.
    rewrite Z.pow_succ_r by lia. lia.
Qed.

Lemma iter_xO_digits m k :
  Z.pos (digits2_pos (Pos.iter xO m k)) = Z.pos (digits2_pos m) + Z.pos k.
Proof.
  induction k as [|k IH] using Pos.peano_ind.
  - simpl. lia.
  - rewrite Pos.iter_succ. cbn [digits2_pos]. rewrite digits_succ, IH. lia.
Qed.

(** A shift to the right by fewer places than the mantissa has digits
    leaves a mantissa with that many digits fewer. *)
Lemma shr_1_digits m r s : 2 <= Z.pos (digits2_pos m) ->
  exists m', shr_m (shr_1 {| shr_m := Z.pos m; shr_r := r; shr_s := s |}) = Z.pos m'
             /\ Z.pos (digits2_pos m') = Z.pos (digits2_pos m) - 1.
Proof.
  destruct m as [p|p|]; cbn [digits2_pos shr_1 shr_m]; intros H.
  - exists p. split; [reflexivity|lia].
  - exists p. split; [reflexivity|lia].
  - lia.
Qed.

Lemma shr_digits : forall p mrs m,
  shr_m mrs = Z.pos m -> Z.pos p < Z.pos (digits2_pos m) ->
  exists m', shr_m (iter_pos shr_1 p mrs) = Z.pos m'
             /\ Z.pos (digits2_pos m') = Z.pos (digits2_pos m) - Z.pos p.
Proof.
  assert (One : forall mrs m, shr_m mrs = Z.pos m -> 2 <= Z.pos (digits2_pos m) ->
            exists m', shr_m (shr_1 mrs) = Z.pos m'
                       /\ Z.pos (digits2_pos m') = Z.pos (digits2_pos m) - 1).
  { intros [x r s] m E H. cbn [shr_m] in E. subst x. apply shr_1_digits, H. }
  induction p as [p IH|p IH|]; intros mrs m E L; cbn [iter_pos].
  - destruct (One mrs m E) as (m1 & E1 & D1); [lia|].
    destruct (IH _ _ E1) as (m2 & E2 & D2); [lia|].
    destruct (IH _ _ E2) as (m3 & E3 & D3); [lia|].
    exists m3. split; [exact E3|lia].
  - destruct (IH _ _ E) as (m2 & E2 & D2); [lia|].
    destruct (IH _ _ E2) as (m3 & E3 & D3); [lia|].
    exists m3. split; [exact E3|lia].
  - destruct (One mrs m E) as (m1 & E1 & D1); [lia|].
    exists m1. split; [exact E1|lia].
Qed.

Lemma round_nearest_even_digits m l :
  exists m', round_nearest_even (Z.pos m) l = Z.pos m'
             /\ Z.pos (digits2_pos m) <= Z.pos (digits2_pos m')
                <= Z.pos (digits2_pos m) + 1.
Proof.
  assert (Up : exists m', Z.pos m + 1 = Z.pos m'
             /\ Z.pos (digits2_pos m) <= Z.pos (digits2_pos m')
                <= Z.pos (digits2_pos m) + 1).
  { exists (Pos.succ m). split; [lia|apply digits_next]. }
  assert (Same : exists m', Z.pos m = Z.pos m'
             /\ Z.pos (digits2_pos m) <= Z.pos (digits2_pos m')
                <= Z.pos (digits2_pos m) + 1).
  { exists m. split; [reflexivity|lia]. }
  destruct l as [|[| |]]; cbn [round_nearest_even]; try assumption.
  destruct (Z.even (Z.pos m)); assumption.
Qed.

(** One alignment of a mantissa to the exponent the format gives it. *)
Lemma shr_fexp_step m e l : -1074 <= e ->
  exists mrs' m' e',
    shr_fexp 53 1024 (Z.pos m) e l = (mrs', e')
    /\ shr_m mrs' = Z.pos m' /\ e <= e'
    /\ ((Z.pos (digits2_pos m) <= 53 /\ m' = m /\ e' = e)
        \/ (53 < Z.pos (digits2_pos m) /\ Z.pos (digits2_pos m') = 53)).
Proof.
  intros E. unfold shr_fexp, shr, fexp, emin. cbn [Zdigits2].
  assert (R : shr_m (shr_record_of_loc (Z.pos m) l) = Z.pos m)
    by (destruct l as [|[| |]]; reflexivity).
  destruct (Z.max (Z.pos (digits2_pos m) + e - 53) (3 - 1024 - 53) - e) as [|p|p] eqn:N.
  - exists (shr_record_of_loc (Z.pos m) l), m, e.
    split; [reflexivity|]. split; [exact R|]. split; [lia|]. left. lia.
  - destruct (@shr_digits p _ m R) as (m' & E' & D'); [lia|].
    exists (iter_pos shr_1 p (shr_record_of_loc (Z.pos m) l)), m', (e + Z.pos p).
    split; [reflexivity|]. split; [exact E'|]. split; [lia|]. right. lia.
  - exists (shr_record_of_loc (Z.pos m) l), m, e.
    split; [reflexivity|]. split; [exact R|]. split; [lia|]. left. lia.
Qed.

(** Rounding a positive mantissa gives a finite double of the same sign,
    with a full mantissa when the input had one, or the infinity of that
    sign: never a zero and never NaN. *)
Lemma round_aux_shape sx m ex : -1074 <= ex ->
  binary_round_aux 53 1024 sx (Z.pos m) ex loc_Exact = S754_infinity sx
  \/ exists m' e',
       binary_round_aux 53 1024 sx (Z.pos m) ex loc_Exact = S754_finite sx m' e'
       /\ ex <= e' <= 971
       /\ (53 <= Z.pos (digits2_pos m) -> Z.pos (digits2_pos m') = 53).
Proof.
  intros E. unfold binary_round_aux.
  destruct (@shr_fexp_step m ex loc_Exact E) as (mrs1 & m1 & e1 & S1 & M1 & L1 & C1).
  rewrite S1, M1.
  destruct (round_nearest_even_digits m1 (loc_of_shr_record mrs1)) as (m2 & R2 & D2).
  rewrite R2.
  destruct (@shr_fexp_step m2 e1 loc_Exact) as (mrs3 & m3 & e3 & S3 & M3 & L3 & C3);
    [lia|].
  rewrite S3, M3.
  destruct (e3 <=? 1024 - 53) eqn:B; [right|left; reflexivity].
  apply Z.leb_le in B. exists m3, e3. split; [reflexivity|]. split; [lia|].
  intros F. destruct C3 as [(A & -> & _)|(_ & A)]; [|exact A].
  destruct C1 as [(A1 & -> & _)|(_ & A1)]; lia.
Qed.

Lemma round_shape sx m ex : -1074 <= ex ->
  binary_round 53 1024 sx m ex = S754_infinity sx
  \/ exists m' e',
       binary_round 53 1024 sx m ex = S754_finite sx m' e'
       /\ e' <= 971
       /\ (ex = 0 -> Z.pos (digits2_pos m') = 53 /\ -52 <= e').
Proof.
  intros E. unfold binary_round, shl_align, fexp, emin.
  destruct (Z.max (Z.pos (digits2_pos m) + ex - 53) (3 - 1024 - 53) - ex) as [|p|p] eqn:N.
  - destruct (@round_aux_shape sx m ex E) as [I|(m' & e' & F & B & D)]; [left; exact I|].
    right. exists m', e'. split; [exact F|]. split; [lia|].
    intros Z. split; [apply D|]; lia.
  - destruct (@round_aux_shape sx m ex E) as [I|(m' & e' & F & B & D)]; [left; exact I|].
    right. exists m', e'. split; [exact F|]. split; [lia|].
    intros Z. split; [apply D|]; lia.
  - destruct (@round_aux_shape sx (Pos.iter xO m p)
                (Z.max (Z.pos (digits2_pos m) + ex - 53) (3 - 1024 - 53)))
      as [I|(m' & e' & F & B & D)]; [lia|left; exact I|].
    right. exists m', e'. split; [exact F|]. split; [lia|].
    intros Z. rewrite iter_xO_digits in D. split; [apply D|]; lia.
Qed.

(** The Number value of an integer that is not negative. *)
Lemma ofZ_natural z : 0 <= z -> natural (Number.ofZ z) = true.
Proof.
  intros H. unfold Number.ofZ, binary_normalize. destruct z as [|p|p]; [reflexivity| |lia].
  destruct (@round_shape false p 0) as [I|(m' & e' & F & B & D)]; [lia| |].
  - rewrite I. reflexivity.
  - rewrite F. destruct (D eq_refl) as [D1 D2]. cbn [natural].
    rewrite D1. apply andb_true_intro. split; [apply andb_true_intro; split|].
    + reflexivity.
    + apply Z.leb_le. exact D2.
    + apply Z.leb_le. exact B.
Qed.

Lemma natural_finite s m e : natural (S754_finite s m e) = true ->
  s = false /\ 4503599627370496 <= Z.pos m < 9007199254740992 /\ -52 <= e <= 971.
Proof.
  destruct s; [discriminate|]. cbn [natural]. intros H.
  apply andb_prop in H. destruct H as [H H3]. apply andb_prop in H. destruct H as [H1 H2].
  apply Z.eqb_eq in H1. apply Z.leb_le in H2, H3.
  pose proof (digits_bounds m) as B. rewrite H1 in B.
  change (2 ^ (53 - 1)) with 4503599627370496 in B.
  change (2 ^ 53) with 9007199254740992 in B. repeat split; lia.
Qed.

(** On these numbers [<] and the equality of keys are those of the rank. *)
Lemma ltb_rank x y : natural x = true -> natural y = true ->
  Number.ltb x y = (rank x <? rank y).
Proof.
  intros X Y. unfold Number.ltb, SFltb.
  destruct x as [[|]|[|]| |sx mx ex]; try discriminate;
    destruct y as [[|]|[|]| |sy my ey]; try discriminate;
    try (apply natural_finite in X; destruct X as (-> & X1 & X2));
    try (apply natural_finite in Y; destruct Y as (-> & Y1 & Y2));
    cbn [SFcompare rank]; change (2 ^ 53) with 9007199254740992;
    try (symmetry; apply Z.ltb_lt; lia); try (symmetry; apply Z.ltb_ge; lia).
  destruct (Z.compare_spec ex ey) as [->|L|L].
  - change (Pos.compare_cont Eq mx my) with (Pos.compare mx my).
    destruct (Pos.compare_spec mx my) as [->|M|M].
    + symmetry. apply Z.ltb_ge. lia.
    + symmetry. apply Z.ltb_lt. lia.
    + symmetry. apply Z.ltb_ge. lia.
  - symmetry. apply Z.ltb_lt. lia.
  - symmetry. apply Z.ltb_ge. lia.
Qed.

Lemma same_rank x y : natural x = true -> natural y = true ->
  Number.sameValueZero x y = (rank x =? rank y).
Proof.
  intros X Y. unfold Number.sameValueZero, SFeqb.
  destruct x as [[|]|[|]| |sx mx ex]; try discriminate;
    destruct y as [[|]|[|]| |sy my ey]; try discriminate;
    try (apply natural_finite in X; destruct X as (-> & X1 & X2));
    try (apply natural_finite in Y; destruct Y as (-> & Y1 & Y2));
    cbn [SFcompare rank]; change (2 ^ 53) with 9007199254740992;
    try (symmetry; apply Z.eqb_eq; lia); try (symmetry; apply Z.eqb_neq; lia).
  destruct (Z.compare_spec ex ey) as [->|L|L].
  - change (Pos.compare_cont Eq mx my) with (Pos.compare mx my).
    destruct (Pos.compare_spec mx my) as [->|M|M].
    + symmetry. apply Z.eqb_eq. lia.
    + symmetry. apply Z.eqb_neq. lia.
    + symmetry. apply Z.eqb_neq. lia.
  - symmetry. apply Z.eqb_neq. lia.
  - symmetry. apply Z.eqb_neq. lia.
Qed.

Lemma rank_inj x y : natural x = true -> natural y = true ->
  rank x = rank y -> x = y.
Proof.
  intros X Y.
  destruct x as [[|]|[|]| |sx mx ex]; try discriminate;
    destruct y as [[|]|[|]| |sy my ey]; try discriminate;
    try (apply natural_finite in X; destruct X as (-> & X1 & X2));
    try (apply natural_finite in Y; destruct Y as (-> & Y1 & Y2));
    cbn [rank]; change (2 ^ 53) with 9007199254740992; intros R;
    try reflexivity; try lia.
  assert (ex = ey) by lia. subst ey. assert (Z.pos mx = Z.pos my) by lia.
  congruence.
Qed.

Lemma shl_align_value m e e' : e' <= e ->
  Z.pos (fst (shl_align m e e')) = Z.pos m * 2 ^ (e - e').
Proof.
  intros L. unfold shl_align. destruct (e' - e) as [|p|p] eqn:D; cbn [fst].
  - replace (e - e') with 0 by lia. lia.
  - lia.
  - rewrite iter_xO. replace (e - e') with (Z.pos p) by lia. reflexivity.
Qed.

(** The comparator of the sort: the difference of two of these numbers is
    below zero exactly when the first is the smaller one. *)
Lemma sub_rank x y : natural x = true -> natural y = true ->
  Number.ltb (Number.sub x y) Number.zero = (rank x <? rank y).
Proof.
  intros X Y.
  destruct x as [[|]|[|]| |sx mx ex]; try discriminate;
    destruct y as [[|]|[|]| |sy my ey]; try discriminate;
    try (apply natural_finite in X; destruct X as (-> & X1 & X2));
    try (apply natural_finite in Y; destruct Y as (-> & Y1 & Y2));
    cbn [Number.sub SFsub negb rank]; change (2 ^ 53) with 9007199254740992;
    try (symmetry; apply Z.ltb_lt; lia); try (symmetry; apply Z.ltb_ge; lia).
  cbn [cond_Zopp].
  rewrite !shl_align_value by lia.
  set (D := Z.pos mx * 2 ^ (ex - Z.min ex ey) - Z.pos my * 2 ^ (ey - Z.min ex ey)).
  assert (S : (D < 0 <-> (ex + 53) * 9007199254740992 + Z.pos mx
                         < (ey + 53) * 9007199254740992 + Z.pos my)
              /\ (D = 0 <-> (ex + 53) * 9007199254740992 + Z.pos mx
                            = (ey + 53) * 9007199254740992 + Z.pos my)).
  { subst D. destruct (Z.lt_trichotomy ex ey) as [L|[->|L]].
    - rewrite Z.min_l by lia. rewrite Z.sub_diag, Z.mul_1_r.
      assert (P : 2 <= 2 ^ (ey - ex)).
      { change 2 with (2 ^ 1) at 1. apply Z.pow_le_mono_r; lia. }
      split; split; intros; nia.
    - rewrite Z.min_id, Z.sub_diag, !Z.mul_1_r. split; split; intros; lia.
    - rewrite Z.min_r by lia. rewrite Z.sub_diag, Z.mul_1_r.
      assert (P : 2 <= 2 ^ (ex - ey)).
      { change 2 with (2 ^ 1) at 1. apply Z.pow_le_mono_r; lia. }
      split; split; intros; nia. }
  destruct S as [S1 S2]. unfold binary_normalize.
  destruct D as [|p|p] eqn:E.
  - symmetry. apply Z.ltb_ge. lia.
  - destruct (@round_shape false p (Z.min ex ey)) as [I|(m' & e' & F & _)]; [lia| |].
    + rewrite I. symmetry. apply Z.ltb_ge. lia.
    + rewrite F. symmetry. apply Z.ltb_ge. lia.
  - destruct (@round_shape true p (Z.min ex ey)) as [I|(m' & e' & F & _)]; [lia| |].
    + rewrite I. symmetry. apply Z.ltb_lt. lia.
    + rewrite F. symmetry. apply Z.ltb_lt. lia.
Qed.

End Doubles.

(** *** The keys of the map. *)

Section MapKeys.

Lemma same_iff x y :
  Number.sameValueZero x y = true
  <-> (x = y \/ exists s t, x = S754_zero s /\ y = S754_zero t).
Proof.
  assert (No : forall a b : Number.double,
            (forall s t, a = S754_zero s -> b = S754_zero t -> False) -> a <> b ->
            false = true <-> (a = b \/ exists s t, a = S754_zero s /\ b = S754_zero t)).
  { intros a b Z N. split; [discriminate|].
    intros [H|(s & t & H1 & H2)]; [contradiction|destruct (Z s t H1 H2)]. }
  unfold Number.sameValueZero, SFeqb.
  destruct x as [sx|sx| |sx mx ex]; destruct y as [sy|sy| |sy my ey];
    cbn [SFcompare].
  - split; [intros _; right; exists sx, sy; split; reflexivity|reflexivity].
  - destruct sy; apply No; congruence.
  - apply No; congruence.
  - destruct sy; apply No; congruence.
  - destruct sx; apply No; congruence.
  - destruct sx, sy; try (apply No; congruence);
      (split; [intros _; left; reflexivity|reflexivity]).
  - apply No; congruence.
  - destruct sx; apply No; congruence.
  - apply No; congruence.
  - apply No; congruence.
  - split; [intros _; left; reflexivity|reflexivity].
  - apply No; congruence.
  - destruct sx; apply No; congruence.
  - destruct sy; apply No; congruence.
  - apply No; congruence.
  - change (Pos.compare_cont Eq mx my) with (Pos.compare mx my).
    destruct sx, sy; try (apply No; congruence);
      destruct (Z.compare_spec ex ey) as [->|L|L];
      try (apply No; [congruence|intros H; inversion H; lia]);
      destruct (Pos.compare_spec mx my) as [->|M|M]; cbn [CompOpp];
      try (apply No; [congruence|intros H; inversion H; lia]);
      (split; [intros _; left; reflexivity|reflexivity]).
Qed.

Lemma same_refl x : Number.sameValueZero x x = true.
Proof. apply same_iff. left. reflexivity. Qed.

Lemma same_sym x y : Number.sameValueZero x y = Number.sameValueZero y x.
Proof.
  destruct (Number.sameValueZero x y) eqn:A; destruct (Number.sameValueZero y x) eqn:B;
    try reflexivity.
  - apply same_iff in A. rewrite <- B. symmetry. apply same_iff.
    destruct A as [->|(s & t & -> & ->)]; [left; reflexivity|right].
    exists t, s. split; reflexivity.
  - apply same_iff in B. rewrite <- A. apply same_iff.
    destruct B as [->|(s & t & -> & ->)]; [left; reflexivity|right].
    exists t, s. split; reflexivity.
Qed.

Lemma same_trans x y z :
  Number.sameValueZero x y = true -> Number.sameValueZero y z = true ->
  Number.sameValueZero x z = true.
Proof.
  intros A B. apply same_iff in A, B. apply same_iff.
  destruct A as [->|(s & t & -> & ->)]; [exact B|].
  destruct B as [<-|(s' & t' & E & ->)].
  - right. exists s, t. split; reflexivity.
  - right. exists s, t'. split; reflexivity.
Qed.

(** Equal to the one, not equal to the other. *)
Lemma same_apart x y z :
  Number.sameValueZero x y = true -> Number.sameValueZero y z = false ->
  Number.sameValueZero x z = false.
Proof.
  intros A B. destruct (Number.sameValueZero x z) eqn:C; [|reflexivity].
  rewrite same_sym in A. rewrite (@same_trans y x z A C) in B. discriminate.
Qed.

(** No two keys of the map are equal. *)
Lemma mapSet_keys x k v m :
  In x (map fst (mapSet k v m)) -> x = k \/ In x (map fst m).
Proof.
  induction m as [|[k' v'] m IH]; simpl.
  - intuition.
  - destruct (Number.sameValueZero k k'); simpl; [tauto|].
    intros [H|H]; [tauto|]. apply IH in H. tauto.
Qed.

Lemma mapSet_apart k v m :
  ForallOrdPairs (fun a b => Number.sameValueZero a b = false) (map fst m) ->
  ForallOrdPairs (fun a b => Number.sameValueZero a b = false)
                 (map fst (mapSet k v m)).
Proof.
  induction m as [|[k' v'] m IH]; simpl; intros H.
  - constructor; constructor.
  - inversion H; subst. destruct (Number.sameValueZero k k') eqn:E; simpl.
    + constructor; assumption.
    + constructor; [|apply IH; assumption].
      apply Forall_forall. intros x I. apply mapSet_keys in I.
      destruct I as [->|I]; [rewrite same_sym; exact E|].
      rewrite Forall_forall in H2. apply H2, I.
Qed.

Lemma mapSet_keyed k v m : k = number v -> keyed m -> keyed (mapSet k v m).
Proof.
  intros ->. induction m as [|[k' v'] m IH]; simpl; intros H.
  - constructor; [apply same_refl|constructor].
  - inversion H; subst. destruct (Number.sameValueZero (number v) k') eqn:E.
    + constructor; [cbn [fst snd]; rewrite same_sym; exact E|assumption].
    + constructor; [assumption|apply IH; assumption].
Qed.

Lemma keyed_in q m : keyed m -> In q (values m) ->
  exists k, In k (map fst m) /\ Number.sameValueZero k (number q) = true.
Proof.
  induction 1 as [|[k v] m E _ IH]; simpl; [intros []|].
  intros [<-|H]; [exists k; split; [left; reflexivity|exact E]|].
  destruct (IH H) as (k' & I & S). exists k'. split; [right; exact I|exact S].
Qed.

Lemma mapSet_values q v m :
  ForallOrdPairs (fun a b => Number.sameValueZero a b = false) (map fst m) ->
  keyed m ->
  In q (values (mapSet (number v) v m))
  <-> q = v \/ (sameNumber q v = false /\ In q (values m)).
Proof.
  unfold sameNumber.
  induction m as [|[k' v'] m IH]; simpl; intros N K.
  - intuition.
  - inversion N; subst. inversion K; subst. cbn [fst snd] in H3.
    destruct (Number.sameValueZero (number v) k') eqn:E; simpl.
    + split.
      * intros [H|H]; [left; congruence|right].
        split; [|right; assumption].
        destruct (@keyed_in q m H4 H) as (kq & Iq & Sq).
        rewrite Forall_forall in H1. specialize (H1 kq Iq).
        apply (@same_apart _ kq); [rewrite same_sym; exact Sq|].
        rewrite same_sym. apply (@same_apart _ k'); [exact E|exact H1].
      * intros [H|[H [G|G]]]; [left; congruence| |right; assumption].
        subst q. rewrite same_sym in H3.
        rewrite (@same_trans _ _ _ H3 (eq_trans (same_sym _ _) E)) in H. discriminate.
    + rewrite (IH H2 H4). split.
      * intros [H|[H|[H G]]]; [right|left|right]; try tauto.
        subst q. split; [|left; reflexivity].
        apply (@same_apart _ k'); [rewrite same_sym; exact H3|].
        rewrite same_sym. exact E.
      * intros [H|[H [G|G]]]; tauto.
Qed.

Lemma newMap_snoc l x :
  newMap (entriesOf (l ++ [x])) = mapSet (number x) x (newMap (entriesOf l)).
Proof.
  unfold newMap, entriesOf. rewrite map_app, fold_left_app. reflexivity.
Qed.

Lemma newMap_inv l :
  ForallOrdPairs (fun a b => Number.sameValueZero a b = false)
                 (map fst (newMap (entriesOf l)))
  /\ keyed (newMap (entriesOf l)).
Proof.
  induction l as [|x l [N K]] using rev_ind.
  - split; constructor.
  - rewrite newMap_snoc. split; [apply mapSet_apart, N|apply mapSet_keyed; auto].
Qed.

Lemma lastOfItsNumber_snoc q l x :
  lastOfItsNumber q (l ++ [x])
  <-> q = x \/ (sameNumber q x = false /\ lastOfItsNumber q l).
Proof.
  split.
  - intros (l1 & l2 & E & F).
    destruct l2 as [|y l2] using rev_ind.
    + apply app_inj_tail in E. left. symmetry. apply E.
    + clear IHl2. right.
      change (l1 ++ q :: l2 ++ [y]) with (l1 ++ (q :: l2) ++ [y]) in E.
      rewrite app_assoc in E. apply app_inj_tail in E. destruct E as [E1 E2].
      subst. apply Forall_app in F. destruct F as [F1 F2]. inversion F2; subst.
      split; [unfold sameNumber in *; rewrite same_sym; assumption|].
      exists l1, l2. split; [reflexivity|assumption].
  - intros [E|[N (l1 & l2 & E & F)]].
    + subst. exists l, []. split; [reflexivity|constructor].
    + subst. exists l1, (l2 ++ [x]). split.
      * rewrite <- app_assoc. reflexivity.
      * apply Forall_app. split; [assumption|].
        constructor; [unfold sameNumber in *; rewrite same_sym; assumption|constructor].
Qed.

Lemma newMap_values q l :
  In q (values (newMap (entriesOf l))) <-> lastOfItsNumber q l.
Proof.
  induction l as [|x l IH] using rev_ind.
  - split; [intros []|]. intros (l1 & l2 & E & _). destruct l1; discriminate.
  - rewrite newMap_snoc, lastOfItsNumber_snoc.
    destruct (newMap_inv l) as [N K]. rewrite (mapSet_values q x N K), IH.
    reflexivity.
Qed.

(** The values of the map, pairwise. *)
Lemma values_apart m :
  ForallOrdPairs (fun a b => Number.sameValueZero a b = false) (map fst m) ->
  keyed m -> ForallOrdPairs (fun a b => sameNumber a b = false) (values m).
Proof.
  unfold sameNumber.
  induction m as [|[k v] m IH]; simpl; intros N K; [constructor|].
  inversion N; subst. inversion K; subst. cbn [fst snd] in H3.
  constructor; [|apply IH; assumption].
  apply Forall_forall. intros q I.
  destruct (@keyed_in q m H4 I) as (kq & Iq & Sq).
  rewrite Forall_forall in H1. specialize (H1 kq Iq).
  rewrite same_sym. apply (@same_apart _ kq); [rewrite same_sym; exact Sq|].
  rewrite same_sym. apply (@same_apart _ k); [rewrite same_sym; exact H3|exact H1].
Qed.

End MapKeys.

(** *** What the sort leaves. *)

Section SortedNumbers.

Lemma insert_in q x l : In q (insert x l) <-> q = x \/ In q l.
Proof.
  induction l as [|y l IH]; simpl.
  - intuition.
  - destruct (Number.ltb (comparator x y) Number.zero); simpl; [|rewrite IH]; intuition.
Qed.

Lemma sort_in_acc q l : forall acc,
  In q (fold_left (fun acc q => insert q acc) l acc) <-> In q l \/ In q acc.
Proof.
  induction l as [|x l IH]; intros acc; simpl.
  - intuition.
  - rewrite IH, insert_in. intuition.
Qed.

Lemma sort_in q l : In q (sort l) <-> In q l.
Proof. unfold sort. rewrite sort_in_acc. simpl. intuition. Qed.

Let rk (q : Question) : Z := rank (number q).
Let natq (q : Question) : Prop := natural (number q) = true.

Lemma insert_ascending x l : natq x -> Forall natq l ->
  StronglySorted Z.lt (map rk l) -> ~ In (rk x) (map rk l) ->
  StronglySorted Z.lt (map rk (insert x l)).
Proof.
  intros X. induction l as [|y l IH]; simpl; intros A S N.
  - constructor; constructor.
  - inversion S; subst. inversion A; subst. unfold comparator.
    rewrite (@sub_rank (number x) (number y) X H3).
    fold (rk x). fold (rk y). destruct (Z.ltb_spec (rk x) (rk y)); simpl.
    + constructor; [assumption|]. constructor; [assumption|].
      eapply Forall_impl; [|eassumption]. simpl. intros; lia.
    + constructor; [apply IH; [assumption|assumption|intros F; apply N; right; exact F]|].
      apply Forall_forall. intros n Hn. apply in_map_iff in Hn.
      destruct Hn as (q & <- & Hq). apply insert_in in Hq. destruct Hq as [->|Hq].
      * assert (rk y <> rk x) by (intros F; apply N; left; exact F). lia.
      * rewrite Forall_forall in H2. apply H2, in_map, Hq.
Qed.

Lemma sort_ascending_acc l : forall acc,
  Forall natq l -> Forall natq acc ->
  StronglySorted Z.lt (map rk acc) -> NoDup (map rk l) ->
  (forall n, In n (map rk l) -> ~ In n (map rk acc)) ->
  StronglySorted Z.lt (map rk (fold_left (fun acc q => insert q acc) l acc)).
Proof.
  induction l as [|x l IH]; intros acc L A S N D; simpl; [assumption|].
  simpl in N. inversion N; subst. inversion L; subst. apply IH; [assumption| | |assumption|].
  - apply Forall_forall. intros q I. apply insert_in in I.
    destruct I as [->|I]; [assumption|]. rewrite Forall_forall in A. apply A, I.
  - apply insert_ascending; [assumption|assumption|assumption|].
    apply D. left; reflexivity.
  - intros n Hn Hi. apply in_map_iff in Hi. destruct Hi as (q & <- & Hq).
    apply insert_in in Hq. destruct Hq as [->|Hq].
    + contradiction.
    + apply (D (rk q)); [right; assumption|apply in_map, Hq].
Qed.

Lemma apart_ranks l : Forall natq l ->
  ForallOrdPairs (fun a b => sameNumber a b = false) l -> NoDup (map rk l).
Proof.
  induction l as [|x l IH]; intros A P; [constructor|].
  inversion A; subst. inversion P; subst. simpl. constructor; [|apply IH; assumption].
  intros I. apply in_map_iff in I. destruct I as (q & E & Iq).
  rewrite Forall_forall in H3, H2. specialize (H3 q Iq). specialize (H2 q Iq).
  unfold sameNumber in H3. rewrite (@same_rank _ _ H1 H2) in H3.
  apply Z.eqb_neq in H3. unfold rk in E. congruence.
Qed.

(** Among the numbers [parseInt] gives, the sorted list ascends. *)
Lemma uniqueQuestions_ranks l : Forall natq l ->
  Forall natq (uniqueQuestions l)
  /\ StronglySorted Z.lt (map rk (uniqueQuestions l)).
Proof.
  intros A. unfold uniqueQuestions. fold (entriesOf l).
  destruct (newMap_inv l) as [N K].
  assert (V : Forall natq (values (newMap (entriesOf l)))).
  { apply Forall_forall. intros q I. apply newMap_values in I.
    destruct I as (l1 & l2 & E & _). rewrite Forall_forall in A. apply A.
    rewrite E. apply in_or_app. right. left. reflexivity. }
  split.
  - apply Forall_forall. intros q I. apply (proj1 (@sort_in q _)) in I.
    rewrite Forall_forall in V. apply V, I.
  - unfold sort. apply sort_ascending_acc;
      [exact V|constructor|constructor| |intros n _ []].
    apply apart_ranks; [exact V|]. apply values_apart; assumption.
Qed.

Lemma ranks_ascending l : Forall natq l -> StronglySorted Z.lt (map rk l) ->
  StronglySorted (fun a b => Number.ltb a b = true) (map number l)
  /\ ForallOrdPairs (fun a b => sameNumber a b = false) l.
Proof.
  induction l as [|x l IH]; intros A S; [split; constructor|].
  inversion A; subst. inversion S; subst. destruct (IH H2 H3) as [I1 I2].
  split; constructor; try assumption.
  - apply Forall_forall. intros n I. apply in_map_iff in I. destruct I as (q & <- & Iq).
    rewrite Forall_forall in H2, H4. specialize (H2 q Iq).
    rewrite (@ltb_rank _ _ H1 H2). apply Z.ltb_lt.
    change (rk x < rk q)%Z. apply H4. apply (in_map rk), Iq.
  - apply Forall_forall. intros q Iq.
    rewrite Forall_forall in H2, H4. specialize (H2 q Iq).
    unfold sameNumber. rewrite (@same_rank _ _ H1 H2). apply Z.eqb_neq.
    assert (rk x < rk q)%Z by (apply H4; apply (in_map rk), Iq). unfold rk in *. lia.
Qed.

End SortedNumbers.


(** *** The five escaping calls as scans. *)

Section EscapingScans.

Lemma stream_ext re f g : (forall m, f m = g m) ->
  forall suf pre skip, stream re f pre suf skip = stream re g pre suf skip.
Proof.
  intros E. induction suf as [|c suf IH]; intros pre skip; destruct skip; simpl;
    try reflexivity.
  - destruct (matchAt re pre []); [rewrite E|]; reflexivity.
  - destruct (matchAt re pre (c :: suf)); [rewrite E|]; rewrite IH; reflexivity.
  - apply IH.
Qed.

Lemma one_more (pre : jsstring) (c : ascii) cs1 cs2 suf rest :
  consumed {| before := pre; after := suf; caps := cs1 |}
           {| before := c :: pre; after := rest; caps := cs2 |} = [c].
Proof.
  unfold consumed. cbn [before length].
  replace (S (length pre) - length pre) with 1 by lia. reflexivity.
Qed.

Lemma matchAt_bare t pre suf :
  matchAt (bareRe t) pre suf =
  match suf with
  | c :: _ =>
      if negb (escaped (hd_error pre)) && Ascii.eqb c t
      then Some (single pre suf c) else None
  | [] => None
  end.
Proof.
  unfold matchAt, single. cbn.
  destruct pre as [|p pre]; cbn.
  - destruct suf as [|c suf]; cbn; [reflexivity|].
    destruct (Ascii.eqb c t); reflexivity.
  - destruct (Ascii.eqb _ p); cbn; [destruct suf; reflexivity|].
    destruct suf as [|c suf]; cbn; [reflexivity|].
    destruct (Ascii.eqb c t); cbn; [|reflexivity].
    rewrite one_more. reflexivity.
Qed.

Lemma matchAt_underscore pre suf :
  matchAt underscoreRe pre suf =
  match suf with
  | c :: rest =>
      if negb (escaped (hd_error pre)) && Ascii.eqb c "_" && negb (blankAhead rest)
      then Some (single pre suf c) else None
  | [] => None
  end.
Proof.
  unfold matchAt, single. cbn.
  destruct pre as [|p pre]; cbn.
  - destruct suf as [|c suf]; cbn; [reflexivity|].
    destruct (Ascii.eqb c "_"); cbn; [|reflexivity].
    destruct suf as [|n suf]; cbn; [reflexivity|].
    destruct (Ascii.eqb "_" n); cbn; [reflexivity|].
    destruct (isWhiteSpace n); reflexivity.
  - destruct (Ascii.eqb _ p); cbn; [destruct suf; reflexivity|].
    destruct suf as [|c suf]; cbn; [reflexivity|].
    destruct (Ascii.eqb c "_"); cbn; [|reflexivity].
    destruct suf as [|n suf]; cbn.
    + rewrite one_more. reflexivity.
    + destruct (Ascii.eqb "_" n); cbn; [reflexivity|].
      destruct (isWhiteSpace n); cbn; [reflexivity|].
      rewrite one_more. reflexivity.
Qed.

Lemma stream_bare t rep : forall suf pre,
  stream (bareRe t) (fun _ => rep) pre suf 0
  = pass t (fun _ => true) rep (hd_error pre) suf.
Proof.
  induction suf as [|c suf IH]; intros pre.
  - cbn [stream pass]. rewrite matchAt_bare. reflexivity.
  - cbn [stream pass]. rewrite matchAt_bare, andb_true_r, (andb_comm (Ascii.eqb c t)).
    destruct (negb (escaped (hd_error pre)) && Ascii.eqb c t); cbn;
      rewrite IH; reflexivity.
Qed.

Lemma stream_underscore rep : forall suf pre,
  stream underscoreRe (fun _ => rep) pre suf 0
  = pass "_" (fun rest => negb (blankAhead rest)) rep (hd_error pre) suf.
Proof.
  induction suf as [|c suf IH]; intros pre.
  - cbn [stream pass]. rewrite matchAt_underscore. reflexivity.
  - cbn [stream pass]. rewrite matchAt_underscore, (andb_comm (Ascii.eqb c "_")).
    destruct (negb (escaped (hd_error pre)) && Ascii.eqb c "_" && negb (blankAhead suf));
      cbn; rewrite IH; reflexivity.
Qed.

(** The five calls of lines 70-74 as scans. *)
Lemma escapeSpecials_passes s :
  Sanitizer.escapeSpecials s =
  pass "^" (fun _ => true) (str "\^{}") None
    (pass "#" (fun _ => true) (str "\#") None
      (pass "%" (fun _ => true) (str "\%") None
        (pass "&" (fun _ => true) (str "\&") None
          (pass "_" (fun rest => negb (blankAhead rest)) (str "\_") None s)))).
Proof.
  unfold Sanitizer.escapeSpecials.
  change (RE "(?<!\\)_(?![_\s])" "g") with underscoreRe.
  change (RE "(?<!\\)&" "g") with (bareRe "&").
  change (RE "(?<!\\)%" "g") with (bareRe "%").
  change (RE "(?<!\\)#" "g") with (bareRe "#").
  change (RE "(?<!\\)\^" "g") with (bareRe "^").
  rewrite !replace_stream by reflexivity.
  rewrite (stream_ext underscoreRe _ (fun _ => str "\_")) by reflexivity.
  rewrite (stream_ext (bareRe "&") _ (fun _ => str "\&")) by reflexivity.
  rewrite (stream_ext (bareRe "%") _ (fun _ => str "\%")) by reflexivity.
  rewrite (stream_ext (bareRe "#") _ (fun _ => str "\#")) by reflexivity.
  rewrite (stream_ext (bareRe "^") _ (fun _ => str "\^{}")) by reflexivity.
  rewrite stream_underscore, !stream_bare. reflexivity.
Qed.

End EscapingScans.

(** *** The five scans together. *)

Section OnePass.

Local Arguments blankAhead : simpl never.

Lemma passes_escapeEach : forall s prev, passes prev s = escapeEach prev s.
Proof.
  unfold passes.
  induction s as [|c s IH]; intros prev; [reflexivity|].
  cbn [pass escapeEach].
  destruct (escaped prev) eqn:E.
  - cbn. rewrite !andb_false_r. cbn. rewrite E, !andb_false_r. cbn.
    rewrite E, !andb_false_r. cbn. rewrite E, !andb_false_r. cbn.
    rewrite E, !andb_false_r. cbn. rewrite IH. reflexivity.
  - unfold isc.
    destruct (Ascii.eqb_spec c "_") as [->|N1].
    { destruct (blankAhead s) eqn:B; cbn; rewrite ?E; cbn; rewrite ?E; cbn;
        rewrite IH; reflexivity. }
    destruct (Ascii.eqb_spec c "&") as [->|N2].
    { cbn; rewrite ?E; cbn; rewrite ?E; cbn; rewrite IH; reflexivity. }
    destruct (Ascii.eqb_spec c "%") as [->|N3].
    { cbn; rewrite ?E; cbn; rewrite ?E; cbn; rewrite IH; reflexivity. }
    destruct (Ascii.eqb_spec c "#") as [->|N4].
    { cbn; rewrite ?E; cbn; rewrite ?E; cbn; rewrite IH; reflexivity. }
    destruct (Ascii.eqb_spec c "^") as [->|N5].
    { cbn; rewrite ?E; cbn; rewrite ?E; cbn; rewrite IH; reflexivity. }
    apply Ascii.eqb_neq in N1, N2, N3, N4, N5.
    cbn. rewrite N2. cbn. rewrite N3. cbn. rewrite N4. cbn. rewrite N5. cbn.
    rewrite IH. reflexivity.
Qed.

End OnePass.

(** *** Text whose backslashes all stand before brackets. *)

Section MathOnlyText.

Lemma mathOnly_app x : forall s, mathOnly (x ++ s) = true -> mathOnly s = true.
Proof.
  induction x as [|c x IH]; intros s H; [assumption|].
  simpl in H. apply andb_prop in H. apply IH, H.
Qed.

Lemma run_fails fl r (k : mstate -> option mstate) st :
  (forall st' x, extends st st' x -> k st' = None) -> run fl r k st = None.
Proof.
  intros K. destruct (run fl r k st) eqn:R; [|reflexivity].
  apply run_advances in R. destruct R as (st' & x & R & E & _).
  rewrite (K _ _ E) in R. discriminate.
Qed.

Lemma command_fails fl (k : mstate -> option mstate) st b :
  ignoreCase fl = false -> startsCommand b = true ->
  mathOnly (after st) = true ->
  step (fun x => Ascii.eqb (canon fl x) (canon fl BSL)) (run fl b k) st = None.
Proof.
  intros I B M. unfold step, canon. rewrite I.
  destruct (after st) as [|c rest] eqn:A; [reflexivity|].
  destruct (Ascii.eqb_spec c BSL) as [->|]; [|reflexivity].
  simpl in M. apply andb_prop in M. destruct M as [M _].
  assert (F : forall x k', negb (bracket x) = true ->
            step (fun y => Ascii.eqb (if ignoreCase fl then upperChar y else y)
                                     (if ignoreCase fl then upperChar x else x)) k'
                 {| before := BSL :: before st; after := rest; caps := caps st |} = None).
  { intros x k' X. unfold step. simpl. rewrite I.
    destruct rest as [|d rest']; [reflexivity|].
    destruct (Ascii.eqb_spec d x) as [->|]; [|reflexivity].
    rewrite M in X. discriminate. }
  destruct b; try discriminate; simpl in B.
  - apply F, B.
  - destruct b1; try discriminate. simpl. apply F, B.
Qed.

Lemma needsCommand_fails fl : ignoreCase fl = false ->
  forall r, needsCommand r = true ->
  forall (k : mstate -> option mstate) st,
    mathOnly (after st) = true -> run fl r k st = None.
Proof.
  intros I. induction r; intros N k st M; try discriminate; simpl in N.
  - apply orb_prop in N. destruct N as [N|N]; [apply orb_prop in N; destruct N as [N|N]|].
    + destruct r1; try discriminate. apply andb_prop in N. destruct N as [N1 N2].
      apply Ascii.eqb_eq in N1. subst c. simpl. apply command_fails; assumption.
    + simpl. apply IHr1; assumption.
    + simpl. apply run_fails. intros st' x [_ E]. apply IHr2; [assumption|].
      rewrite E in M. apply (@mathOnly_app _ _ M).
  - apply andb_prop in N. destruct N as [N1 N2]. simpl.
    rewrite (IHr1 N1 k st M). apply IHr2; assumption.
  - apply andb_prop in N. destruct N as [N1 N2]. simpl.
    apply negb_true_iff, orb_false_elim in N1. destruct N1 as [L Z].
    destruct lo; [discriminate|]. simpl. rewrite Z. apply IHr; assumption.
  - simpl. apply IHr; assumption.
Qed.

Lemma matchAt_inert re pre suf :
  inert re = true -> mathOnly suf = true -> matchAt re pre suf = None.
Proof.
  intros H M. apply andb_prop in H. destruct H as [N I].
  apply negb_true_iff in I. unfold matchAt.
  rewrite (@needsCommand_fails (fl re) I (pattern re) N); [reflexivity|exact M].
Qed.

Lemma matchAll_inert re : inert re = true ->
  forall suf pre, mathOnly suf = true -> matchAll_aux re pre suf 0 = [].
Proof.
  intros H. induction suf as [|c suf IH]; intros pre M; simpl;
    rewrite (@matchAt_inert re pre _ H M); [reflexivity|].
  apply IH. apply (@mathOnly_app [c] suf M).
Qed.

Lemma search_inert re : inert re = true ->
  forall suf pre, mathOnly suf = true -> search re pre suf = None.
Proof.
  intros H. induction suf as [|c suf IH]; intros pre M; simpl;
    rewrite (@matchAt_inert re pre _ H M); [reflexivity|].
  apply IH. apply (@mathOnly_app [c] suf M).
Qed.

Lemma matchesOf_inert re s :
  inert re = true -> mathOnly s = true -> matchesOf re s = [].
Proof.
  intros H M. unfold matchesOf, matchAll.
  rewrite (@matchAll_inert re H s [] M), (@search_inert re H s [] M).
  destruct (global re); reflexivity.
Qed.

Lemma replace_inert re rep s :
  inert re = true -> mathOnly s = true -> replace re rep s = s.
Proof.
  intros H M. unfold replace. rewrite (@matchesOf_inert re s H M). reflexivity.
Qed.

Lemma replaceWith_inert (A : Type) re (f : A -> Match -> A * jsstring) a s :
  inert re = true -> mathOnly s = true -> replaceWith re f a s = (a, s).
Proof.
  intros H M. unfold replaceWith. rewrite (@matchesOf_inert re s H M). reflexivity.
Qed.

Lemma chain_inert s : mathOnly s = true ->
  forall rules, forallb (fun r => inert (fst r)) rules = true -> chain rules s = s.
Proof.
  intros M. unfold chain. induction rules as [|r rules IH]; intros H; simpl.
  - reflexivity.
  - simpl in H. apply andb_prop in H. destruct H as [H1 H2].
    rewrite (@replace_inert (fst r) (snd r) s H1 M). apply IH, H2.
Qed.

Lemma rewrite_inert s : mathOnly s = true -> rewrite s = s.
Proof.
  intros M. unfold rewrite.
  rewrite (@chain_inert s M preambleRules) by (vm_compute; reflexivity).
  rewrite (@chain_inert s M centerRules) by (vm_compute; reflexivity).
  rewrite (@replaceWith_inert unit parboxRule instructionBox tt s) by
    (try exact M; vm_compute; reflexivity).
  simpl snd.
  rewrite (@chain_inert s M fboxRules) by (vm_compute; reflexivity).
  rewrite (@chain_inert s M ruleRules) by (vm_compute; reflexivity).
  rewrite (@chain_inert s M sectionRules) by (vm_compute; reflexivity).
  rewrite (@chain_inert s M fontRules) by (vm_compute; reflexivity).
  rewrite (@chain_inert s M listRules) by (vm_compute; reflexivity).
  rewrite (@chain_inert s M textRules) by (vm_compute; reflexivity).
  rewrite (@chain_inert s M breakRules) by (vm_compute; reflexivity).
  rewrite (@chain_inert s M specialRules) by (vm_compute; reflexivity).
  apply (@chain_inert s M spacingRules). vm_compute; reflexivity.
Qed.

(** Paragraphs *)
Lemma split_whole sep : forall s cur,
  indexOf sep s = None -> split_aux sep 0 cur s = [rev cur ++ s].
Proof.
  induction s as [|c s IH]; intros cur H; simpl.
  - rewrite app_nil_r. reflexivity.
  - simpl in H.
    assert (E : startsWith sep (c :: s) = false).
    { destruct (startsWith sep (c :: s)); [discriminate|reflexivity]. }
    rewrite E in H |- *. destruct (indexOf sep s) eqn:I; [discriminate|].
    rewrite IH by reflexivity. simpl. rewrite <- app_assoc. reflexivity.
Qed.

Lemma search_off_start re : wantsTag re = true ->
  forall suf p pre, search re (p :: pre) suf = None.
Proof.
  unfold wantsTag. intros H. apply andb_prop in H. destruct H as [H I].
  apply andb_prop in H. destruct H as [H Ml]. apply negb_true_iff in Ml.
  assert (A : forall suf p pre, matchAt re (p :: pre) suf = None).
  { intros. unfold matchAt.
    destruct (pattern re) as [ | | | |x y| | | | | | | | | ]; try discriminate.
    destruct x; try discriminate. simpl. unfold atLineStart. simpl.
    rewrite Ml. reflexivity. }
  induction suf as [|c suf IH]; intros p pre; simpl; rewrite A; [reflexivity|apply IH].
Qed.

Lemma test_no_tag re c rest : wantsTag re = true ->
  c <> "<"%char -> test re (c :: rest) = false.
Proof.
  intros H N. unfold test. simpl.
  rewrite (@search_off_start re H).
  assert (A : matchAt re [] (c :: rest) = None).
  { unfold wantsTag in H. apply andb_prop in H. destruct H as [H I].
    apply andb_prop in H. destruct H as [H _]. apply negb_true_iff in I.
    unfold matchAt.
    destruct (pattern re) as [ | | | |x y| | | | | | | | | ]; try discriminate.
    destruct x; try discriminate.
    destruct y as [ | | | |y z| | | | | | | | | ]; try discriminate.
    destruct y as [ |d| | | | | | | | | | | | ]; try discriminate.
    apply Ascii.eqb_eq in H. subst d.
    simpl. unfold step, canon. simpl. rewrite I.
    destruct (Ascii.eqb_spec c "<"); [contradiction|reflexivity]. }
  rewrite A. reflexivity.
Qed.

End MathOnlyText.



(** *** What the matcher returns is a word of its pattern. *)

Section Soundness.

Variable fl : flags.

Lemma capOrigin_later r suf x e :
  capOrigin fl r suf e -> capOrigin fl r (x ++ suf) e.
Proof.
  intros (a & u & v & I & E & L). exists a, (x ++ u), v.
  split; [assumption|]. split; [|assumption].
  rewrite E, <- app_assoc. reflexivity.
Qed.

Lemma capOrigin_sub r r' suf e :
  incl (groupBodies r) (groupBodies r') ->
  capOrigin fl r suf e -> capOrigin fl r' suf e.
Proof.
  intros S (a & u & v & I & E & L). exists a, u, v.
  split; [apply S, I|]. split; assumption.
Qed.

Lemma capsFrom_refl r st : capsFrom fl r st st.
Proof. intros e H. left; assumption. Qed.

Lemma capsFrom_trans r1 r2 r st1 st2 st3 x :
  incl (groupBodies r1) (groupBodies r) ->
  incl (groupBodies r2) (groupBodies r) ->
  extends st1 st2 x ->
  capsFrom fl r1 st1 st2 -> capsFrom fl r2 st2 st3 -> capsFrom fl r st1 st3.
Proof.
  intros S1 S2 [_ E] A B e H. apply B in H. destruct H as [H|H].
  - apply A in H. destruct H as [H|H]; [left; assumption|right].
    eapply capOrigin_sub; [|exact H]. assumption.
  - right. rewrite E. apply capOrigin_later.
    eapply capOrigin_sub; [|exact H]. assumption.
Qed.

Lemma stepAll_caps s : forall (k : mstate -> option mstate) st res,
  stepAll fl s k st = Some res ->
  exists st' x, k st' = Some res /\ extends st st' x /\ caps st' = caps st.
Proof.
  induction s as [|c s IH]; intros k st res H; simpl in H.
  - exists st, []. split; [assumption|]. split; [apply extends_refl|reflexivity].
  - unfold step in H. destruct (after st) as [|d rest] eqn:E; [discriminate|].
    destruct (Ascii.eqb (canon fl d) (canon fl c)); [|discriminate].
    apply IH in H. destruct H as (st' & x & H & Ex & C).
    exists st', ([d] ++ x). split; [assumption|]. split; [|rewrite C; reflexivity].
    eapply extends_trans; [|exact Ex]. split; simpl; [reflexivity|assumption].
Qed.

Lemma iter_cons (P : jsstring -> jsstring -> Prop) y ys rest :
  P y (concat ys ++ rest) -> iter P ys rest -> iter P (y :: ys) rest.
Proof. intros A B. split; assumption. Qed.

Lemma least_pred lo hi n :
  isZero hi = false -> least (pred lo) (option_map pred hi) <= n ->
  least lo hi <= S n.
Proof.
  destruct hi as [h|]; simpl; intros Z H; [|lia].
  destruct h; [discriminate|]. simpl in H. lia.
Qed.

Lemma atMost_pred hi n :
  isZero hi = false -> atMost (option_map pred hi) n -> atMost hi (S n).
Proof.
  destruct hi as [h|]; simpl; intros Z H; [|exact I].
  destruct h; [discriminate|]. simpl in H. lia.
Qed.

Lemma repeat_sound a greedy k :
  sound fl a (run fl a) ->
  forall fuel lo hi st res,
    repeatMatcher (run fl a) (groupsOf a) greedy k fuel lo hi st = Some res ->
    exists st' xs, k st' = Some res /\ extends st st' (concat xs)
                   /\ least lo hi <= length xs /\ atMost hi (length xs)
                   /\ iter (lang fl a) xs (after st')
                   /\ capsFrom fl a st st'.
Proof.
  intros Hm.
  assert (stop : forall lo hi st res, (lo = 0 \/ isZero hi = true) ->
    k st = Some res ->
    exists st' xs, k st' = Some res /\ extends st st' (concat xs)
                   /\ least lo hi <= length xs /\ atMost hi (length xs)
                   /\ iter (lang fl a) xs (after st')
                   /\ capsFrom fl a st st').
  { intros lo hi st res Z K. exists st, []. split; [assumption|].
    split; [apply extends_refl|]. simpl.
    split; [|split; [|split; [exact I|apply capsFrom_refl]]].
    - destruct Z as [->|Z]; [destruct hi; simpl; lia|].
      destruct hi as [[|h]|]; try discriminate. simpl. lia.
    - destruct hi; simpl; [lia|exact I]. }
  induction fuel as [|f IH]; intros lo hi st res H; simpl in H.
  - destruct (lo =? 0) eqn:E; [|discriminate].
    apply Nat.eqb_eq in E. apply stop; [left|]; assumption.
  - destruct (isZero hi) eqn:Z.
    { apply stop; [right|]; assumption. }
    assert (again : forall res,
      run fl a (fun st' =>
           if (lo =? 0) && (length (after st') =? length (after st))
           then None
           else repeatMatcher (run fl a) (groupsOf a) greedy k f (pred lo)
                              (option_map pred hi) st')
        (clearCaps (groupsOf a) st) = Some res ->
      exists st' xs, k st' = Some res /\ extends st st' (concat xs)
                   /\ least lo hi <= length xs /\ atMost hi (length xs)
                   /\ iter (lang fl a) xs (after st')
                   /\ capsFrom fl a st st').
    { clear H res. intros res H. apply Hm in H.
      destruct H as (st1 & x1 & H & E1 & L1 & C1).
      destruct ((lo =? 0) && (length (after st1) =? length (after st))); [discriminate|].
      apply IH in H. destruct H as (st2 & xs & H & E2 & Lo & Hi & It & C2).
      exists st2, (x1 :: xs). split; [assumption|].
      assert (E1' : extends st st1 x1).
      { destruct E1 as [A B]. split; simpl in *; assumption. }
      split; [simpl; eapply extends_trans; eassumption|].
      split; [simpl; apply least_pred; assumption|].
      split; [simpl; apply atMost_pred; assumption|].
      split.
      - apply iter_cons; [|assumption].
        destruct E2 as [_ B]. rewrite <- B. exact L1.
      - apply (@capsFrom_trans a a a st st1 st2 x1);
          try apply incl_refl; try assumption.
        intros e He. apply C1 in He. destruct He as [He|He]; [left|right; exact He].
        simpl in He. apply filter_In in He. apply He. }
    destruct (0 <? lo) eqn:L; [apply again, H|].
    apply Nat.ltb_ge in L. assert (lo = 0) by lia. subst lo.
    destruct greedy; revert H.
    + match goal with |- context [run fl a ?c ?s] => case_eq (run fl a c s) end.
      * intros r A H. inversion H; subst. apply again, A.
      * intros _ H. apply stop; [left; reflexivity|assumption].
    + case_eq (k st).
      * intros r K H. inversion H; subst. apply stop; [left; reflexivity|assumption].
      * intros _ H. apply again, H.
Qed.

Lemma run_sound r : sound fl r (run fl r).
Proof.
  assert (stay : forall r (k : mstate -> option mstate) st res,
    lang fl r [] (after st) -> k st = Some res ->
    exists st' x, k st' = Some res /\ extends st st' x
                  /\ lang fl r x (after st') /\ capsFrom fl r st st').
  { intros r0 k st res L H. exists st, []. split; [assumption|].
    split; [apply extends_refl|]. split; [assumption|apply capsFrom_refl]. }
  assert (one : forall r (p : ascii -> bool) (k : mstate -> option mstate) st res,
    (forall d rest, p d = true -> lang fl r [d] rest) ->
    step p k st = Some res ->
    exists st' x, k st' = Some res /\ extends st st' x
                  /\ lang fl r x (after st') /\ capsFrom fl r st st').
  { intros r0 p k st res L H. unfold step in H.
    destruct (after st) as [|c rest] eqn:E; [discriminate|].
    destruct (p c) eqn:P; [|discriminate].
    eexists _, [c]. split; [exact H|]. split.
    - split; simpl; [reflexivity|assumption].
    - split; [apply L, P|]. intros e He. left. exact He. }
  induction r; intros k st res H; simpl in H.
  - apply stay; [reflexivity|assumption].
  - eapply one; [|exact H]. intros d rest P. exists d. split; [reflexivity|exact P].
  - eapply one; [|exact H]. intros d rest P. exists d. split; [reflexivity|].
    apply negb_true_iff, P.
  - eapply one; [|exact H]. intros d rest P. exists d. split; [reflexivity|exact P].
  - apply IHr1 in H. destruct H as (st1 & x1 & H & E1 & L1 & C1).
    apply IHr2 in H. destruct H as (st2 & x2 & H & E2 & L2 & C2).
    exists st2, (x1 ++ x2). split; [assumption|].
    split; [eapply extends_trans; eassumption|]. split.
    + exists x1, x2. split; [reflexivity|]. split; [|assumption].
      destruct E2 as [_ B]. rewrite <- B. exact L1.
    + apply (@capsFrom_trans r1 r2 (Seq r1 r2) st st1 st2 x1); try assumption;
        simpl; [apply incl_appl|apply incl_appr]; apply incl_refl.
  - revert H. case_eq (run fl r1 k st).
    + intros r A H. inversion H; subst. apply IHr1 in A.
      destruct A as (st' & x & A & E & L & C).
      exists st', x. split; [assumption|]. split; [assumption|].
      split; [left; assumption|].
      intros e He. apply C in He. destruct He as [He|He]; [left; assumption|right].
      eapply capOrigin_sub; [|exact He]. simpl. apply incl_appl, incl_refl.
    + intros _ H. apply IHr2 in H. destruct H as (st' & x & A & E & L & C).
      exists st', x. split; [assumption|]. split; [assumption|].
      split; [right; assumption|].
      intros e He. apply C in He. destruct He as [He|He]; [left; assumption|right].
      eapply capOrigin_sub; [|exact He]. simpl. apply incl_appr, incl_refl.
  - apply (@repeat_sound r greedy k IHr) in H.
    destruct H as (st' & xs & H & E & Lo & Hi & It & C).
    exists st', (concat xs). split; [assumption|]. split; [assumption|].
    split; [exists xs; repeat split; assumption|exact C].
  - apply IHr in H. destruct H as (st1 & x & H & E & L & C).
    eexists _, x. split; [exact H|]. split.
    + destruct E as [A B]. split; simpl; assumption.
    + split; [exact L|]. intros e He. simpl in He. destruct He as [He|He].
      * right. subst e. exists r, [], (after st1). simpl.
        split; [left; reflexivity|]. rewrite (consumed_extends E).
        split; [apply E|exact L].
      * apply C in He. destruct He as [He|He]; [left; assumption|right].
        eapply capOrigin_sub; [|exact He]. simpl. apply incl_tl, incl_refl.
  - destruct (getCap i (caps st)).
    + apply stepAll_caps in H. destruct H as (st' & x & H & E & C).
      exists st', x. split; [assumption|]. split; [assumption|].
      split; [exact I|]. intros e He. left. rewrite <- C. exact He.
    + apply stay; [exact I|assumption].
  - destruct (run fl r Some st) as [st1|] eqn:R; destruct neg; try discriminate.
    + apply IHr in R. destruct R as (st' & x & K & E & L & C).
      inversion K; subst st'.
      eexists _, []. split; [exact H|]. split; [split; reflexivity|].
      split.
      * simpl. split; [reflexivity|]. intros _. exists x, (after st1).
        split; [apply E|exact L].
      * exact C.
    + apply stay; [|assumption]. simpl. split; [reflexivity|discriminate].
  - destruct (xorb neg _); [|discriminate]. apply stay; [reflexivity|assumption].
  - destruct (atLineStart fl st); [|discriminate]. apply stay; [reflexivity|assumption].
  - destruct (atLineEnd fl st); [|discriminate]. apply stay; [reflexivity|assumption].
  - discriminate.
Qed.

End Soundness.

(** *** What the words of a pattern tell about its matches. *)

Section WordsOfPatterns.

Variable fl : flags.

Lemma allChars_all c : In c allChars.
Proof.
  unfold allChars. rewrite <- (ascii_nat_embedding c).
  apply in_map, in_seq. pose proof (nat_ascii_bounded c). lia.
Qed.

Lemma subset_spec accept p c :
  subset accept p = true -> accept c = true -> p c = true.
Proof.
  unfold subset. rewrite forallb_forall. intros H A.
  specialize (H c (allChars_all c)). rewrite A in H. exact H.
Qed.

Lemma atomIn_lang p r x rest :
  atomIn fl p r = true -> lang fl r x rest -> exists d, x = [d] /\ p d = true.
Proof.
  unfold atomIn. destruct r; try discriminate; simpl;
    try destruct (p c); try discriminate;
    intros S (d & E & A); exists d; (split; [assumption|]);
    apply (@subset_spec _ _ d S); try assumption.
  rewrite A. reflexivity.
Qed.

Lemma within_lang p : forall r x rest,
  within fl p r = true -> lang fl r x rest -> forallb p x = true.
Proof.
  induction r; intros x rest W L; try discriminate; simpl in L;
    try (subst x; reflexivity);
    try (match type of W with within _ _ ?r = true =>
           destruct (@atomIn_lang p r x rest W L) as (d & -> & P) end;
         simpl; rewrite P; reflexivity).
  - simpl in W. apply andb_prop in W. destruct W as [W1 W2].
    destruct L as (x1 & x2 & -> & L1 & L2). rewrite forallb_app.
    rewrite (IHr1 _ _ W1 L1), (IHr2 _ _ W2 L2). reflexivity.
  - simpl in W. apply andb_prop in W. destruct W as [W1 W2].
    destruct L as [L|L]; [eapply IHr1|eapply IHr2]; eassumption.
  - simpl in W. destruct L as (xs & -> & _ & _ & It). clear - IHr W It.
    induction xs as [|y ys IH]; [reflexivity|]. destruct It as [A B]. simpl.
    rewrite forallb_app, (IHr _ _ W A), (IH B). reflexivity.
  - simpl in W. eapply IHr; eassumption.
  - destruct L as [-> _]. reflexivity.
Qed.

Lemma existsb_app_l (p : ascii -> bool) a b :
  existsb p a = true -> existsb p (a ++ b) = true.
Proof. intros H. rewrite existsb_app, H. reflexivity. Qed.

Lemma existsb_app_r (p : ascii -> bool) a b :
  existsb p b = true -> existsb p (a ++ b) = true.
Proof. intros H. rewrite existsb_app, H. apply orb_true_r. Qed.

Lemma mustSee_lang p : forall r x rest,
  mustSee fl p r = true -> lang fl r x rest -> existsb p (x ++ rest) = true.
Proof.
  induction r; intros x rest W L; try discriminate; simpl in L;
    try (match type of W with _ _ _ ?r = true =>
           destruct (@atomIn_lang p r x rest W L) as (d & -> & P) end;
         simpl; rewrite P; reflexivity).
  - simpl in W. destruct L as (x1 & x2 & -> & L1 & L2). rewrite <- app_assoc.
    apply orb_prop in W. destruct W as [W|W].
    + apply (IHr1 _ _ W L1).
    + apply existsb_app_r, (IHr2 _ _ W L2).
  - simpl in W. apply andb_prop in W. destruct W as [W1 W2].
    destruct L as [L|L]; [eapply IHr1|eapply IHr2]; eassumption.
  - simpl in W. apply andb_prop in W. destruct W as [W1 W2].
    apply Nat.ltb_lt in W1. destruct L as (xs & -> & Lo & _ & It).
    destruct xs as [|y ys]; [simpl in Lo; lia|]. destruct It as [A _].
    simpl. rewrite <- app_assoc. apply (IHr _ _ W2 A).
  - simpl in W. eapply IHr; eassumption.
  - simpl in W. apply andb_prop in W. destruct W as [W1 W2].
    apply negb_true_iff in W1. destruct L as [-> L].
    destruct (L W1) as (y & z & -> & Ly). simpl. apply (IHr _ _ W2 Ly).
Qed.

Lemma startsIn_lang p : forall r x rest,
  startsIn fl p r = true -> lang fl r x rest ->
  exists d x', x = d :: x' /\ p d = true.
Proof.
  induction r; intros x rest W L; try discriminate; simpl in L;
    try (match type of W with startsIn _ _ ?r = true =>
           destruct (@atomIn_lang p r x rest W L) as (d & -> & P) end;
         exists d, []; split; [reflexivity|assumption]).
  - simpl in W. destruct L as (x1 & x2 & -> & L1 & L2).
    destruct (IHr1 _ _ W L1) as (d & x' & -> & P).
    exists d, (x' ++ x2). split; [reflexivity|assumption].
  - simpl in W. apply andb_prop in W. destruct W as [W1 W2].
    destruct L as [L|L]; [eapply IHr1|eapply IHr2]; eassumption.
  - simpl in W. apply andb_prop in W. destruct W as [W1 W2].
    apply Nat.ltb_lt in W1. destruct L as (xs & -> & Lo & _ & It).
    destruct xs as [|y ys]; [simpl in Lo; lia|]. destruct It as [A _].
    destruct (IHr _ _ W2 A) as (d & x' & -> & P).
    exists d, (x' ++ concat ys). split; [reflexivity|assumption].
  - simpl in W. eapply IHr; eassumption.
Qed.

Lemma needsPair_lang ok : forall r x rest,
  needsPair fl ok r = true -> lang fl r x rest ->
  exists u d v, x ++ rest = u ++ BSL :: d :: v /\ ok d = false.
Proof.
  induction r; intros x rest W L; try discriminate; simpl in L, W.
  - destruct L as (x1 & x2 & -> & L1 & L2).
    assert (second : needsPair fl ok r2 = true ->
              exists u d v, (x1 ++ x2) ++ rest = u ++ BSL :: d :: v /\ ok d = false).
    { intros W2. destruct (IHr2 _ _ W2 L2) as (u & d & v & E & P).
      exists (x1 ++ u), d, v. split; [|assumption].
      rewrite <- !app_assoc, E. reflexivity. }
    destruct (atomIn fl (Ascii.eqb BSL) r1) eqn:W1.
    + destruct (startsIn fl (fun c => negb (ok c)) r2) eqn:W2; [|apply second, W].
      destruct (@atomIn_lang _ _ _ _ W1 L1) as (b & -> & B).
      apply Ascii.eqb_eq in B. subst b.
      destruct (@startsIn_lang _ _ _ _ W2 L2) as (d & x' & -> & P).
      exists [], d, (x' ++ rest). split; [reflexivity|]. apply negb_true_iff, P.
    + destruct (needsPair fl ok r1) eqn:W2; [|apply second, W].
      destruct (IHr1 _ _ eq_refl L1) as (u & d & v & E & P).
      exists u, d, v. split; [|assumption].
      rewrite <- app_assoc. exact E.
  - apply andb_prop in W. destruct W as [W1 W2].
    destruct L as [L|L]; [eapply IHr1|eapply IHr2]; eassumption.
  - apply andb_prop in W. destruct W as [W1 W2].
    apply Nat.ltb_lt in W1. destruct L as (xs & -> & Lo & _ & It).
    destruct xs as [|y ys]; [simpl in Lo; lia|]. destruct It as [A _].
    destruct (IHr _ _ W2 A) as (u & d & v & E & P).
    exists u, d, v. split; [|assumption].
    simpl. rewrite <- app_assoc. exact E.
  - eapply IHr; eassumption.
  - apply andb_prop in W. destruct W as [W1 W2].
    apply negb_true_iff in W1. destruct L as [-> L].
    destruct (L W1) as (y & z & -> & Ly). simpl. apply (IHr _ _ W2 Ly).
Qed.

Lemma prefixLit_lang : ignoreCase fl = false -> forall r x rest,
  lang fl r x rest -> startsWith (prefixLit r) x = true.
Proof.
  intros I. induction r; intros x rest L; try reflexivity.
  - simpl in L. destruct L as (d & -> & E). unfold canon in E. rewrite I in E.
    simpl. rewrite Ascii.eqb_sym, E. reflexivity.
  - destruct r1; try reflexivity.
    simpl in L. destruct L as (x1 & x2 & -> & (d & -> & E) & L2).
    unfold canon in E. rewrite I in E. simpl.
    rewrite Ascii.eqb_sym, E. simpl. eapply IHr2, L2.
Qed.

End WordsOfPatterns.

Section Attempts.

(** A successful attempt, in these terms. *)
Lemma matchAt_lang re pre suf m :
  matchAt re pre suf = Some m ->
  exists rest, suf = matched m ++ rest
    /\ lang (RegExp.fl re) (pattern re) (matched m) rest
    /\ forall i y, nth i (groups m) None = Some y ->
         capOrigin (RegExp.fl re) (pattern re) suf (S i, y).
Proof.
  unfold matchAt. intros H.
  destruct (run (RegExp.fl re) (pattern re) Some _) as [st'|] eqn:R; [|discriminate].
  apply run_sound in R. destruct R as (st1 & x & K & E & L & C).
  inversion K; subst st1. inversion H; subst m; simpl.
  rewrite (consumed_extends E). exists (after st'). split; [apply E|].
  split; [exact L|]. intros i y N.
  assert (G : getCap (S i) (caps st') = Some y).
  { destruct (Nat.lt_ge_cases i (groupCount (pattern re))) as [Lt|Ge].
    - rewrite (nth_indep _ None (getCap 0 (caps st'))) in N
        by (rewrite length_map, length_seq; exact Lt).
      rewrite (map_nth (fun i => getCap i (caps st'))), seq_nth in N by exact Lt.
      exact N.
    - rewrite nth_overflow in N by (rewrite length_map, length_seq; exact Ge).
      discriminate. }
  assert (M : In (S i, y) (caps st')).
  { clear - G. induction (caps st') as [|[j s] cs IH]; [discriminate|].
    cbn [getCap] in G. destruct (S i =? j) eqn:Q.
    - apply Nat.eqb_eq in Q. inversion G; subst. left; reflexivity.
    - right. apply IH, G. }
  apply C in M. simpl in M. destruct M as [[]|M]. exact M.
Qed.

Lemma quiet_app p a b : quiet p (a ++ b) = quiet p a && quiet p b.
Proof. apply forallb_app. Qed.

Lemma quiet_sees p s : quiet p s = true -> existsb p s = true -> False.
Proof.
  unfold quiet. induction s as [|c s IH]; simpl; [discriminate|].
  destruct (p c); simpl; [discriminate|]. exact IH.
Qed.

Lemma guarded_app ok a : forall b, guarded ok (a ++ b) = true -> guarded ok b = true.
Proof.
  induction a as [|c a IH]; intros b H; [assumption|].
  simpl in H. apply andb_prop in H. apply IH, H.
Qed.

Lemma guarded_pair ok u d v :
  guarded ok (u ++ BSL :: d :: v) = true -> ok d = true.
Proof.
  intros H. apply guarded_app in H. simpl in H. apply andb_prop in H. apply H.
Qed.

(** No attempt succeeds on text without the code units a pattern needs. *)
Lemma matchAt_quiet p re pre suf :
  mustSee (RegExp.fl re) p (pattern re) = true -> quiet p suf = true ->
  matchAt re pre suf = None.
Proof.
  intros W Q. destruct (matchAt re pre suf) as [m|] eqn:A; [|reflexivity].
  apply matchAt_lang in A. destruct A as (rest & E & L & _).
  apply (@mustSee_lang _ p _ _ _ W) in L. rewrite <- E in L.
  destruct (@quiet_sees _ _ Q L).
Qed.

Lemma matchAt_guarded ok re pre suf :
  needsPair (RegExp.fl re) ok (pattern re) = true -> guarded ok suf = true ->
  matchAt re pre suf = None.
Proof.
  intros W Q. destruct (matchAt re pre suf) as [m|] eqn:A; [|reflexivity].
  apply matchAt_lang in A. destruct A as (rest & E & L & _).
  apply (@needsPair_lang _ ok _ _ _ W) in L. destruct L as (u & d & v & Em & P).
  rewrite E, Em in Q. apply guarded_pair in Q. congruence.
Qed.

End Attempts.

(** *** A pattern that matches nowhere leaves the text alone. *)

Section NoMatch.

Variable Q : jsstring -> Prop.
Hypothesis Q_tail : forall c s, Q (c :: s) -> Q s.

Variable re : RegExp.t.
Hypothesis nowhere : forall pre suf, Q suf -> matchAt re pre suf = None.

Lemma matchAll_nowhere : forall suf pre, Q suf -> matchAll_aux re pre suf 0 = [].
Proof.
  induction suf as [|c suf IH]; intros pre H; simpl; rewrite (nowhere pre H);
    [reflexivity|]. apply IH. exact (Q_tail H).
Qed.

Lemma search_nowhere : forall suf pre, Q suf -> search re pre suf = None.
Proof.
  induction suf as [|c suf IH]; intros pre H; simpl; rewrite (nowhere pre H);
    [reflexivity|]. apply IH. exact (Q_tail H).
Qed.

Lemma matchesOf_nowhere s : Q s -> matchesOf re s = [].
Proof.
  intros H. unfold matchesOf, matchAll.
  rewrite (matchAll_nowhere [] H), (search_nowhere [] H).
  destruct (global re); reflexivity.
Qed.

Lemma replace_nowhere rep s : Q s -> replace re rep s = s.
Proof. intros H. unfold replace. rewrite (matchesOf_nowhere H). reflexivity. Qed.

Lemma replaceWith_nowhere (A : Type) (f : A -> Match -> A * jsstring) a s :
  Q s -> replaceWith re f a s = (a, s).
Proof. intros H. unfold replaceWith. rewrite (matchesOf_nowhere H). reflexivity. Qed.

End NoMatch.

Section QuietText.

Lemma quiet_tail p c s : quiet p (c :: s) = true -> quiet p s = true.
Proof. simpl. intros H. apply andb_prop in H. apply H. Qed.

Lemma guarded_tail ok c s : guarded ok (c :: s) = true -> guarded ok s = true.
Proof. simpl. intros H. apply andb_prop in H. apply H. Qed.

Lemma replace_quiet p re rep s :
  mustSee (RegExp.fl re) p (pattern re) = true -> quiet p s = true ->
  replace re rep s = s.
Proof.
  intros W H.
  apply (@replace_nowhere (fun s => quiet p s = true) (@quiet_tail p) re); [|exact H].
  intros pre suf. apply matchAt_quiet, W.
Qed.

Lemma replaceWith_quiet (A : Type) p re (f : A -> Match -> A * jsstring) a s :
  mustSee (RegExp.fl re) p (pattern re) = true -> quiet p s = true ->
  replaceWith re f a s = (a, s).
Proof.
  intros W H.
  apply (@replaceWith_nowhere (fun s => quiet p s = true) (@quiet_tail p) re); [|exact H].
  intros pre suf. apply matchAt_quiet, W.
Qed.

Lemma search_quiet p re pre s :
  mustSee (RegExp.fl re) p (pattern re) = true -> quiet p s = true ->
  search re pre s = None.
Proof.
  intros W H.
  apply (@search_nowhere (fun s => quiet p s = true) (@quiet_tail p) re); [|exact H].
  intros pre' suf. apply matchAt_quiet, W.
Qed.

Lemma replace_guarded ok re rep s :
  needsPair (RegExp.fl re) ok (pattern re) = true -> guarded ok s = true ->
  replace re rep s = s.
Proof.
  intros W H.
  apply (@replace_nowhere (fun s => guarded ok s = true) (@guarded_tail ok) re); [|exact H].
  intros pre suf. apply matchAt_guarded, W.
Qed.

Lemma replaceWith_guarded (A : Type) ok re (f : A -> Match -> A * jsstring) a s :
  needsPair (RegExp.fl re) ok (pattern re) = true -> guarded ok s = true ->
  replaceWith re f a s = (a, s).
Proof.
  intros W H.
  apply (@replaceWith_nowhere (fun s => guarded ok s = true) (@guarded_tail ok) re); [|exact H].
  intros pre suf. apply matchAt_guarded, W.
Qed.

Lemma chain_guarded ok s : guarded ok s = true ->
  forall rules,
    forallb (fun r : rule => needsPair (RegExp.fl (fst r)) ok (pattern (fst r))) rules = true ->
    chain rules s = s.
Proof.
  intros M. unfold chain. induction rules as [|r rules IH]; intros H; simpl.
  - reflexivity.
  - simpl in H. apply andb_prop in H. destruct H as [H1 H2].
    rewrite (@replace_guarded ok (fst r) (snd r) s H1 M). apply IH, H2.
Qed.

End QuietText.

(** *** Text the sanitizer only escapes. *)

Ltac side H :=
  lazymatch goal with
  | |- mustSee _ _ _ = true => vm_compute; reflexivity
  | |- needsPair _ _ _ = true => vm_compute; reflexivity
  | |- _ => exact H
  end.

Section EscapeOnly.

Lemma oneOf_in set c : oneOf set c = true <-> In c (str set).
Proof.
  unfold oneOf. rewrite existsb_exists. split.
  - intros (x & I & E). apply Ascii.eqb_eq in E. subst. exact I.
  - intros I. exists c. split; [exact I|apply Ascii.eqb_refl].
Qed.

Lemma escapeEach_plain : forall s prev,
  escaped prev = false -> quiet (oneOf "\$%_") s = true ->
  escapeEach prev s = flat_map escapeChar s.
Proof.
  induction s as [|c s IH]; intros prev E Q; [reflexivity|].
  simpl in Q. apply andb_prop in Q. destruct Q as [Qc Q].
  cbn [escapeEach flat_map]. rewrite E.
  assert (N : escaped (Some c) = false).
  { unfold escaped. destruct (Ascii.eqb_spec BSL c) as [<-|]; [discriminate|reflexivity]. }
  rewrite (IH _ N Q). f_equal. unfold escapeChar.
  assert (P : isc c "%" = false /\ isc c "_" = false).
  { unfold isc. split.
    - destruct (Ascii.eqb_spec c "%") as [->|]; [discriminate|reflexivity].
    - destruct (Ascii.eqb_spec c "_") as [->|]; [discriminate|reflexivity]. }
  destruct P as [P1 P2]. rewrite P1, P2, orb_false_r. simpl andb.
  destruct (isc c "&"); [reflexivity|]. simpl orb.
  destruct (isc c "#"); [reflexivity|]. reflexivity.
Qed.

Lemma escaped_text s : quiet (oneOf "\$%_") s = true ->
  quiet (oneOf "_$%") (flat_map escapeChar s) = true
  /\ guarded (oneOf "&#^") (flat_map escapeChar s) = true.
Proof.
  induction s as [|c s IH]; intros Q; [split; reflexivity|].
  simpl in Q. apply andb_prop in Q. destruct Q as [Qc Q].
  destruct (IH Q) as [A B]. cbn [flat_map]. unfold escapeChar at 1 3. unfold isc.
  destruct (Ascii.eqb_spec c "&") as [->|N1].
  { split; simpl; [exact A|exact B]. }
  destruct (Ascii.eqb_spec c "#") as [->|N2].
  { split; simpl; [exact A|exact B]. }
  destruct (Ascii.eqb_spec c "^") as [->|N3].
  { split; simpl; [exact A|exact B]. }
  simpl orb. cbv iota. split.
  - change ([c] ++ flat_map escapeChar s) with (c :: flat_map escapeChar s).
    simpl. rewrite A, andb_true_r.
    apply negb_true_iff. apply negb_true_iff in Qc.
    destruct (oneOf "_$%" c) eqn:O; [|reflexivity].
    apply oneOf_in in O. assert (I : In c (str "\$%_")).
    { simpl in O |- *. tauto. }
    apply oneOf_in in I. congruence.
  - change ([c] ++ flat_map escapeChar s) with (c :: flat_map escapeChar s).
    simpl. rewrite B, andb_true_r.
    destruct (Ascii.eqb_spec c BSL) as [->|]; [discriminate|reflexivity].
Qed.

Lemma sanitizeLatex_value latex :
  option_map value (sanitizeLatex latex) = Some (sanitized latex).
Proof.
  unfold sanitizeLatex, braceWarning, countMatches, lengthOf, orEmpty.
  destruct (matchGlobal _ _); destruct (matchGlobal _ _); reflexivity.
Qed.

Lemma sanitized_plain s : quiet (oneOf "\$%_") s = true ->
  sanitized s = flat_map escapeChar s.
Proof.
  intros Q. unfold sanitized.
  assert (F : fixEnumerate s = s).
  { unfold fixEnumerate.
    rewrite !(@replace_quiet (oneOf "\$%_") _ _ s) by side Q.
    reflexivity. }
  rewrite F.
  assert (P : protect s = ({| counter := 0; mathBlocks := []; verbatimBlocks := [] |},
                           {| commentCounter := 0; commentLines := [] |}, s)).
  { unfold protect.
    rewrite !(@replaceWith_quiet blocks (oneOf "\$%_") _ _ _ s) by side Q.
    rewrite !(@replaceWith_quiet comments (oneOf "\$%_") _ _ _ s) by side Q.
    reflexivity. }
  rewrite P. cbn [counter commentCounter restoreBlocks restoreComments].
  rewrite escapeSpecials_passes. fold (passes None s).
  rewrite passes_escapeEach, (@escapeEach_plain s None eq_refl Q).
  destruct (escaped_text s Q) as [A B].
  assert (C : collapseBlanks (flat_map escapeChar s) = flat_map escapeChar s).
  { unfold collapseBlanks.
    rewrite !(@replaceWith_quiet unit (oneOf "_$%") _ _ _ (flat_map escapeChar s))
      by side A.
    reflexivity. }
  rewrite C. unfold tidy.
  rewrite !(@replace_guarded (oneOf "&#^") _ _ (flat_map escapeChar s)) by side B.
  reflexivity.
Qed.

End EscapeOnly.

(** *** The name of the download. *)

Section FileName.

Lemma repeat_total m gs greedy (k : mstate -> option mstate) :
  (forall st, k st <> None) ->
  forall fuel hi st, repeatMatcher m gs greedy k fuel 0 hi st <> None.
Proof.
  intros K. destruct fuel as [|f]; intros hi st; simpl; [apply K|].
  destruct (isZero hi); [apply K|]. destruct greedy.
  - match goal with |- context [m ?c ?s] => destruct (m c s) end;
      [discriminate|apply K].
  - destruct (k st) eqn:E; [discriminate|]. destruct (K st E).
Qed.

Lemma notAlnum_class c :
  inClass {| ignoreCase := false; multiline := false |} true
          [CRange "a" "z"; CRange "0" "9"] c = negb (lowerAlnum c).
Proof.
  assert (H : forallb (fun c =>
                Bool.eqb (inClass {| ignoreCase := false; multiline := false |} true
                                  [CRange "a" "z"; CRange "0" "9"] c)
                         (negb (lowerAlnum c))) allChars = true)
    by (vm_compute; reflexivity).
  rewrite forallb_forall in H. apply Bool.eqb_prop, H, allChars_all.
Qed.

Lemma plus_step m gs greedy (k : mstate -> option mstate) f hi st :
  isZero hi = false ->
  repeatMatcher m gs greedy k (S f) 1 hi st
  = m (fun st' => repeatMatcher m gs greedy k f 0 (option_map pred hi) st')
      (clearCaps gs st).
Proof. intros Z. simpl. rewrite Z. reflexivity. Qed.

(** A quantified atom that has to be read once or not at all matches
    whenever the next code unit is one it takes. *)
Lemma plus_first fl a lo hi greedy acc (k : mstate -> option mstate) st c rest :
  accepts fl a = Some acc -> lo <= 1 -> isZero hi = false ->
  after st = c :: rest -> acc c = true -> (forall st, k st <> None) ->
  run fl (Repeat a lo hi greedy) k st <> None.
Proof.
  intros A L Z E C K. cbn [run].
  destruct lo as [|[|lo]]; [apply repeat_total, K| |lia].
  cbn [Nat.add]. rewrite plus_step by exact Z.
  assert (R : forall k' st0, run fl a k' st0 = step acc k' st0).
  { intros k' st0. destruct a; try discriminate; simpl in A; inversion A; reflexivity. }
  rewrite R. unfold step. cbn [clearCaps after]. rewrite E, C.
  apply repeat_total, K.
Qed.

Lemma notAlnum_first pre c suf :
  matchAt notAlnum pre (c :: suf) = None <-> lowerAlnum c = true.
Proof.
  split.
  - intros H. destruct (lowerAlnum c) eqn:A; [reflexivity|exfalso].
    revert H. unfold matchAt.
    replace (pattern notAlnum)
      with (Repeat (Class true [CRange "a" "z"; CRange "0" "9"]) 1 None true)
      by (vm_compute; reflexivity).
    match goal with |- context [run ?f ?r ?k ?st] =>
      pose proof (@plus_first f (Class true [CRange "a" "z"; CRange "0" "9"])
                    1 None true _ k st c suf eq_refl (le_n 1) eq_refl eq_refl) as T;
      destruct (run f r k st)
    end; [discriminate|].
    intros _. apply T; [|discriminate|reflexivity].
    change (RegExp.fl notAlnum) with {| ignoreCase := false; multiline := false |}.
    rewrite notAlnum_class, A. reflexivity.
  - intros A. destruct (matchAt notAlnum pre (c :: suf)) as [m|] eqn:M; [|reflexivity].
    apply matchAt_lang in M. destruct M as (rest & E & L & _).
    apply (@startsIn_lang _ (fun c => negb (lowerAlnum c))) in L;
      [|vm_compute; reflexivity].
    destruct L as (d & x' & Em & P). rewrite Em in E. inversion E; subst d.
    rewrite A in P. discriminate.
Qed.

Lemma notAlnum_run pre suf m :
  matchAt notAlnum pre suf = Some m ->
  exists c x rest, matched m = c :: x /\ suf = c :: x ++ rest
                   /\ quiet lowerAlnum (c :: x) = true.
Proof.
  intros M. apply matchAt_lang in M. destruct M as (rest & E & L & _).
  assert (W0 : within (RegExp.fl notAlnum) (fun c => negb (lowerAlnum c))
                      (pattern notAlnum) = true) by (vm_compute; reflexivity).
  pose proof (@within_lang _ _ _ _ _ W0 L) as W.
  apply (@startsIn_lang _ (fun c => negb (lowerAlnum c))) in L;
    [|vm_compute; reflexivity].
  destruct L as (d & x' & Em & P). exists d, x', rest.
  split; [assumption|]. rewrite Em in E, W. split; [exact E|exact W].
Qed.

Lemma stream_notAlnum : forall suf pre skip,
  skip <= length suf -> quiet lowerAlnum (firstn skip suf) = true ->
  stream notAlnum (fun _ => []) pre suf skip = filter lowerAlnum suf.
Proof.
  induction suf as [|c suf IH]; intros pre skip L Q.
  - simpl in L. assert (skip = 0) by lia. subst. simpl.
    destruct (matchAt notAlnum pre []) eqn:M; [|reflexivity].
    apply notAlnum_run in M. destruct M as (d & x & rest & _ & E & _). discriminate.
  - destruct skip as [|k]; cbn [stream filter].
    + destruct (matchAt notAlnum pre (c :: suf)) as [m|] eqn:M.
      * apply notAlnum_run in M. destruct M as (d & x & rest & Em & E & W).
        inversion E; subst d suf. rewrite Em. cbn [length Nat.eqb pred app].
        simpl in W. apply andb_prop in W. destruct W as [Wc W].
        apply negb_true_iff in Wc. rewrite Wc.
        apply IH; [rewrite length_app; lia|].
        rewrite firstn_app, Nat.sub_diag, firstn_all. simpl.
        rewrite app_nil_r. exact W.
      * apply notAlnum_first in M. rewrite M. f_equal. apply IH; [lia|reflexivity].
    + simpl in Q, L. apply andb_prop in Q. destruct Q as [Qc Q].
      apply negb_true_iff in Qc. rewrite Qc. apply IH; [lia|exact Q].
Qed.

Lemma replace_notAlnum s : replace notAlnum [] s = filter lowerAlnum s.
Proof.
  rewrite replace_stream by reflexivity.
  rewrite (@stream_ext notAlnum _ (fun _ => [])) by reflexivity.
  apply stream_notAlnum; [lia|reflexivity].
Qed.

End FileName.

(** *** A literal followed by a greedy run of any code unit. *)

Section LiteralThenAny.

Variable fl : flags.
Hypothesis caseSensitive : ignoreCase fl = false.

Lemma advance_zero st : advance 0 st = st.
Proof. destruct st; reflexivity. Qed.

Lemma advance_step n st c rest cs :
  after st = c :: rest ->
  advance n {| before := c :: before st; after := rest; caps := cs |}
  = {| before := before (advance (S n) st); after := after (advance (S n) st);
       caps := cs |}.
Proof.
  intros E. unfold advance. cbn [before after caps]. rewrite E.
  cbn [firstn skipn rev]. rewrite <- app_assoc. reflexivity.
Qed.

(** The literal start is read code unit by code unit. *)
Lemma run_litSplit : forall r (k : mstate -> option mstate) st,
  run fl r k st
  = if startsWith (fst (litSplit r)) (after st)
    then run fl (snd (litSplit r)) k (advance (length (fst (litSplit r))) st)
    else None.
Proof.
  induction r; intros k st; try (cbn [litSplit fst snd startsWith length];
    rewrite advance_zero; reflexivity).
  destruct r1; try (cbn [litSplit fst snd startsWith length];
    rewrite advance_zero; reflexivity).
  cbn [litSplit]. destruct (litSplit r2) as [l t] eqn:S2. cbn [fst snd] in *.
  cbn [run]. unfold step. destruct (after st) as [|d rest] eqn:E; [reflexivity|].
  unfold canon. rewrite caseSensitive. cbn [startsWith length].
  rewrite Ascii.eqb_sym. destruct (Ascii.eqb c d); [|reflexivity]. cbn [andb].
  rewrite IHr2. cbn [after]. destruct (startsWith l rest); [|reflexivity].
  f_equal. destruct st as [b a cs]. cbn [before after caps] in *. subst a.
  unfold advance. cbn [before after caps firstn skipn rev].
  rewrite <- app_assoc. reflexivity.
Qed.

(** A greedy run of an atom that takes every code unit, with nothing
    after it, reads as far as its upper bound allows. *)
Lemma greedy_all a acc : accepts fl a = Some acc -> (forall c, acc c = true) ->
  forall fuel hi st, caps st = [] -> length (after st) < fuel ->
  repeatMatcher (run fl a) (groupsOf a) true Some fuel 0 hi st
  = Some (advance (take hi (length (after st))) st).
Proof.
  intros A All.
  assert (R : forall k' st0, run fl a k' st0 = step acc k' st0).
  { intros k' st0. destruct a; try discriminate; simpl in A; inversion A; reflexivity. }
  assert (G : groupsOf a = []) by (destruct a; try discriminate; reflexivity).
  rewrite G.
  induction fuel as [|f IH]; intros hi st C L; [lia|].
  cbn [repeatMatcher]. destruct (isZero hi) eqn:Z.
  { destruct hi as [[|h]|]; try discriminate. cbn [take Nat.min].
    rewrite advance_zero. reflexivity. }
  cbn [Nat.ltb Nat.leb]. rewrite R. unfold step. cbn [clearCaps after].
  destruct (after st) as [|c rest] eqn:E.
  { cbn [length]. replace (take hi 0) with 0 by (destruct hi; simpl; lia).
    rewrite advance_zero. reflexivity. }
  rewrite All. cbn [Nat.eqb andb after length].
  replace (length rest =? S (length rest)) with false
    by (symmetry; apply Nat.eqb_neq; lia).
  cbn [clearCaps before caps pred]. rewrite C. cbn [filter]. cbn [length] in L.
  rewrite IH by (cbn [caps after]; (reflexivity || lia)). cbn [after]. f_equal.
  replace (take hi (S (length rest)))
    with (S (take (option_map pred hi) (length rest))).
  - destruct st as [b a' cs]. cbn [before after caps] in *. subst a' cs.
    unfold advance. cbn [before after caps firstn skipn rev].
    rewrite <- app_assoc. reflexivity.
  - destruct hi as [[|h]|]; try discriminate; simpl; try lia.
Qed.

End LiteralThenAny.

Section FirstOccurrence.

(** A pattern that matches exactly where its literal start stands finds
    the first occurrence of that literal. *)
Lemma search_literal re lit (found : jsstring -> jsstring -> Match) :
  (forall pre suf, matchAt re pre suf
                   = if startsWith lit suf then Some (found pre suf) else None) ->
  forall suf pre,
    search re pre suf
    = match indexOf lit suf with
      | Some i => Some (found (rev (firstn i suf) ++ pre) (skipn i suf))
      | None => None
      end.
Proof.
  intros M. induction suf as [|c suf IH]; intros pre; cbn [search indexOf]; rewrite M.
  - destruct (startsWith lit []); reflexivity.
  - destruct (startsWith lit (c :: suf)); [reflexivity|].
    rewrite IH. destruct (indexOf lit suf) as [i|]; [|reflexivity].
    cbn [option_map firstn skipn rev]. rewrite <- app_assoc. reflexivity.
Qed.

Lemma startsWith_app l : forall s, startsWith l s = true -> s = l ++ skipn (length l) s.
Proof.
  induction l as [|c l IH]; intros s H; [reflexivity|].
  destruct s as [|d s]; [discriminate|]. simpl in H. apply andb_prop in H.
  destruct H as [E H]. apply Ascii.eqb_eq in E. subst d.
  simpl. f_equal. apply IH, H.
Qed.

Lemma startsWith_refl l : forall s, startsWith l (l ++ s) = true.
Proof.
  induction l as [|c l IH]; intros s; [reflexivity|].
  simpl. rewrite Ascii.eqb_refl. apply IH.
Qed.

Lemma indexOf_found lit : forall s i,
  indexOf lit s = Some i -> startsWith lit (skipn i s) = true /\ i <= length s.
Proof.
  induction s as [|c s IH]; intros i H; cbn [indexOf] in H.
  - destruct (startsWith lit []) eqn:E; [|discriminate]. inversion H; subst.
    split; [exact E|simpl; lia].
  - destruct (startsWith lit (c :: s)) eqn:E.
    + inversion H; subst. split; [exact E|simpl; lia].
    + destruct (indexOf lit s) as [j|]; [|discriminate]. inversion H; subst.
      destruct (IH j eq_refl) as [A B]. split; [exact A|simpl; lia].
Qed.

Lemma firstn_add (l : jsstring) n m :
  firstn (n + m) l = firstn n l ++ firstn m (skipn n l).
Proof.
  rewrite <- (firstn_skipn n (firstn (n + m) l)) at 1.
  rewrite firstn_firstn, firstn_skipn_comm.
  replace (Nat.min n (n + m)) with n by lia. reflexivity.
Qed.

Lemma advance_extends n st : extends st (advance n st) (firstn n (after st)).
Proof. split; simpl; [reflexivity|symmetry; apply firstn_skipn]. Qed.

Lemma advance_add l m st : advance m (advance l st) = advance (l + m) st.
Proof.
  unfold advance. cbn [before after caps].
  rewrite skipn_skipn, firstn_add, rev_app_distr, <- app_assoc.
  rewrite (Nat.add_comm m l). reflexivity.
Qed.

(** What one attempt of a literal-then-any pattern returns. *)
Lemma matchAt_literalThenAny re a acc hi :
  ignoreCase (RegExp.fl re) = false ->
  snd (litSplit (pattern re)) = Repeat a 0 hi true ->
  accepts (RegExp.fl re) a = Some acc -> (forall c, acc c = true) ->
  forall pre suf,
    matchAt re pre suf
    = if startsWith (fst (litSplit (pattern re))) suf
      then Some {| index := length pre;
                   matched := firstn (length (fst (litSplit (pattern re)))
                                      + take hi (length suf
                                                 - length (fst (litSplit (pattern re)))))
                                     suf;
                   groups := map (fun _ => None) (seq 1 (groupCount (pattern re)));
                   input := rev pre ++ suf |}
      else None.
Proof.
  intros I S A All pre suf. unfold matchAt.
  rewrite (@run_litSplit (RegExp.fl re) I). cbn [after].
  destruct (startsWith (fst (litSplit (pattern re))) suf) eqn:W; [|reflexivity].
  rewrite S. cbn [run].
  set (l := fst (litSplit (pattern re))) in *.
  rewrite (@greedy_all (RegExp.fl re) a acc A All)
    by (cbn [advance caps after]; (reflexivity || lia)).
  rewrite advance_add. cbn [advance after]. rewrite length_skipn.
  f_equal. f_equal.
  match goal with |- consumed ?s (advance ?n ?s) = _ =>
    rewrite (@consumed_extends s (advance n s) _ (advance_extends n s)) end.
  reflexivity.
Qed.

End FirstOccurrence.

(** *** The message built from the compiler's log. *)

Section LogMessage.

Lemma anyClass_all c :
  inClass {| ignoreCase := false; multiline := false |} false
          [CChar "."; CSpace false; CSpace true] c = true.
Proof.
  assert (H : forallb (inClass {| ignoreCase := false; multiline := false |} false
                         [CChar "."; CSpace false; CSpace true]) allChars = true)
    by (vm_compute; reflexivity).
  rewrite forallb_forall in H. apply H, allChars_all.
Qed.

Lemma undefinedRe_search s :
  search undefinedRe [] s
  = match indexOf (str "Undefined control sequence") s with
    | Some i =>
        Some {| index := i;
                matched := firstn (26 + Nat.min 100 (length s - i - 26)) (skipn i s);
                groups := [];
                input := s |}
    | None => None
    end.
Proof.
  rewrite (@search_literal undefinedRe (str "Undefined control sequence")
             (fun pre suf =>
                {| index := length pre;
                   matched := firstn (26 + Nat.min 100 (length suf - 26)) suf;
                   groups := [];
                   input := rev pre ++ suf |})).
  - destruct (indexOf (str "Undefined control sequence") s) as [i|] eqn:E; [|reflexivity].
    apply indexOf_found in E. destruct E as [_ L].
    rewrite app_nil_r, length_rev, length_firstn, length_skipn, rev_involutive,
      firstn_skipn.
    replace (Nat.min i (length s)) with i by lia. reflexivity.
  - intros pre suf.
    apply (@matchAt_literalThenAny undefinedRe
             (Class false [CChar "."; CSpace false; CSpace true]) _ (Some 100)
             eq_refl eq_refl eq_refl anyClass_all pre suf).
Qed.

Lemma errorDetails_first lines d ds :
  PdfRoute.errorDetails lines = d :: ds -> 0 < length d.
Proof.
  induction lines as [|line rest IH]; [discriminate|]. cbn [PdfRoute.errorDetails].
  destruct (startsWith (str "!") line || includes line (str "Error")) eqn:T.
  - intros H. inversion H; subst.
    assert (N : 0 < length line).
    { destruct line; [|simpl; lia]. discriminate. }
    destruct rest as [|l2 rest]; [exact N|].
    change (firstn 3 (line :: l2 :: rest)) with (line :: firstn 2 (l2 :: rest)).
    cbn [firstn join]. rewrite length_app. lia.
  - exact IH.
Qed.

End LogMessage.

(** *** The document taken out of the model's reply. *)

Section ReplyDocument.

Lemma spaceOrNot_all c :
  inClass {| ignoreCase := false; multiline := false |} false
          [CSpace false; CSpace true] c = true.
Proof.
  assert (H : forallb (inClass {| ignoreCase := false; multiline := false |} false
                         [CSpace false; CSpace true]) allChars = true)
    by (vm_compute; reflexivity).
  rewrite forallb_forall in H. apply H, allChars_all.
Qed.

Lemma docStartRe_search s :
  option_map matched (search docStartRe [] s)
  = option_map (fun i => skipn i s) (indexOf (str "\documentclass") s).
Proof.
  rewrite (@search_literal docStartRe (str "\documentclass")
             (fun pre suf =>
                {| index := length pre;
                   matched := firstn (14 + (length suf - 14)) suf;
                   groups := [];
                   input := rev pre ++ suf |})).
  - destruct (indexOf (str "\documentclass") s) as [i|] eqn:E; [|reflexivity].
    cbn [option_map matched]. f_equal. apply firstn_all2. lia.
  - intros pre suf.
    apply (@matchAt_literalThenAny docStartRe
             (Class false [CSpace false; CSpace true]) _ None
             eq_refl eq_refl eq_refl spaceOrNot_all pre suf).
Qed.

Lemma trimStart_suffix s : exists u, s = u ++ trimStart s.
Proof.
  induction s as [|c s [u IH]]; [exists []; reflexivity|]. simpl.
  destruct (isWhiteSpace c); [|exists []; reflexivity].
  exists (c :: u). simpl. f_equal. exact IH.
Qed.

Lemma trimEnd_prefix s : exists v, s = trimEnd s ++ v.
Proof.
  unfold trimEnd. destruct (trimStart_suffix (rev s)) as [u E].
  exists (rev u). rewrite <- rev_app_distr, <- E. symmetry. apply rev_involutive.
Qed.

Lemma trimStart_keeps a c b : isWhiteSpace c = false ->
  exists a', trimStart (a ++ c :: b) = a' ++ c :: b.
Proof.
  intros N. induction a as [|d a [a' IH]]; simpl.
  - rewrite N. exists []. reflexivity.
  - destruct (isWhiteSpace d); [exists a'; exact IH|].
    exists (d :: a). reflexivity.
Qed.

Lemma trimEnd_keeps q d t : isWhiteSpace d = false ->
  exists t', trimEnd ((q ++ [d]) ++ t) = (q ++ [d]) ++ t'.
Proof.
  intros N. unfold trimEnd. rewrite !rev_app_distr. cbn [rev app].
  destruct (@trimStart_keeps (rev t) d (rev q) N) as [a' E]. rewrite E.
  exists (rev a'). rewrite rev_app_distr. cbn [rev].
  rewrite rev_involutive. reflexivity.
Qed.

(** Trimming keeps a prefix that starts and ends with code units other
    than white space. *)
Lemma trim_keeps_prefix c l d t :
  isWhiteSpace c = false -> isWhiteSpace d = false ->
  startsWith (c :: l ++ [d]) (trim ((c :: l ++ [d]) ++ t)) = true.
Proof.
  intros Nc Nd. unfold trim. cbn [app trimStart]. rewrite Nc.
  destruct (@trimEnd_keeps (c :: l) d t Nd) as [t' E].
  cbn [app] in E. rewrite E. apply (@startsWith_refl (c :: l ++ [d])).
Qed.

Lemma startsWith_longer l : forall s v,
  startsWith l s = true -> startsWith l (s ++ v) = true.
Proof.
  induction l as [|c l IH]; intros s v H; [reflexivity|].
  destruct s as [|d s]; [discriminate|]. simpl in *.
  apply andb_prop in H. destruct H as [A B]. rewrite A. apply IH, B.
Qed.

Lemma indexOf_none_suffix l u : forall s,
  indexOf l (u ++ s) = None -> indexOf l s = None.
Proof.
  induction u as [|c u IH]; intros s H; [exact H|].
  cbn [app indexOf] in H. destruct (startsWith l (c :: u ++ s)); [discriminate|].
  destruct (indexOf l (u ++ s)) eqn:E; [discriminate|]. apply IH, E.
Qed.

Lemma indexOf_none_prefix l v : forall s,
  indexOf l (s ++ v) = None -> indexOf l s = None.
Proof.
  induction s as [|c s IH]; intros H.
  - cbn [app] in H. cbn [indexOf].
    destruct (startsWith l []) eqn:E; [|reflexivity].
    destruct l; [|discriminate]. destruct v; discriminate.
  - cbn [app indexOf] in H |- *.
    destruct (startsWith l (c :: s)) eqn:E.
    + apply (@startsWith_longer l (c :: s) v) in E. cbn [app] in E.
      rewrite E in H. discriminate.
    + destruct (startsWith l (c :: s ++ v)); [discriminate|].
      destruct (indexOf l (s ++ v)) eqn:I; [discriminate|].
      rewrite (IH eq_refl). reflexivity.
Qed.

Lemma indexOf_none_trim l s : indexOf l s = None -> indexOf l (trim s) = None.
Proof.
  intros H. unfold trim.
  destruct (trimStart_suffix s) as [u E]. rewrite E in H.
  apply indexOf_none_suffix in H.
  destruct (trimEnd_prefix (trimStart s)) as [v F]. rewrite F in H.
  apply indexOf_none_prefix in H. exact H.
Qed.

End ReplyDocument.

(** *** What every parsed question satisfies. *)

Section ParsedQuestions.

Lemma search_matchAt re : forall suf pre m,
  search re pre suf = Some m ->
  exists pre' suf' u, matchAt re pre' suf' = Some m /\ suf = u ++ suf'.
Proof.
  induction suf as [|c suf IH]; intros pre m H; cbn [search] in H.
  - destruct (matchAt re pre []) eqn:A; [|discriminate]. inversion H; subst.
    exists pre, [], []. split; [exact A|reflexivity].
  - destruct (matchAt re pre (c :: suf)) eqn:A.
    + inversion H; subst. exists pre, (c :: suf), []. split; [exact A|reflexivity].
    + apply IH in H. destruct H as (pre' & suf' & u & M & E).
      exists pre', suf', (c :: u). split; [exact M|]. rewrite E. reflexivity.
Qed.

Lemma execFrom_matchAt re s i m :
  execFrom re s i = Some m ->
  exists pre' suf' u, matchAt re pre' suf' = Some m /\ s = u ++ suf'.
Proof.
  unfold execFrom. destruct (length s <? i); [discriminate|]. intros H.
  apply search_matchAt in H. destruct H as (pre' & suf' & u & M & E).
  exists pre', suf', (firstn i s ++ u). split; [exact M|].
  rewrite <- app_assoc, <- E. symmetry. apply firstn_skipn.
Qed.

Variable P : Question -> Prop.

Lemma execLoop_inv p s :
  (forall m acc i, execFrom (regex p) s i = Some m ->
     Forall P acc -> Forall P (processMatch p m acc)) ->
  forall fuel i acc r,
    Forall P acc -> execLoop fuel p s i acc = Some r -> Forall P r.
Proof.
  intros Step. induction fuel as [|f IH]; intros i acc r A H; [discriminate|].
  cbn [execLoop] in H. destruct (execFrom (regex p) s i) as [m|] eqn:E.
  - eapply IH; [|exact H]. eapply Step; eassumption.
  - inversion H; subst. exact A.
Qed.

Lemma cascade_inv s : forall ps,
  (forall p, In p ps -> forall m acc i, execFrom (regex p) s i = Some m ->
     Forall P acc -> Forall P (processMatch p m acc)) ->
  forall acc r, Forall P acc -> cascade ps s acc = Some r -> Forall P r.
Proof.
  induction ps as [|p ps IH]; intros Step acc r A H; cbn [cascade] in H.
  - inversion H; subst. exact A.
  - destruct (execLoop (length s + 2) p s 0 acc) as [parsed|] eqn:E; [|discriminate].
    assert (B : Forall P parsed).
    { eapply (@execLoop_inv p s); [|exact A|exact E].
      apply Step. left; reflexivity. }
    destruct (0 <? length parsed).
    + inversion H; subst. exact B.
    + eapply IH; [|exact B|exact H]. intros p' I. apply Step. right; exact I.
Qed.

Lemma uniqueQuestions_inv l : Forall P l -> Forall P (uniqueQuestions l).
Proof.
  intros A. apply Forall_forall. intros q I. unfold uniqueQuestions in I.
  apply (proj1 (@sort_in q _)) in I. fold (entriesOf l) in I.
  apply (proj1 (@newMap_values q l)) in I.
  destruct I as (l1 & l2 & E & _). rewrite Forall_forall in A. apply A.
  rewrite E. apply in_or_app. right. left. reflexivity.
Qed.

(** An invariant of the loop body holds of every question returned. *)
Lemma parseQuestions_inv content :
  (forall p, In p patterns -> forall m acc i,
     execFrom (regex p) (body content) i = Some m ->
     Forall P acc -> Forall P (processMatch p m acc)) ->
  exists qs, parseQuestions content = Some qs /\ Forall P qs.
Proof.
  intros Step. unfold parseQuestions.
  destruct (@cascade_total (body content) patterns [] patterns_consume) as [r R].
  rewrite R. exists (uniqueQuestions r). split; [reflexivity|].
  apply uniqueQuestions_inv. eapply cascade_inv; [exact Step| |exact R]. constructor.
Qed.

End ParsedQuestions.

Section Trimming.

Lemma trimStart_fixed s :
  match s with c :: _ => isWhiteSpace c = false | [] => True end ->
  trimStart s = s.
Proof. destruct s as [|c s]; [reflexivity|]. simpl. intros ->. reflexivity. Qed.

Lemma trimStart_head s :
  match trimStart s with c :: _ => isWhiteSpace c = false | [] => True end.
Proof.
  induction s as [|c s IH]; [exact I|]. simpl.
  destruct (isWhiteSpace c) eqn:E; [exact IH|exact E].
Qed.

Lemma trimStart_twice s : trimStart (trimStart s) = trimStart s.
Proof. apply trimStart_fixed, trimStart_head. Qed.

Lemma trimEnd_twice s : trimEnd (trimEnd s) = trimEnd s.
Proof. unfold trimEnd. rewrite rev_involutive, trimStart_twice. reflexivity. Qed.

Lemma trimEnd_head s :
  match s with c :: _ => isWhiteSpace c = false | [] => True end ->
  match trimEnd s with c :: _ => isWhiteSpace c = false | [] => True end.
Proof.
  intros H. destruct (trimEnd_prefix s) as [v E].
  destruct (trimEnd s) as [|c t]; [exact I|].
  rewrite E in H. exact H.
Qed.

Lemma trim_twice s : trim (trim s) = trim s.
Proof.
  unfold trim at 1.
  rewrite (@trimStart_fixed (trim s)) by (apply trimEnd_head, trimStart_head).
  apply trimEnd_twice.
Qed.

End Trimming.

(** *** The number of a question. *)

Section QuestionNumbers.

Lemma digit_facts c : isDigit c = true ->
  isWhiteSpace c = false /\ isc c "-" = false /\ isc c "+" = false.
Proof.
  assert (H : forallb (fun c => implb (isDigit c)
                (negb (isWhiteSpace c) && negb (isc c "-") && negb (isc c "+")))
                allChars = true) by (vm_compute; reflexivity).
  rewrite forallb_forall in H. specialize (H c (allChars_all c)).
  intros D. rewrite D in H. simpl in H.
  apply andb_prop in H. destruct H as [H H3]. apply andb_prop in H. destruct H as [H1 H2].
  repeat split; apply negb_true_iff; assumption.
Qed.

Lemma digitsValue_natural : forall s acc n,
  match acc with Some a => (0 <= a)%Z | None => True end ->
  digitsValue s acc = Some n -> (0 <= n)%Z.
Proof.
  induction s as [|c s IH]; intros acc n A H; cbn [digitsValue] in H.
  - subst acc. exact A.
  - destruct (isDigit c).
    + eapply IH; [|exact H]. lazy beta iota. destruct acc as [a|]; lia.
    + subst acc. exact A.
Qed.

(** On a run of digits [parseInt] gives NaN (when the run is empty) or
    one of the numbers that [natural] describes. *)
Lemma parseInt_digits y : forallb isDigit y = true ->
  Number.isNaN (parseInt y) = true \/ natural (parseInt y) = true.
Proof.
  intros D. unfold parseInt. destruct y as [|c y]; [left; reflexivity|].
  simpl in D. apply andb_prop in D. destruct D as [Dc D].
  destruct (digit_facts c Dc) as (W & M & Pl).
  cbn [trimStart]. rewrite W, M, Pl.
  destruct (digitsValue (c :: y) None) as [n|] eqn:N; [right|left; reflexivity].
  apply ofZ_natural. eapply digitsValue_natural; [|exact N]. exact I.
Qed.


(** In every strategy the first group is a run of digits. *)
Lemma group1_digits p s i m :
  In p patterns -> execFrom (regex p) s i = Some m ->
  forallb isDigit (groupText 1 m) = true.
Proof.
  intros Ip E.
  assert (C : forallb (fun p =>
                forallb (fun e => negb (fst e =? 1)
                                  || within (RegExp.fl (regex p)) isDigit (snd e))
                        (groupBodies (pattern (regex p)))) patterns = true)
    by (vm_compute; reflexivity).
  rewrite forallb_forall in C. specialize (C p Ip). rewrite forallb_forall in C.
  apply execFrom_matchAt in E. destruct E as (pre' & suf' & u & M & _).
  apply matchAt_lang in M. destruct M as (rest & _ & _ & G).
  unfold groupText, group.
  destruct (nth 0 (groups m) None) as [y|] eqn:N; [|reflexivity].
  apply G in N. destruct N as (a & u' & v & Ia & _ & L). cbn [fst snd] in *.
  specialize (C _ Ia). cbn [fst snd Nat.eqb negb orb] in C.
  apply (@within_lang _ _ _ _ _ C L).
Qed.

(** What one match does to the list: nothing, or one record more, whose
    number is what [parseInt] gave for the first group. *)
Lemma processMatch_cases p m acc :
  processMatch p m acc = acc
  \/ exists questionText solutionText,
       processMatch p m acc
       = acc ++ [{| number := parseInt (groupText 1 m);
                    question := questionText; solution := solutionText |}]
       /\ Number.isNaN (parseInt (groupText 1 m)) = false.
Proof.
  unfold processMatch.
  destruct (truthyContent (orElse (group 3 m) (group 2 m))) as [fullContent|];
    [|left; reflexivity].
  destruct (Number.isNaN (parseInt (groupText 1 m))) eqn:N; [left; reflexivity|].
  cbn [orb]. destruct (length (trim fullContent) <? 5); [left; reflexivity|].
  destruct (isBoilerplate fullContent); [left; reflexivity|].
  destruct (matchFirst (solutionPattern p) fullContent) as [solutionMatch|].
  - destruct (5 <? length (trim (groupText 1 solutionMatch))); [|left; reflexivity].
    right. eexists; eexists. split; reflexivity.
  - destruct (5 <? length (trim fullContent)); [|left; reflexivity].
    right. eexists; eexists. split; reflexivity.
Qed.

(** Every parsed question has such a number. *)
Lemma cascade_natural s r : cascade patterns s [] = Some r ->
  Forall (fun q => natural (number q) = true) r.
Proof.
  intros H. eapply (@cascade_inv (fun q => natural (number q) = true));
    [|constructor|exact H].
  intros p Ip m acc i E A.
  pose proof (@group1_digits p _ i m Ip E) as D.
  destruct (processMatch_cases p m acc) as [->|(qt & st & -> & N)]; [exact A|].
  apply Forall_app. split; [exact A|]. constructor; [|constructor]. cbn [number].
  destruct (parseInt_digits _ D) as [F|F]; [congruence|exact F].
Qed.

End QuestionNumbers.



(** *** Documents without a digit. *)

Section NoDigit.

Lemma quiet_infix p u x v : quiet p (u ++ x ++ v) = true -> quiet p x = true.
Proof.
  rewrite !quiet_app. intros H. apply andb_prop in H. destruct H as [_ H].
  apply andb_prop in H. apply H.
Qed.

Lemma narrow_quiet p s : quiet p s = true ->
  forall markers, quiet p (narrow markers s) = true.
Proof.
  intros Q. induction markers as [|marker rest IH]; [exact Q|]. cbn [narrow].
  destruct (matchFirst marker s) as [m|] eqn:M; [|exact IH].
  unfold matchFirst in M. apply search_matchAt in M.
  destruct M as (pre' & suf' & u & M & E).
  apply matchAt_lang in M. destruct M as (rest' & Es & _ & G).
  assert (Qs : quiet p suf' = true).
  { rewrite E in Q. rewrite quiet_app in Q. apply andb_prop in Q. apply Q. }
  unfold orElse, group.
  destruct (nth 0 (groups m) None) as [[|c y]|] eqn:N.
  - rewrite Es in Qs. rewrite quiet_app in Qs. apply andb_prop in Qs. apply Qs.
  - apply G in N. destruct N as (a & u' & v & _ & Eo & _). cbn [snd] in Eo.
    rewrite Eo in Qs. apply (@quiet_infix p u' (c :: y) v Qs).
  - rewrite Es in Qs. rewrite quiet_app in Qs. apply andb_prop in Qs. apply Qs.
Qed.

Lemma quiet_skipn p n : forall s, quiet p s = true -> quiet p (skipn n s) = true.
Proof.
  induction n as [|n IH]; intros s Q; [exact Q|].
  destruct s as [|c s]; [reflexivity|]. apply IH. apply (@quiet_tail p c s Q).
Qed.

Lemma body_quiet p content : quiet p content = true -> quiet p (body content) = true.
Proof.
  intros Q. unfold body. apply narrow_quiet.
  destruct (indexOf _ content); [apply quiet_skipn|]; exact Q.
Qed.

Lemma execLoop_quiet p s : quiet isDigit s = true ->
  mustSee (RegExp.fl (regex p)) isDigit (pattern (regex p)) = true ->
  forall fuel acc, execLoop (S fuel) p s 0 acc = Some acc.
Proof.
  intros Q W fuel acc. cbn [execLoop]. unfold execFrom. cbn [Nat.ltb Nat.leb].
  cbn [firstn skipn rev].
  rewrite (@search_quiet isDigit (regex p) [] s W Q). reflexivity.
Qed.

Lemma cascade_quiet s : quiet isDigit s = true ->
  forall ps,
    forallb (fun p => mustSee (RegExp.fl (regex p)) isDigit (pattern (regex p))) ps
    = true ->
    cascade ps s [] = Some [].
Proof.
  intros Q. induction ps as [|p ps IH]; intros W; [reflexivity|].
  simpl in W. apply andb_prop in W. destruct W as [W1 W2].
  cbn [cascade]. replace (length s + 2) with (S (length s + 1)) by lia.
  rewrite (@execLoop_quiet p s Q W1). cbn [length Nat.ltb Nat.leb]. apply IH, W2.
Qed.

End NoDigit.

(** *** Fragments the renderer has little to do with. *)

Section SimpleFragments.

Lemma paragraphs_single t c rest :
  includes t [LF; LF] = false -> trim t = c :: rest -> c <> "<"%char ->
  paragraphs t = html "<p class='my-4'>" ++ trim t ++ html "</p>".
Proof.
  intros B T N. unfold paragraphs, split. unfold includes in B.
  destruct (indexOf [LF; LF] t) eqn:I; [discriminate|].
  rewrite (@split_whole [LF; LF] t [] I). simpl rev. simpl app.
  cbn [map filter]. unfold keep. rewrite T.
  rewrite (@test_no_tag (RE "^<[^>]+>$" "") c rest) by (try exact N; vm_compute; reflexivity).
  cbn [length Nat.ltb Nat.leb andb negb map join]. unfold wrap.
  rewrite (@test_no_tag (RE "^<(div|h[1-6]|ul|ol|hr)" "") c rest)
    by (try exact N; vm_compute; reflexivity).
  reflexivity.
Qed.

Lemma blank_mathOnly s : forallb isWhiteSpace s = true -> mathOnly s = true.
Proof.
  induction s as [|c s IH]; intros H; [reflexivity|].
  simpl in H. apply andb_prop in H. destruct H as [Hc H].
  cbn [mathOnly]. rewrite (IH H), andb_true_r.
  destruct (Ascii.eqb_spec c BSL) as [->|]; [discriminate|reflexivity].
Qed.

Lemma blank_trim s : forallb isWhiteSpace s = true -> trim s = [].
Proof.
  intros H. unfold trim.
  assert (T : trimStart s = []).
  { induction s as [|c s IH]; [reflexivity|]. simpl in H |- *.
    apply andb_prop in H. destruct H as [Hc H]. rewrite Hc. apply IH, H. }
  rewrite T. reflexivity.
Qed.

Lemma forallb_reversed (p : ascii -> bool) l :
  forallb p l = true -> forallb p (rev l) = true.
Proof.
  rewrite !forallb_forall. intros H x I. apply H, in_rev, I.
Qed.

Lemma blank_pieces sep : forall s skip cur,
  forallb isWhiteSpace s = true -> forallb isWhiteSpace cur = true ->
  Forall (fun piece => forallb isWhiteSpace piece = true) (split_aux sep skip cur s).
Proof.
  induction s as [|c s IH]; intros skip cur H C; cbn [split_aux].
  - constructor; [|constructor]. apply forallb_reversed, C.
  - simpl in H. apply andb_prop in H. destruct H as [Hc H].
    destruct skip as [|k]; [|apply IH; assumption].
    destruct (startsWith sep (c :: s)).
    + constructor; [apply forallb_reversed, C|]. apply IH; [exact H|reflexivity].
    + apply IH; [exact H|]. simpl. rewrite Hc, C. reflexivity.
Qed.

Lemma blank_paragraphs pieces :
  Forall (fun piece => forallb isWhiteSpace piece = true) pieces ->
  filter keep (map trim pieces) = [].
Proof.
  induction 1 as [|piece pieces H _ IH]; [reflexivity|].
  cbn [map filter]. rewrite (@blank_trim _ H). exact IH.
Qed.

End SimpleFragments.



(** *** Escaped reserved characters in the renderer. *)

Section Unescaping.

Lemma matchAt_pair x pre suf :
  matchAt (pairRe x) pre suf
  = match suf with
    | c :: d :: _ =>
        if Ascii.eqb c BSL && Ascii.eqb d x
        then Some {| index := length pre; matched := [c; d]; groups := [];
                     input := rev pre ++ suf |}
        else None
    | _ => None
    end.
Proof.
  unfold matchAt, pairRe. cbn [pattern RegExp.fl run]. unfold step, canon.
  cbn [ignoreCase plainFlags after before caps].
  destruct suf as [|c suf]; [reflexivity|].
  destruct (Ascii.eqb c BSL) eqn:E1; cbn [andb]; [|destruct suf; reflexivity].
  destruct suf as [|d suf]; [reflexivity|].
  destruct (Ascii.eqb d x) eqn:E2; [|reflexivity].
  f_equal. f_equal.
  match goal with |- consumed ?a ?b = _ =>
    apply (@consumed_extends a b [c; d]) end.
  split; reflexivity.
Qed.

Lemma stream_pair x : x <> BSL -> forall suf,
  (forall pre, stream (pairRe x) (fun _ => [x]) pre suf 0 = dropPair x suf)
  /\ (forall pre, stream (pairRe x) (fun _ => [x]) pre suf 1 = dropPair x (tl suf)).
Proof.
  intros N. induction suf as [|c suf [IH0 IH1]].
  - split; intros pre; cbn [stream]; [rewrite matchAt_pair|]; reflexivity.
  - split; intros pre; [|cbn [stream tl]; apply IH0].
    cbn [stream dropPair]. rewrite matchAt_pair.
    destruct suf as [|d suf].
    + rewrite andb_false_r, IH0. reflexivity.
    + destruct (Ascii.eqb c BSL && Ascii.eqb d x) eqn:E.
      * cbn [matched length Nat.eqb pred app]. rewrite IH1. cbn [tl dropPair].
        apply andb_prop in E. destruct E as [_ E]. apply Ascii.eqb_eq in E. subst d.
        destruct (Ascii.eqb_spec x BSL); [contradiction|]. reflexivity.
      * rewrite IH0. reflexivity.
Qed.

Lemma replace_pair x s : x <> BSL ->
  replace (pairRe x) [x] s = dropPair x s.
Proof.
  intros N. rewrite replace_stream by reflexivity.
  rewrite (@stream_ext (pairRe x) _ (fun _ => [x])).
  - apply (stream_pair N).
  - intros m. cbn [getSubstitution]. unfold isc.
    destruct (Ascii.eqb_spec x "$"); [|reflexivity].
    subst x. reflexivity.
Qed.

Lemma dropPair_other x c t : c <> BSL -> dropPair x (c :: t) = c :: dropPair x t.
Proof.
  intros N. cbn [dropPair]. destruct (Ascii.eqb_spec c BSL); [contradiction|].
  reflexivity.
Qed.

Lemma dropPair_hit x t : x <> BSL -> dropPair x (BSL :: x :: t) = x :: dropPair x t.
Proof.
  intros N. cbn [dropPair]. rewrite !Ascii.eqb_refl. cbn [andb].
  destruct (Ascii.eqb_spec x BSL); [contradiction|]. reflexivity.
Qed.

Lemma dropPair_miss x d t : d <> x -> d <> BSL ->
  dropPair x (BSL :: d :: t) = BSL :: d :: dropPair x t.
Proof.
  intros N1 N2. cbn [dropPair]. rewrite Ascii.eqb_refl.
  destruct (Ascii.eqb_spec d x); [contradiction|].
  destruct (Ascii.eqb_spec d BSL); [contradiction|]. reflexivity.
Qed.

Lemma oneOf_three d : oneOf "&%#" d = true -> d = "&"%char \/ d = "%"%char \/ d = "#"%char.
Proof. intros H. apply oneOf_in in H. simpl in H. intuition. Qed.

Lemma oneOf_seven d : oneOf "&%#[]()" d = true ->
  oneOf "&%#" d = true
  \/ (oneOf "&%#" d = false /\ d <> BSL /\ d <> "&"%char /\ d <> "%"%char
      /\ d <> "#"%char).
Proof.
  intros H. apply oneOf_in in H. simpl in H.
  destruct H as [<-|[<-|[<-|[<-|[<-|[<-|[<-|[]]]]]]]];
    try (left; reflexivity); right; repeat split; discriminate.
Qed.

(** The three calls of lines 301-303, one after the other, on text whose
    backslashes all stand before [&], [%], [#] or a bracket. *)
Lemma dropPairs_unescape : forall n s, length s <= n ->
  guarded (oneOf "&%#[]()") s = true ->
  dropPair "#" (dropPair "%" (dropPair "&" s)) = unescape s
  /\ guarded (oneOf "&%#[]()") (unescape s) = true.
Proof.
  induction n as [|n IH]; intros s L G.
  { destruct s; [split; reflexivity|simpl in L; lia]. }
  destruct s as [|c s]; [split; reflexivity|].
  destruct (Ascii.eqb_spec c BSL) as [->|N].
  - destruct s as [|d s]; [split; reflexivity|].
    cbn [guarded] in G. rewrite Ascii.eqb_refl in G.
    apply andb_prop in G. destruct G as [O G].
    assert (G' : guarded (oneOf "&%#[]()") s = true).
    { cbn [guarded] in G. apply andb_prop in G. apply G. }
    simpl in L. destruct (IH s ltac:(lia) G') as [D1 D2].
    destruct (@oneOf_seven _ O) as [O3|(O3 & Nb & N1 & N2 & N3)].
    + assert (U : unescape (BSL :: d :: s) = d :: unescape s).
      { cbn [unescape]. rewrite Ascii.eqb_refl, O3. cbn [andb].
        destruct (@oneOf_three _ O3) as [ -> | [ -> | -> ] ]; reflexivity. }
      rewrite U. split.
      * destruct (@oneOf_three _ O3) as [ -> | [ -> | -> ] ].
        -- rewrite dropPair_hit by discriminate.
           rewrite !dropPair_other by discriminate. f_equal. exact D1.
        -- rewrite dropPair_miss by discriminate.
           rewrite dropPair_hit by discriminate.
           rewrite dropPair_other by discriminate. f_equal. exact D1.
        -- rewrite !dropPair_miss by discriminate.
           rewrite dropPair_hit by discriminate. f_equal. exact D1.
      * cbn [guarded]. rewrite D2.
        destruct (@oneOf_three _ O3) as [ -> | [ -> | -> ] ]; reflexivity.
    + assert (U : unescape (BSL :: d :: s) = BSL :: d :: unescape s).
      { cbn [unescape]. rewrite Ascii.eqb_refl, O3. cbn [andb].
        destruct (Ascii.eqb_spec d BSL); [contradiction|]. reflexivity. }
      rewrite U. split.
      * rewrite !dropPair_miss by assumption. f_equal. f_equal. exact D1.
      * cbn [guarded]. rewrite Ascii.eqb_refl, O, D2.
        destruct (Ascii.eqb_spec d BSL); [contradiction|]. reflexivity.
  - assert (G' : guarded (oneOf "&%#[]()") s = true) by apply (@guarded_tail _ c s G).
    simpl in L. destruct (IH s ltac:(lia) G') as [D1 D2].
    rewrite !dropPair_other by exact N.
    cbn [unescape]. destruct (Ascii.eqb_spec c BSL); [contradiction|]. cbn [andb].
    split; [f_equal; exact D1|].
    cbn [guarded]. destruct (Ascii.eqb_spec c BSL); [contradiction|]. exact D2.
Qed.

Lemma rewrite_unescape s : guarded (oneOf "&%#[]()") s = true ->
  rewrite s = unescape s.
Proof.
  intros G. unfold rewrite.
  rewrite (@chain_guarded _ s G preambleRules) by (vm_compute; reflexivity).
  rewrite (@chain_guarded _ s G centerRules) by (vm_compute; reflexivity).
  rewrite (@replaceWith_guarded unit (oneOf "&%#[]()") parboxRule instructionBox tt s)
    by side G.
  cbn [snd].
  rewrite (@chain_guarded _ s G fboxRules) by (vm_compute; reflexivity).
  rewrite (@chain_guarded _ s G ruleRules) by (vm_compute; reflexivity).
  rewrite (@chain_guarded _ s G sectionRules) by (vm_compute; reflexivity).
  rewrite (@chain_guarded _ s G fontRules) by (vm_compute; reflexivity).
  rewrite (@chain_guarded _ s G listRules) by (vm_compute; reflexivity).
  rewrite (@chain_guarded _ s G textRules) by (vm_compute; reflexivity).
  rewrite (@chain_guarded _ s G breakRules) by (vm_compute; reflexivity).
  assert (S : chain specialRules s = unescape s).
  { unfold chain, specialRules. cbn [fold_left fst snd].
    change (RE "\\&" "g") with (pairRe "&").
    change (RE "\\%" "g") with (pairRe "%").
    change (RE "\\#" "g") with (pairRe "#").
    rewrite !replace_pair by discriminate.
    destruct (@dropPairs_unescape (length s) s (le_n _) G) as [D1 D2].
    rewrite D1.
    apply (@replace_guarded (oneOf "&%#[]()")); [vm_compute; reflexivity|exact D2]. }
  rewrite S.
  apply (@chain_guarded (oneOf "&%#[]()")); [|vm_compute; reflexivity].
  apply (@dropPairs_unescape (length s) s (le_n _) G).
Qed.

End Unescaping.

(** *** The set of visible solutions and the customizer. *)

Section Toggles.

Lemma eqs_eq : forall a b, eqs a b = true <-> a = b.
Proof.
  induction a as [|x a IH]; destruct b as [|y b]; simpl; split; intros H;
    try reflexivity; try discriminate.
  - apply andb_prop in H. destruct H as [E H]. apply Ascii.eqb_eq in E.
    apply IH in H. subst. reflexivity.
  - inversion H; subst. rewrite Ascii.eqb_refl. apply IH. reflexivity.
Qed.

Lemma has_delete m n s :
  Preview.has m (Preview.delete n s)
  = negb (m =? n)%Z && Preview.has m s.
Proof.
  unfold Preview.has, Preview.delete. induction s as [|x s IH]; simpl.
  - rewrite andb_false_r. reflexivity.
  - destruct (Z.eqb_spec x n) as [->|N]; simpl.
    + rewrite IH. destruct (Z.eqb_spec m n); reflexivity.
    + rewrite IH. destruct (Z.eqb_spec m n) as [->|]; simpl; [|reflexivity].
      destruct (Z.eqb_spec n x); [congruence|reflexivity].
Qed.

Lemma has_add m n s :
  Preview.has n s = false ->
  Preview.has m (Preview.add n s) = (m =? n)%Z || Preview.has m s.
Proof.
  unfold Preview.add. intros H. rewrite H. unfold Preview.has.
  rewrite existsb_app. simpl. rewrite orb_false_r. apply orb_comm.
Qed.

End Toggles.

(** *** Escaping what is escaped already. *)

Section EscapingTwice.

Local Arguments blankAhead : simpl never.

Lemma includes_tail p c s :
  includes (c :: s) p = false -> startsWith p (c :: s) = false /\ includes s p = false.
Proof.
  unfold includes. cbn [indexOf]. destruct (startsWith p (c :: s)); [discriminate|].
  destruct (indexOf p s); [discriminate|]. split; reflexivity.
Qed.

Lemma escaped_some c : escaped (Some c) = Ascii.eqb BSL c.
Proof. reflexivity. Qed.

(** What the scan writes first is white space when the text starts with
    white space. *)
Lemma blankAhead_escaped prev n rest :
  isWhiteSpace n = true -> blankAhead (escapeEach prev (n :: rest)) = true.
Proof.
  intros W.
  assert (F : isc n "&" = false /\ isc n "%" = false /\ isc n "#" = false
              /\ isc n "^" = false /\ isc n "_" = false).
  { unfold isc. repeat split;
      match goal with |- Ascii.eqb n ?x = false =>
        destruct (Ascii.eqb_spec n x) as [->|]; [discriminate|reflexivity] end. }
  destruct F as (F1 & F2 & F3 & F4 & F5).
  cbn [escapeEach]. rewrite F1, F2, F3, F4, F5. cbn [orb andb].
  destruct (escaped prev); cbn [app]; unfold blankAhead; rewrite W;
    apply orb_true_r.
Qed.

Lemma escapeEach_again : forall s prev prev',
  escaped prev' = escaped prev -> includes s (str "__") = false ->
  escapeEach prev' (escapeEach prev s) = escapeEach prev s.
Proof.
  induction s as [|c s IH]; intros prev prev' E D; [reflexivity|].
  apply includes_tail in D. destruct D as [D0 D].
  cbn [escapeEach]. destruct (escaped prev) eqn:Ep.
  - cbn [app escapeEach]. rewrite E. cbn [app]. f_equal. apply IH; [reflexivity|exact D].
  - unfold isc.
    destruct (Ascii.eqb_spec c "&") as [->|N1].
    { cbn. rewrite E. cbn. f_equal. f_equal. apply IH; [reflexivity|exact D]. }
    destruct (Ascii.eqb_spec c "%") as [->|N2].
    { cbn. rewrite E. cbn. f_equal. f_equal. apply IH; [reflexivity|exact D]. }
    destruct (Ascii.eqb_spec c "#") as [->|N3].
    { cbn. rewrite E. cbn. f_equal. f_equal. apply IH; [reflexivity|exact D]. }
    destruct (Ascii.eqb_spec c "^") as [->|N4].
    { cbn. rewrite E. cbn. do 4 f_equal. apply IH; [reflexivity|exact D]. }
    destruct (Ascii.eqb_spec c "_") as [->|N5].
    + destruct (blankAhead s) eqn:B.
      * assert (B' : blankAhead (escapeEach (Some "_"%char) s) = true).
        { destruct s as [|n s]; [discriminate|]. unfold blankAhead in B.
          destruct (Ascii.eqb_spec "_" n) as [<-|].
          - simpl in D0. discriminate.
          - apply blankAhead_escaped. exact B. }
        cbn. rewrite E. cbn. rewrite B'. cbn. f_equal.
        apply IH; [reflexivity|exact D].
      * cbn. rewrite E. cbn. f_equal. f_equal. apply IH; [reflexivity|exact D].
    + cbn [orb andb app escapeEach]. rewrite E. unfold isc.
      apply Ascii.eqb_neq in N1, N2, N3, N4, N5.
      rewrite N1, N2, N3, N4, N5. cbn [orb andb app]. f_equal.
      apply IH; [reflexivity|exact D].
Qed.

End EscapingTwice.

(** *** Sanitizing plain text twice, and the text handed to the compiler. *)

Section PlainTwice.

Lemma quiet_no_double s : quiet (oneOf "\$%_") s = true ->
  includes s (str "__") = false.
Proof.
  intros Q. unfold includes.
  destruct (indexOf (str "__") s) as [i|] eqn:I; [exfalso|reflexivity].
  apply indexOf_found in I. destruct I as [W _].
  apply startsWith_app in W.
  rewrite <- (firstn_skipn i s), quiet_app in Q. apply andb_prop in Q.
  destruct Q as [_ Q]. rewrite W in Q. discriminate.
Qed.

Lemma sanitized_escaped s : quiet (oneOf "\$%_") s = true ->
  sanitized (flat_map escapeChar s) = flat_map escapeChar s.
Proof.
  intros Q. destruct (escaped_text s Q) as [A B].
  set (t := flat_map escapeChar s) in *. unfold sanitized.
  assert (F : fixEnumerate t = t).
  { unfold fixEnumerate.
    rewrite !(@replace_guarded (oneOf "&#^") _ _ t) by side B. reflexivity. }
  rewrite F.
  assert (P : protect t = ({| counter := 0; mathBlocks := []; verbatimBlocks := [] |},
                           {| commentCounter := 0; commentLines := [] |}, t)).
  { unfold protect.
    rewrite (@replaceWith_quiet blocks (oneOf "_$%") _ _ _ t) by side A.
    rewrite (@replaceWith_guarded blocks (oneOf "&#^") _ _ _ t) by side B.
    rewrite (@replaceWith_quiet blocks (oneOf "_$%") _ _ _ t) by side A.
    rewrite (@replaceWith_guarded blocks (oneOf "&#^") _ _ _ t) by side B.
    rewrite (@replaceWith_quiet comments (oneOf "_$%") _ _ _ t) by side A.
    reflexivity. }
  rewrite P. cbn [counter commentCounter restoreBlocks restoreComments].
  assert (E : escapeSpecials t = t).
  { rewrite escapeSpecials_passes. fold (passes None t). rewrite passes_escapeEach.
    unfold t. rewrite <- (@escapeEach_plain s None eq_refl Q).
    apply escapeEach_again; [reflexivity|apply quiet_no_double, Q]. }
  rewrite E.
  assert (C : collapseBlanks t = t).
  { unfold collapseBlanks.
    rewrite !(@replaceWith_quiet unit (oneOf "_$%") _ _ _ t) by side A.
    reflexivity. }
  rewrite C. unfold tidy.
  rewrite !(@replace_guarded (oneOf "&#^") _ _ t) by side B.
  reflexivity.
Qed.

Lemma removeSolutions_escaped s : quiet (oneOf "\$%_") s = true ->
  PdfRoute.removeSolutions (flat_map escapeChar s) = flat_map escapeChar s.
Proof.
  intros Q. destruct (escaped_text s Q) as [_ B].
  set (t := flat_map escapeChar s) in *. unfold PdfRoute.removeSolutions.
  rewrite !(@replace_guarded (oneOf "&#^") _ _ t) by side B.
  reflexivity.
Qed.

End PlainTwice.

(** *** One formula between plain text. *)

Ltac literal H :=
  lazymatch goal with
  | |- ignoreCase _ = false => vm_compute; reflexivity
  | |- startsWith _ (prefixLit _) = true => vm_compute; reflexivity
  | |- _ => exact H
  end.

Section MathSpan.

(** A greedy quantified class reads every code unit the class takes and
    goes on from there when what follows succeeds there. *)
Lemma greedy_class acc (k : mstate -> option mstate) rest res :
  match rest with [] => True | d :: _ => acc d = false end ->
  forall x fuel lo pre,
    forallb acc x = true -> lo <= length x -> length x < fuel ->
    k {| before := rev x ++ pre; after := rest; caps := [] |} = Some res ->
    repeatMatcher (step acc) [] true k fuel lo None
                  {| before := pre; after := x ++ rest; caps := [] |} = Some res.
Proof.
  intros R. induction x as [|c x IH]; intros fuel lo pre A L F K.
  - destruct fuel as [|f]; [simpl in F; lia|]. simpl in L.
    assert (lo = 0) by lia. subst lo.
    cbn [repeatMatcher isZero Nat.ltb Nat.leb]. unfold step at 1.
    cbn [clearCaps after before caps filter app].
    destruct rest as [|d rest']; [exact K|]. rewrite R. exact K.
  - destruct fuel as [|f]; [simpl in F; lia|].
    simpl in A. apply andb_prop in A. destruct A as [Ac A].
    assert (N : repeatMatcher (step acc) [] true k f (pred lo) None
                  {| before := c :: pre; after := x ++ rest; caps := [] |} = Some res).
    { apply IH; [exact A|simpl in L; lia|simpl in F; lia|].
      simpl in K. rewrite <- app_assoc in K. exact K. }
    cbn [repeatMatcher isZero option_map].
    match goal with |- context [step acc ?k' ?st'] =>
      assert (G : step acc k' st' = Some res)
    end.
    { unfold step. cbn [clearCaps after before caps filter app]. rewrite Ac.
      cbn [after length].
      replace (length (x ++ rest) =? S (length (x ++ rest))) with false
        by (symmetry; apply Nat.eqb_neq; lia).
      rewrite andb_false_r. exact N. }
    rewrite G. destruct (0 <? lo); reflexivity.
Qed.

Lemma forallb_same (f g : ascii -> bool) : (forall c, f c = g c) ->
  forall s, forallb f s = forallb g s.
Proof. intros E. induction s as [|c s IH]; simpl; [reflexivity|]. rewrite E, IH. reflexivity. Qed.

Lemma matchAt_math pre c m b :
  quiet (oneOf "$") (c :: m) = true ->
  matchAt (RE "\$([^$]+)\$" "g") pre ("$"%char :: (c :: m) ++ "$"%char :: b)
  = Some {| index := length pre;
            matched := "$"%char :: (c :: m) ++ ["$"%char];
            groups := [Some (c :: m)];
            input := rev pre ++ "$"%char :: (c :: m) ++ "$"%char :: b |}.
Proof.
  intros Q. unfold matchAt.
  replace (pattern (RE "\$([^$]+)\$" "g"))
    with (Seq (Chr "$") (Seq (Group 1 (Repeat (Class true [CChar "$"]) 1 None true))
                             (Chr "$")))
    by (vm_compute; reflexivity).
  change (RegExp.fl (RE "\$([^$]+)\$" "g")) with plainFlags.
  cbn [run]. unfold step at 1. cbn [after before caps]. 
  change (Ascii.eqb (canon plainFlags "$") (canon plainFlags "$")) with true.
  cbv iota.
  match goal with |- context [repeatMatcher ?mm ?gs true ?k ?fuel 1 None ?st] =>
    assert (G : repeatMatcher mm gs true k fuel 1 None st
                = Some {| before := "$"%char :: rev (c :: m) ++ "$"%char :: pre;
                          after := b;
                          caps := [(1, c :: m)] |})
  end.
  { apply (@greedy_class (inClass plainFlags true [CChar "$"]) _ ("$"%char :: b)).
    - reflexivity.
    - rewrite (@forallb_same _ (fun x => negb (oneOf "$" x))); [exact Q|].
      intros x. unfold inClass, oneOf. simpl. unfold canon. simpl.
      rewrite !orb_false_r, Ascii.eqb_sym. reflexivity.
    - simpl. lia.
    - rewrite length_app. simpl. lia.
    - unfold step. cbn [after before caps setCap].
      change (Ascii.eqb (canon plainFlags "$") (canon plainFlags "$")) with true.
      cbv iota. do 4 f_equal. apply consumed_extends. split; reflexivity. }
  rewrite G. f_equal. f_equal.
  apply consumed_extends. split; cbn [before after].
  - change ("$"%char :: (c :: m) ++ ["$"%char]) with (("$"%char :: c :: m) ++ ["$"%char]).
    rewrite rev_app_distr. simpl. rewrite <- !app_assoc. reflexivity.
  - simpl. rewrite <- app_assoc. reflexivity.
Qed.

Lemma matchAll_skip re : forall x pre suf,
  matchAll_aux re pre (x ++ suf) (length x) = matchAll_aux re (rev x ++ pre) suf 0.
Proof.
  induction x as [|c x IH]; intros pre suf; [reflexivity|].
  simpl. rewrite IH, <- app_assoc. reflexivity.
Qed.

Lemma matchAll_math c m b : quiet (oneOf "$") (c :: m) = true ->
  quiet (oneOf "$") b = true ->
  forall a pre, quiet (oneOf "$") a = true ->
    matchAll_aux (RE "\$([^$]+)\$" "g") pre (a ++ "$"%char :: (c :: m) ++ "$"%char :: b) 0
    = [{| index := length (rev a ++ pre);
          matched := "$"%char :: (c :: m) ++ ["$"%char];
          groups := [Some (c :: m)];
          input := rev (rev a ++ pre) ++ "$"%char :: (c :: m) ++ "$"%char :: b |}].
Proof.
  intros Qm Qb. induction a as [|x a IH]; intros pre Qa.
  - change ([] ++ "$"%char :: (c :: m) ++ "$"%char :: b)
      with ("$"%char :: (c :: m) ++ "$"%char :: b).
    cbn [rev matchAll_aux]. rewrite (@matchAt_math pre c m b Qm).
    cbn [matched length Nat.pred]. f_equal.
    change ((c :: m) ++ "$"%char :: b) with ((c :: m) ++ ["$"%char] ++ b).
    rewrite app_assoc, matchAll_skip.
    apply (@matchAll_nowhere (fun s => quiet (oneOf "$") s = true)
             (@quiet_tail (oneOf "$"))); [|exact Qb].
    intros pre' suf. apply matchAt_quiet. vm_compute; reflexivity.
  - simpl in Qa. apply andb_prop in Qa. destruct Qa as [Qx Qa].
    change ((x :: a) ++ "$"%char :: (c :: m) ++ "$"%char :: b)
      with (x :: a ++ "$"%char :: (c :: m) ++ "$"%char :: b).
    cbn [matchAll_aux].
    assert (N : matchAt (RE "\$([^$]+)\$" "g") pre
                  (x :: a ++ "$"%char :: (c :: m) ++ "$"%char :: b) = None).
    { unfold matchAt.
      replace (pattern (RE "\$([^$]+)\$" "g"))
        with (Seq (Chr "$") (Seq (Group 1 (Repeat (Class true [CChar "$"]) 1 None true))
                                 (Chr "$")))
        by (vm_compute; reflexivity).
      change (RegExp.fl (RE "\$([^$]+)\$" "g")) with plainFlags.
      cbn [run]. unfold step at 1. cbn [after].
      replace (Ascii.eqb (canon plainFlags x) (canon plainFlags "$")) with false;
        [reflexivity|].
      apply negb_true_iff in Qx. unfold oneOf in Qx. simpl in Qx.
      rewrite orb_false_r in Qx. symmetry. exact Qx. }
    rewrite N, (IH (x :: pre) Qa). cbn [rev]. rewrite <- !app_assoc. reflexivity.
Qed.

Lemma splice_one (a x b r : jsstring) m :
  index m = length a -> matched m = x ->
  splice (a ++ x ++ b) 0 [(m, r)] = a ++ r ++ b.
Proof.
  intros I M. cbn [splice skipn]. rewrite I, M, Nat.sub_0_r.
  rewrite firstn_app, firstn_all, Nat.sub_diag, firstn_O, app_nil_r.
  rewrite <- length_app, (app_assoc a x b), skipn_length_app. reflexivity.
Qed.

Lemma protect_math a c m b :
  quiet (oneOf "\$%_") a = true -> quiet (oneOf "$") (c :: m) = true ->
  quiet (oneOf "\$%_") b = true ->
  protect (a ++ "$"%char :: (c :: m) ++ "$"%char :: b)
  = ({| counter := 1;
        mathBlocks := [(0, "$"%char :: (c :: m) ++ ["$"%char])];
        verbatimBlocks := [] |},
     {| commentCounter := 0; commentLines := [] |},
     a ++ mathPlaceholder 0 ++ b).
Proof.
  intros Qa Qm Qb. unfold protect.
  assert (Q1 : forall s, quiet (oneOf "\$%_") s = true -> quiet (oneOf "$") s = true).
  { intros s. unfold quiet. induction s as [|x s IH]; [reflexivity|]. simpl.
    intros H. apply andb_prop in H. destruct H as [Hx H]. rewrite (IH H), andb_true_r.
    apply negb_true_iff. apply negb_true_iff in Hx.
    destruct (oneOf "$" x) eqn:O; [|reflexivity].
    apply oneOf_in in O. assert (I : In x (str "\$%_")) by (simpl in O |- *; tauto).
    apply oneOf_in in I. congruence. }
  assert (P1 : replaceWith (RE "\$([^$]+)\$" "g") stashMath
                 {| counter := 0; mathBlocks := []; verbatimBlocks := [] |}
                 (a ++ "$"%char :: (c :: m) ++ "$"%char :: b)
               = ({| counter := 1;
                     mathBlocks := [(0, "$"%char :: (c :: m) ++ ["$"%char])];
                     verbatimBlocks := [] |}, a ++ mathPlaceholder 0 ++ b)).
  { unfold replaceWith, matchesOf, matchAll.
    change (global (RE "\$([^$]+)\$" "g")) with true. cbv iota.
    rewrite (@matchAll_math c m b Qm (Q1 _ Qb) a [] (Q1 _ Qa)).
    cbn [callEach stashMath counter mathBlocks verbatimBlocks matched]. f_equal.
    change ("$"%char :: (c :: m) ++ "$"%char :: b)
      with (("$"%char :: c :: m) ++ ["$"%char] ++ b).
    rewrite (app_assoc ("$"%char :: c :: m)).
    apply splice_one; [cbn [index]; rewrite app_nil_r, length_rev; reflexivity
                      |reflexivity]. }
  rewrite P1.
  assert (Q : quiet (oneOf "\$%_") (a ++ mathPlaceholder 0 ++ b) = true).
  { rewrite !quiet_app, Qa, Qb. reflexivity. }
  rewrite !(@replaceWith_quiet blocks (oneOf "\$%_") _ _ _ (a ++ mathPlaceholder 0 ++ b))
    by side Q.
  rewrite !(@replaceWith_quiet comments (oneOf "\$%_") _ _ _ (a ++ mathPlaceholder 0 ++ b))
    by side Q.
  reflexivity.
Qed.

(** The placeholder is found where it was put. *)
Lemma escapeChar_head c :
  exists t, escapeChar c = c :: t \/ (escapeChar c = BSL :: t /\ c <> "M"%char).
Proof.
  unfold escapeChar, isc.
  destruct (Ascii.eqb_spec c "&") as [->|]; [eexists; right; split; [reflexivity|discriminate]|].
  destruct (Ascii.eqb_spec c "#") as [->|]; [eexists; right; split; [reflexivity|discriminate]|].
  destruct (Ascii.eqb_spec c "^") as [->|]; [eexists; right; split; [reflexivity|discriminate]|].
  eexists; left; reflexivity.
Qed.

Lemma startsWith_escaped rest : forall p,
  (forall d, In d p -> escapeChar d = [d] /\ d <> BSL /\ d <> "M"%char) ->
  forall x, startsWith p x = false ->
    startsWith p (flat_map escapeChar x ++ str "MATHBLOCK0" ++ rest) = false.
Proof.
  induction p as [|d p IH]; intros P x H; [discriminate|].
  destruct (P d (or_introl eq_refl)) as (Pe & Pb & Pm).
  destruct x as [|c x].
  - simpl. destruct (Ascii.eqb_spec d "M"); [contradiction|reflexivity].
  - simpl in H. destruct (Ascii.eqb_spec d c) as [<-|N].
    + cbn [flat_map]. rewrite Pe. simpl. rewrite Ascii.eqb_refl. simpl.
      apply IH; [|exact H]. intros e I. apply P. right. exact I.
    + cbn [flat_map]. destruct (escapeChar_head c) as (t & [E|[E _]]); rewrite E; simpl.
      * destruct (Ascii.eqb_spec d c); [contradiction|reflexivity].
      * destruct (Ascii.eqb_spec d BSL); [contradiction|reflexivity].
Qed.

Lemma indexOf_placeholder rest : forall a,
  includes a (mathPlaceholder 0) = false ->
  indexOf (mathPlaceholder 0) (flat_map escapeChar a ++ mathPlaceholder 0 ++ rest)
  = Some (length (flat_map escapeChar a)).
Proof.
  change (mathPlaceholder 0) with (str "MATHBLOCK0").
  induction a as [|c a IH]; intros H; [reflexivity|].
  unfold includes in H. cbn [indexOf] in H.
  destruct (startsWith (str "MATHBLOCK0") (c :: a)) eqn:S0; [discriminate|].
  assert (Ha : includes a (str "MATHBLOCK0") = false).
  { unfold includes. destruct (indexOf (str "MATHBLOCK0") a); [discriminate|reflexivity]. }
  specialize (IH Ha). cbn [flat_map]. rewrite length_app, <- app_assoc.
  set (T := flat_map escapeChar a ++ str "MATHBLOCK0" ++ rest) in *.
  assert (F : forall x U, x <> "M"%char ->
            indexOf (str "MATHBLOCK0") (x :: U) = option_map S (indexOf (str "MATHBLOCK0") U)).
  { intros x U N. cbn [indexOf]. simpl startsWith.
    destruct (Ascii.eqb_spec "M" x); [congruence|reflexivity]. }
  destruct (Ascii.eqb_spec c "M") as [->|N].
  - change (escapeChar "M") with ["M"%char]. cbn [app indexOf].
    replace (startsWith (str "MATHBLOCK0") ("M"%char :: T)) with false.
    + rewrite IH. reflexivity.
    + symmetry. simpl. simpl in S0. subst T.
      apply (@startsWith_escaped rest (str "ATHBLOCK0")); [|exact S0].
      intros d I. simpl in I.
      repeat (destruct I as [<-|I]; [repeat split; discriminate|]). destruct I.
  - destruct (Ascii.eqb_spec c "&") as [->|N1].
    { change (escapeChar "&") with [BSL; "&"%char].
      cbn [app length]. rewrite !F by discriminate. rewrite IH. reflexivity. }
    destruct (Ascii.eqb_spec c "#") as [->|N2].
    { change (escapeChar "#") with [BSL; "#"%char].
      cbn [app length]. rewrite !F by discriminate. rewrite IH. reflexivity. }
    destruct (Ascii.eqb_spec c "^") as [->|N3].
    { change (escapeChar "^") with [BSL; "^"%char; "{"%char; "}"%char].
      cbn [app length]. rewrite !F by discriminate. rewrite IH. reflexivity. }
    assert (E : escapeChar c = [c]).
    { unfold escapeChar, isc.
      destruct (Ascii.eqb_spec c "&"); [contradiction|].
      destruct (Ascii.eqb_spec c "#"); [contradiction|].
      destruct (Ascii.eqb_spec c "^"); [contradiction|]. reflexivity. }
    rewrite E. cbn [app length]. rewrite (F c T N), IH. reflexivity.
Qed.

(** A formula written back as a replacement string comes out as it is. *)
Lemma getSubstitution_plain mm : forall x, quiet (oneOf "$") x = true ->
  getSubstitution mm (x ++ ["$"%char]) = x ++ ["$"%char].
Proof.
  induction x as [|c x IH]; intros Q; [reflexivity|].
  simpl in Q. apply andb_prop in Q. destruct Q as [Qc Q].
  cbn [app getSubstitution]. unfold isc.
  unfold oneOf in Qc. simpl in Qc. rewrite orb_false_r in Qc. rewrite Qc.
  rewrite (IH Q). reflexivity.
Qed.

Lemma no_group n : (1 <=? n) && (n <=? 0) = false.
Proof. destruct n; reflexivity. Qed.

Lemma getSubstitution_dollar mm d rest :
  groups mm = [] -> oneOf "$&`'" d = false ->
  getSubstitution mm ("$"%char :: d :: rest) = "$"%char :: getSubstitution mm (d :: rest).
Proof.
  intros G O. remember (d :: rest) as rest0 eqn:E.
  cbn [getSubstitution]. change (negb (isc "$" "$")) with false. cbv iota.
  rewrite E at 1. cbv beta iota zeta.
  unfold oneOf in O. simpl in O. rewrite orb_false_r in O.
  apply orb_false_iff in O. destruct O as [O0 O].
  apply orb_false_iff in O. destruct O as [O1 O].
  apply orb_false_iff in O. destruct O as [O2 O3].
  unfold isc. rewrite O0, O1, O2, O3, G. cbn [length].
  destruct (isDigit d); [|reflexivity].
  destruct rest as [|e rest2]; rewrite ?no_group; [reflexivity|].
  rewrite <- andb_assoc, no_group, andb_false_r. reflexivity.
Qed.

Lemma getSubstitution_math mm c m :
  groups mm = [] -> quiet (oneOf "$") (c :: m) = true -> oneOf "&`'" c = false ->
  getSubstitution mm ("$"%char :: (c :: m) ++ ["$"%char])
  = "$"%char :: (c :: m) ++ ["$"%char].
Proof.
  intros G Q O.
  change ("$"%char :: (c :: m) ++ ["$"%char]) with ("$"%char :: c :: m ++ ["$"%char]).
  rewrite getSubstitution_dollar; [|exact G|].
  - f_equal. apply (@getSubstitution_plain mm (c :: m) Q).
  - simpl in Q. apply andb_prop in Q. destruct Q as [Qc _].
    apply negb_true_iff in Qc. unfold oneOf in *. simpl in *.
    rewrite orb_false_r in Qc. rewrite Qc. exact O.
Qed.

Lemma replaceStr_math a c m b :
  includes a (mathPlaceholder 0) = false ->
  quiet (oneOf "$") (c :: m) = true -> oneOf "&`'" c = false ->
  replaceStr (mathPlaceholder 0) ("$"%char :: (c :: m) ++ ["$"%char])
             (flat_map escapeChar a ++ mathPlaceholder 0 ++ flat_map escapeChar b)
  = flat_map escapeChar a ++ "$"%char :: (c :: m) ++ "$"%char :: flat_map escapeChar b.
Proof.
  intros I Q O. unfold replaceStr. rewrite (indexOf_placeholder _ a I).
  rewrite getSubstitution_math by (try exact Q; try exact O; reflexivity).
  rewrite firstn_app, firstn_all, Nat.sub_diag, firstn_O, app_nil_r.
  rewrite <- length_app, (app_assoc (flat_map escapeChar a) (mathPlaceholder 0)).
  rewrite skipn_length_app.
  f_equal. cbn [app]. f_equal. f_equal. rewrite <- app_assoc. reflexivity.
Qed.

(** A pattern that starts with a literal matches nowhere in text that does
    not hold the literal. *)
Lemma startsWith_shorter : forall l l' s,
  startsWith l l' = true -> startsWith l' s = true -> startsWith l s = true.
Proof.
  induction l as [|x l IH]; intros l' s A B; [reflexivity|].
  destruct l' as [|y l']; [discriminate|]. destruct s as [|z s]; [discriminate|].
  simpl in *. apply andb_prop in A. destruct A as [A1 A2].
  apply andb_prop in B. destruct B as [B1 B2].
  apply Ascii.eqb_eq in A1. subst y. rewrite B1. exact (IH _ _ A2 B2).
Qed.

Lemma matchAt_free lit re pre suf :
  ignoreCase (RegExp.fl re) = false ->
  startsWith lit (prefixLit (pattern re)) = true ->
  includes suf lit = false -> matchAt re pre suf = None.
Proof.
  intros I P F. destruct (matchAt re pre suf) as [m|] eqn:A; [exfalso|reflexivity].
  apply matchAt_lang in A. destruct A as (rest & E & L & _).
  apply (@prefixLit_lang _ I) in L.
  apply (@startsWith_longer _ _ rest) in L. rewrite <- E in L.
  pose proof (startsWith_shorter _ _ _ P L) as W.
  unfold includes in F. destruct suf; cbn [indexOf] in F; rewrite W in F; discriminate.
Qed.

Lemma replace_free lit re rep s :
  ignoreCase (RegExp.fl re) = false ->
  startsWith lit (prefixLit (pattern re)) = true ->
  includes s lit = false -> replace re rep s = s.
Proof.
  intros I P F.
  apply (@replace_nowhere (fun s => includes s lit = false)); [| |exact F].
  - intros c t H. apply (includes_tail _ _ _ H).
  - intros pre suf. apply matchAt_free; assumption.
Qed.

(** A replacement by the matched text changes nothing. *)
Lemma stream_same re f :
  (forall pre suf m, matchAt re pre suf = Some m -> f m = matched m) ->
  forall suf pre skip, skip <= length suf -> stream re f pre suf skip = skipn skip suf.
Proof.
  intros Same. induction suf as [|c suf IH]; intros pre skip L.
  - simpl in L. assert (skip = 0) by lia. subst skip. cbn [stream skipn].
    destruct (matchAt re pre []) as [m|] eqn:A; [|reflexivity].
    rewrite (Same _ _ _ A), app_nil_r.
    destruct (matchAt_shape _ _ _ A) as (_ & _ & (rest & E) & _).
    destruct (matched m); [reflexivity|discriminate].
  - destruct skip as [|k]; cbn [stream skipn].
    + destruct (matchAt re pre (c :: suf)) as [m|] eqn:A.
      * rewrite (Same _ _ _ A).
        destruct (matchAt_shape _ _ _ A) as (_ & _ & (rest & E) & _).
        destruct (matched m) as [|x xs].
        -- cbn [length Nat.eqb Nat.pred app]. rewrite IH by lia. reflexivity.
        -- cbn [length Nat.eqb Nat.pred app]. cbn [app] in E. inversion E; subst.
           rewrite IH by (rewrite length_app; lia).
           rewrite skipn_length_app. reflexivity.
      * rewrite IH by lia. reflexivity.
    + apply IH. simpl in L. lia.
Qed.

Lemma double_backslash s : replace (RE "\\\\" "g") (str "\\") s = s.
Proof.
  rewrite replace_stream by reflexivity.
  rewrite stream_same; [reflexivity| |lia].
  intros pre suf m A. apply matchAt_lang in A. destruct A as (rest & _ & L & _).
  simpl in L. destruct L as (x1 & x2 & E & (d1 & -> & E1) & (d2 & -> & E2)).
  rewrite E. apply Ascii.eqb_eq in E1, E2. unfold canon in E1, E2. simpl in E1, E2.
  subst. reflexivity.
Qed.

Lemma indexOf_cons p c s :
  indexOf p (c :: s)
  = if startsWith p (c :: s) then Some 0 else option_map S (indexOf p s).
Proof. reflexivity. Qed.

(** Where a command name can stand in a formula between plain text. *)
Lemma startsWith_cut d : forall lit, existsb (Ascii.eqb d) lit = false ->
  forall s t, startsWith lit s = false -> startsWith lit (s ++ d :: t) = false.
Proof.
  induction lit as [|l lit IH]; intros N s t H; [discriminate|].
  simpl in N. apply orb_false_iff in N. destruct N as [N1 N2].
  destruct s as [|y s]; simpl.
  - rewrite Ascii.eqb_sym, N1. reflexivity.
  - simpl in H. destruct (Ascii.eqb l y); [|reflexivity]. apply IH; assumption.
Qed.

Lemma includes_cut lit d t : existsb (Ascii.eqb d) lit = false ->
  includes (d :: t) lit = false ->
  forall s, includes s lit = false -> includes (s ++ d :: t) lit = false.
Proof.
  intros N T. induction s as [|y s IH]; intros H; [exact T|].
  apply includes_tail in H. destruct H as [W H]. specialize (IH H).
  unfold includes in *. cbn [app indexOf].
  change (y :: s ++ d :: t) with ((y :: s) ++ d :: t).
  rewrite (@startsWith_cut d lit N (y :: s) t W).
  destruct (indexOf lit (s ++ d :: t)); [discriminate|reflexivity].
Qed.

Lemma includes_plain lit x :
  includes x (BSL :: lit) = false ->
  forall a, quiet (oneOf "\$%_") a = true -> includes (a ++ x) (BSL :: lit) = false.
Proof.
  intros X. induction a as [|c a IH]; intros Q; [exact X|].
  simpl in Q. apply andb_prop in Q. destruct Q as [Qc Q]. specialize (IH Q).
  unfold includes in *. cbn [app indexOf]. simpl startsWith.
  destruct (Ascii.eqb_spec BSL c) as [<-|]; [discriminate|]. simpl.
  destruct (indexOf (BSL :: lit) (a ++ x)); [discriminate|reflexivity].
Qed.

Lemma includes_escaped l lit x : oneOf "&#^" l = false ->
  includes x (BSL :: l :: lit) = false ->
  forall a, quiet (oneOf "\$%_") a = true ->
    includes (flat_map escapeChar a ++ x) (BSL :: l :: lit) = false.
Proof.
  intros O X. induction a as [|c a IH]; intros Q; [exact X|].
  simpl in Q. apply andb_prop in Q. destruct Q as [Qc Q]. specialize (IH Q).
  cbn [flat_map]. rewrite <- app_assoc.
  set (T := flat_map escapeChar a ++ x) in *.
  assert (F : forall y U, y <> BSL -> includes U (BSL :: l :: lit) = false ->
                includes (y :: U) (BSL :: l :: lit) = false).
  { intros y U N H. unfold includes in *. cbn [indexOf]. simpl startsWith.
    destruct (Ascii.eqb_spec BSL y); [congruence|]. simpl.
    destruct (indexOf (BSL :: l :: lit) U); [discriminate|reflexivity]. }
  assert (G : forall y U, oneOf "&#^" y = true -> includes U (BSL :: l :: lit) = false ->
                includes (BSL :: y :: U) (BSL :: l :: lit) = false).
  { intros y U N H. apply (F y) in H; [|intros ->; discriminate].
    unfold includes in *.
    destruct (indexOf (BSL :: l :: lit) (y :: U)) eqn:I; [discriminate|].
    rewrite indexOf_cons, I. simpl startsWith.
    destruct (Ascii.eqb_spec l y) as [->|]; [congruence|]. reflexivity. }
  destruct (Ascii.eqb_spec c "&") as [->|N1].
  { change (escapeChar "&") with [BSL; "&"%char]. apply G; [reflexivity|exact IH]. }
  destruct (Ascii.eqb_spec c "#") as [->|N2].
  { change (escapeChar "#") with [BSL; "#"%char]. apply G; [reflexivity|exact IH]. }
  destruct (Ascii.eqb_spec c "^") as [->|N3].
  { change (escapeChar "^") with [BSL; "^"%char; "{"%char; "}"%char].
    apply G; [reflexivity|]. apply F; [discriminate|]. apply F; [discriminate|exact IH]. }
  assert (E : escapeChar c = [c]).
  { unfold escapeChar, isc.
    destruct (Ascii.eqb_spec c "&"); [contradiction|].
    destruct (Ascii.eqb_spec c "#"); [contradiction|].
    destruct (Ascii.eqb_spec c "^"); [contradiction|]. reflexivity. }
  rewrite E. apply F; [|exact IH]. intros ->. discriminate.
Qed.

Lemma includes_formula lit c m t :
  existsb (Ascii.eqb "$") (BSL :: lit) = false ->
  includes (c :: m) (BSL :: lit) = false -> includes t (BSL :: lit) = false ->
  includes ("$"%char :: (c :: m) ++ "$"%char :: t) (BSL :: lit) = false.
Proof.
  intros N M T.
  assert (D : forall U, includes U (BSL :: lit) = false ->
                includes ("$"%char :: U) (BSL :: lit) = false).
  { intros U H. unfold includes in *. rewrite indexOf_cons.
    destruct (indexOf (BSL :: lit) U); [discriminate|]. reflexivity. }
  apply D, includes_cut; [exact N|apply D, T|exact M].
Qed.

Lemma sanitized_math a c m b :
  quiet (oneOf "\$%_") a = true -> quiet (oneOf "\$%_") b = true ->
  includes a (mathPlaceholder 0) = false ->
  quiet (oneOf "$") (c :: m) = true -> oneOf "&`'" c = false ->
  existsb (includes (c :: m))
          [str "\begin{enumerate}["; str "\textbf"; str "\textit"] = false ->
  sanitized (a ++ "$"%char :: (c :: m) ++ "$"%char :: b)
  = flat_map escapeChar a ++ "$"%char :: (c :: m) ++ "$"%char :: flat_map escapeChar b.
Proof.
  intros Qa Qb I Qm O C.
  cbn [existsb] in C. apply orb_false_iff in C. destruct C as [C1 C].
  apply orb_false_iff in C. destruct C as [C2 C]. rewrite orb_false_r in C.
  unfold sanitized.
  set (s0 := a ++ "$"%char :: (c :: m) ++ "$"%char :: b).
  assert (I0 : includes s0 (str "\begin{enumerate}[") = false).
  { apply includes_plain; [|exact Qa].
    apply includes_formula; [reflexivity|exact C1|].
    rewrite <- (app_nil_r b). apply includes_plain; [reflexivity|exact Qb]. }
  assert (F : fixEnumerate s0 = s0).
  { unfold fixEnumerate.
    rewrite !(@replace_free (str "\begin{enumerate}[") _ _ s0) by literal I0.
    reflexivity. }
  rewrite F. unfold s0. rewrite (@protect_math a c m b Qa Qm Qb).
  set (t := a ++ mathPlaceholder 0 ++ b).
  assert (Q : quiet (oneOf "\$%_") t = true).
  { unfold t. rewrite !quiet_app, Qa, Qb. reflexivity. }
  rewrite escapeSpecials_passes. fold (passes None t).
  rewrite passes_escapeEach, (@escapeEach_plain t None eq_refl Q).
  destruct (escaped_text t Q) as [A B].
  assert (K : collapseBlanks (flat_map escapeChar t) = flat_map escapeChar t).
  { unfold collapseBlanks.
    rewrite !(@replaceWith_quiet unit (oneOf "_$%") _ _ _ (flat_map escapeChar t))
      by side A.
    reflexivity. }
  rewrite K. clear K A B. unfold t. rewrite !flat_map_app.
  change (flat_map escapeChar (mathPlaceholder 0)) with (mathPlaceholder 0).
  cbn [counter commentCounter restoreBlocks restoreComments mathBlocks verbatimBlocks
       aget Nat.eqb truthy].
  change (truthy (Some ("$"%char :: (c :: m) ++ ["$"%char])))
    with (Some ("$"%char :: (c :: m) ++ ["$"%char])).
  cbv iota. rewrite (@replaceStr_math a c m b I Qm O).
  set (r := flat_map escapeChar a ++ "$"%char :: (c :: m) ++ "$"%char :: flat_map escapeChar b).
  assert (T : forall lit, includes (c :: m) (BSL :: "t"%char :: lit) = false ->
                existsb (Ascii.eqb "$") (BSL :: "t"%char :: lit) = false ->
                includes r (BSL :: "t"%char :: lit) = false).
  { intros lit M N. apply includes_escaped; [reflexivity| |exact Qa].
    apply includes_formula; [exact N|exact M|].
    rewrite <- (app_nil_r (flat_map escapeChar b)).
    apply includes_escaped; [reflexivity|reflexivity|exact Qb]. }
  unfold tidy. rewrite double_backslash.
  rewrite (@replace_free (str "\textbf") _ _ r) by literal (T _ C2 eq_refl).
  rewrite (@replace_free (str "\textit") _ _ r) by literal (T _ C eq_refl).
  reflexivity.
Qed.

End MathSpan.

(** *** Spans whose text is read as a replacement pattern. *)

Section Doubling.

Lemma startsWith_no_room p : forall a t,
  startsWith p a = false -> length p <= length a -> startsWith p (a ++ t) = false.
Proof.
  induction p as [|x p IH]; intros a t H L; [discriminate|].
  destruct a as [|y a]; [simpl in L; lia|]. simpl in *.
  destruct (Ascii.eqb x y); [|reflexivity]. apply IH; [exact H|lia].
Qed.

(** An occurrence found in [a] is the first one of [a ++ t] too. *)
Lemma indexOf_app_found p t : forall a j,
  indexOf p a = Some j -> j + length p <= length a -> indexOf p (a ++ t) = Some j.
Proof.
  induction a as [|c a IH]; intros j H L.
  - cbn [indexOf] in H. destruct (startsWith p []) eqn:S0; [|discriminate].
    inversion H; subst. destruct p; [|discriminate].
    destruct t; reflexivity.
  - rewrite indexOf_cons in H.
    change ((c :: a) ++ t) with (c :: (a ++ t)). rewrite indexOf_cons.
    change (c :: (a ++ t)) with ((c :: a) ++ t).
    destruct (startsWith p (c :: a)) eqn:S0.
    + inversion H; subst.
      rewrite (@startsWith_longer p (c :: a) t S0). reflexivity.
    + rewrite (@startsWith_no_room p (c :: a) t S0) by lia.
      destruct (indexOf p a) as [j'|] eqn:I; [|discriminate].
      inversion H; subst. rewrite (IH j' eq_refl); [reflexivity|simpl in L; lia].
Qed.

Lemma placeholders_next n :
  placeholders (S n) = placeholders n ++ mathPlaceholder n.
Proof.
  unfold placeholders. rewrite seq_S, map_app, concat_app. cbn [map concat Nat.add].
  rewrite app_nil_r. reflexivity.
Qed.

(** Restoring the span [$'$]: the replacement string holds the pattern
    for the text after the match. *)
Lemma replaceStr_quote i t :
  indexOf (mathPlaceholder i) (placeholders (S i)) = Some (length (placeholders i)) ->
  replaceStr (mathPlaceholder i) (str "$'$") (placeholders (S i) ++ t)
  = placeholders i ++ doubled t.
Proof.
  intros I. unfold replaceStr.
  rewrite (@indexOf_app_found _ t _ _ I)
    by (rewrite placeholders_next, length_app; lia).
  match goal with |- context [getSubstitution ?M (str "$'$")] =>
    change (getSubstitution M (str "$'$"))
      with (skipn (index M + length (matched M)) (input M) ++ ["$"%char])
  end.
  cbn [index matched input]. rewrite placeholders_next, <- !app_assoc.
  rewrite firstn_app, firstn_all, Nat.sub_diag, firstn_O, app_nil_r.
  rewrite <- length_app, (app_assoc (placeholders i) (mathPlaceholder i)).
  rewrite !skipn_length_app. reflexivity.
Qed.

Lemma restore_doubling b : forall n,
  (forall i, i < n -> aget i (mathBlocks b) = Some (str "$'$")) ->
  (forall i, i < n -> aget i (verbatimBlocks b) = None) ->
  (forall i, i < n ->
     indexOf (mathPlaceholder i) (placeholders (S i)) = Some (length (placeholders i))) ->
  forall t, restoreBlocks b n (placeholders n ++ t) = Nat.iter n doubled t.
Proof.
  induction n as [|n IH]; intros M V I t; [reflexivity|].
  cbn [restoreBlocks]. rewrite (M n), (V n) by lia.
  change (truthy (Some (str "$'$"))) with (Some (str "$'$")).
  change (truthy None) with (@None jsstring). cbv iota.
  rewrite (@replaceStr_quote n t) by (apply I; lia).
  rewrite IH by (intros; auto with arith).
  rewrite <- Nat.iter_succ_r. reflexivity.
Qed.

Lemma below n (P : nat -> bool) :
  forallb P (seq 0 n) = true -> forall i, i < n -> P i = true.
Proof.
  intros H i L. rewrite forallb_forall in H. apply H, in_seq. lia.
Qed.

Lemma doubled_length n : forall t,
  Z.of_nat (length (Nat.iter n doubled t)) = (2 ^ Z.of_nat n * (Z.of_nat (length t) + 1) - 1)%Z.
Proof.
  induction n as [|n IH]; intros t.
  - change (Nat.iter 0 doubled t) with t. change (2 ^ Z.of_nat 0)%Z with 1%Z. lia.
  - change (Nat.iter (S n) doubled t) with (doubled (Nat.iter n doubled t)).
    unfold doubled at 1. rewrite length_app. cbn [length].
    rewrite Nat2Z.inj_add, Nat2Z.inj_succ, IH, Nat2Z.inj_succ, Z.pow_succ_r by lia.
    lia.
Qed.

Lemma doubled_quiet p : p "$"%char = false ->
  forall n t, quiet p t = true -> quiet p (Nat.iter n doubled t) = true.
Proof.
  intros D. induction n as [|n IH]; intros t Q; [exact Q|].
  change (Nat.iter (S n) doubled t) with (doubled (Nat.iter n doubled t)).
  unfold doubled at 1. rewrite quiet_app.
  change (quiet p ("$"%char :: Nat.iter n doubled t))
    with (negb (p "$"%char) && quiet p (Nat.iter n doubled t)).
  rewrite (IH t Q), D. reflexivity.
Qed.

(** The text the sanitizer builds for [dollarQuotes n], once the steps
    before the restoring loop are evaluated. *)
Lemma sanitized_dollarQuotes n :
  fixEnumerate (dollarQuotes n) = dollarQuotes n ->
  protect (dollarQuotes n)
  = ({| counter := n;
        mathBlocks := rev (map (fun i => (i, str "$'$")) (seq 0 n));
        verbatimBlocks := [] |},
     {| commentCounter := 0; commentLines := [] |},
     placeholders n ++ str "x") ->
  escapeSpecials (placeholders n ++ str "x") = placeholders n ++ str "x" ->
  collapseBlanks (placeholders n ++ str "x") = placeholders n ++ str "x" ->
  forallb (fun i =>
             match aget i (rev (map (fun i => (i, str "$'$")) (seq 0 n))) with
             | Some v => eqs v (str "$'$")
             | None => false
             end) (seq 0 n) = true ->
  forallb (fun i =>
             match indexOf (mathPlaceholder i) (placeholders (S i)) with
             | Some j => j =? length (placeholders i)
             | None => false
             end) (seq 0 n) = true ->
  sanitized (dollarQuotes n) = Nat.iter n doubled (str "x").
Proof.
  intros F P E K M I. unfold sanitized. rewrite F, P, E, K.
  cbn [counter commentCounter restoreComments].
  rewrite restore_doubling.
  - assert (Q : quiet (Ascii.eqb BSL) (Nat.iter n doubled (str "x")) = true)
      by (apply doubled_quiet; reflexivity).
    generalize dependent (Nat.iter n doubled (str "x")). intros T Q.
    unfold tidy. rewrite !(@replace_quiet (Ascii.eqb BSL) _ _ T) by side Q.
    reflexivity.
  - intros i L. pose proof (@below _ _ M i L) as H. cbn [mathBlocks] in *.
    destruct (aget i (rev (map (fun i => (i, str "$'$")) (seq 0 n)))) as [v|];
      [|discriminate].
    apply eqs_eq in H. subst v. reflexivity.
  - intros i _. reflexivity.
  - intros i L. pose proof (@below _ _ I i L) as H. cbn beta in H.
    destruct (indexOf (mathPlaceholder i) (placeholders (S i))) as [j|]; [|discriminate].
    apply Nat.eqb_eq in H. subst j. reflexivity.
Qed.

(** The length of that text. *)
Lemma sanitized_dollarQuotes_length n :
  sanitized (dollarQuotes n) = Nat.iter n doubled (str "x") ->
  option_map (fun out => Z.of_nat (length (value out))) (sanitizeLatex (dollarQuotes n))
  = Some (2 ^ Z.of_nat (S n) - 1)%Z.
Proof.
  intros H. pose proof (sanitizeLatex_value (dollarQuotes n)) as V.
  destruct (sanitizeLatex (dollarQuotes n)) as [out|]; [|discriminate].
  cbn [option_map] in *. inversion V as [E]. rewrite E, H, doubled_length.
  change (Z.of_nat (length (str "x"))) with 1%Z.
  rewrite Nat2Z.inj_succ, Z.pow_succ_r by lia. f_equal. lia.
Qed.

End Doubling.

(** *** Every reserved character escaped. *)

Section EveryOccurrence.

Local Arguments blankAhead : simpl never.




















End EveryOccurrence.

(** *** Fragments without the commands of the rules. *)

Section CommandFree.










End CommandFree.

(** *** The sanitizer where strings are bounded. *)

Section BoundedStrings.

Variable maxLength : Z.

Let fits (s : jsstring) : Prop := (Z.of_nat (length s) <= maxLength)%Z.

Lemma built_some s r : built maxLength s = Some r -> r = s /\ fits s.
Proof.
  unfold built. destruct (Z.leb_spec (Z.of_nat (length s)) maxLength) as [L|L];
    [|discriminate].
  intros H. injection H as <-. split; [reflexivity|exact L].
Qed.

Lemma calls_none l : fold_left (andThen maxLength) l None = None.
Proof. induction l as [|call l IH]; [reflexivity|exact IH]. Qed.

(** A run of calls that ends has made each of them, and its result
    fits. *)
Lemma calls_some : forall l s r,
  calls maxLength l s = Some r ->
  r = fold_left (fun s call => call s) l s /\ (fits s -> fits r).
Proof.
  unfold calls. induction l as [|call l IH]; intros s r H; cbn [fold_left] in *.
  - inversion H. split; [reflexivity|auto].
  - cbn [andThen] in H. destruct (built maxLength (call s)) as [s1|] eqn:B.
    + apply built_some in B. destruct B as [-> F].
      destruct (IH _ _ H) as [E G]. split; [exact E|]. intros _. exact (G F).
    + rewrite calls_none in H. discriminate.
Qed.

Lemma calls_fits call l s r :
  calls maxLength (call :: l) s = Some r -> fits r.
Proof.
  unfold calls. cbn [fold_left andThen]. intros H.
  destruct (built maxLength (call s)) as [s1|] eqn:B.
  - apply built_some in B. destruct B as [-> F]. apply (calls_some _ _ H), F.
  - rewrite calls_none in H. discriminate.
Qed.

Lemma fixEnumerateOn_some s r :
  fixEnumerateOn maxLength s = Some r -> r = fixEnumerate s.
Proof. intros H. apply calls_some in H. destruct H as [-> _]. reflexivity. Qed.

Lemma escapeSpecialsOn_some s r :
  escapeSpecialsOn maxLength s = Some r -> r = escapeSpecials s.
Proof. intros H. apply calls_some in H. destruct H as [-> _]. reflexivity. Qed.

Lemma collapseBlanksOn_some s r :
  collapseBlanksOn maxLength s = Some r -> r = collapseBlanks s.
Proof. intros H. apply calls_some in H. destruct H as [-> _]. reflexivity. Qed.

Lemma tidyOn_some s r :
  tidyOn maxLength s = Some r -> r = tidy s /\ fits r.
Proof.
  intros H. split; [|exact (calls_fits _ _ _ H)].
  apply calls_some in H. destruct H as [-> _]. reflexivity.
Qed.

Lemma protectOn_some s x : protectOn maxLength s = Some x -> protect s = x.
Proof.
  unfold protectOn, protect.
  repeat match goal with
  | |- context [built maxLength ?t] =>
      let B := fresh "B" in
      destruct (built maxLength t) eqn:B;
        [apply built_some in B; destruct B as [-> _]|discriminate]
  | |- context [replaceWith ?re ?f ?a ?t] =>
      destruct (replaceWith re f a t) as [? ?]
  end.
  intros H. inversion H. reflexivity.
Qed.

Lemma restoreBlocksOn_some b : forall n s r,
  restoreBlocksOn maxLength b n s = Some r -> r = restoreBlocks b n s.
Proof.
  induction n as [|n IH]; intros s r H; cbn [restoreBlocksOn restoreBlocks] in *.
  - inversion H. reflexivity.
  - destruct (truthy (aget n (mathBlocks b))) as [v|].
    + destruct (built maxLength (replaceStr (mathPlaceholder n) v s)) eqn:B1;
        [apply built_some in B1; destruct B1 as [-> _]|discriminate].
      destruct (truthy (aget n (verbatimBlocks b))) as [w|]; [|apply IH, H].
      destruct (built maxLength (replaceStr (verbPlaceholder n) w _)) eqn:B2;
        [apply built_some in B2; destruct B2 as [-> _]|discriminate].
      apply IH, H.
    + destruct (truthy (aget n (verbatimBlocks b))) as [w|]; [|apply IH, H].
      destruct (built maxLength (replaceStr (verbPlaceholder n) w s)) eqn:B2;
        [apply built_some in B2; destruct B2 as [-> _]|discriminate].
      apply IH, H.
Qed.

Lemma restoreCommentsOn_some c : forall n s r,
  restoreCommentsOn maxLength c n s = Some r -> r = restoreComments c n s.
Proof.
  induction n as [|n IH]; intros s r H; cbn [restoreCommentsOn restoreComments] in *.
  - inversion H. reflexivity.
  - destruct (truthy (dget (commentPlaceholder n) (commentLines c))) as [v|];
      [|apply IH, H].
    destruct (built maxLength (replaceStr (commentPlaceholder n) v s)) eqn:B;
      [apply built_some in B; destruct B as [-> _]|discriminate].
    apply IH, H.
Qed.

(** When the bounded call returns, the call of the model without a bound
    returns the same, and the text fits. *)
Lemma sanitizeLatexOn_some latex out :
  sanitizeLatexOn maxLength latex = Some out ->
  sanitizeLatex latex = Some out /\ fits (value out).
Proof.
  unfold sanitizeLatexOn, sanitizeLatex, sanitized.
  destruct (fixEnumerateOn maxLength latex) as [s1|] eqn:E1; [|discriminate].
  apply fixEnumerateOn_some in E1. subst s1.
  destruct (protectOn maxLength (fixEnumerate latex)) as [[[b c] s2]|] eqn:E2;
    [|discriminate].
  apply protectOn_some in E2. rewrite E2.
  destruct (escapeSpecialsOn maxLength s2) as [s3|] eqn:E3; [|discriminate].
  apply escapeSpecialsOn_some in E3. subst s3.
  destruct (collapseBlanksOn maxLength (escapeSpecials s2)) as [s4|] eqn:E4;
    [|discriminate].
  apply collapseBlanksOn_some in E4. subst s4.
  destruct (restoreBlocksOn maxLength b (counter b) _) as [s5|] eqn:E5; [|discriminate].
  apply restoreBlocksOn_some in E5. subst s5.
  destruct (restoreCommentsOn maxLength c (commentCounter c) _) as [s6|] eqn:E6;
    [|discriminate].
  apply restoreCommentsOn_some in E6. subst s6.
  destruct (tidyOn maxLength _) as [s7|] eqn:E7; [|discriminate].
  apply tidyOn_some in E7. destruct E7 as [-> F].
  destruct (braceWarning _) as [w|]; [|discriminate].
  intros H. inversion H. split; [reflexivity|exact F].
Qed.

(** A text that does not fit is not returned. *)
Lemma sanitizeLatexOn_none latex n :
  option_map (fun out => Z.of_nat (length (value out))) (sanitizeLatex latex) = Some n ->
  (maxLength < n)%Z -> sanitizeLatexOn maxLength latex = None.
Proof.
  intros V L. destruct (sanitizeLatexOn maxLength latex) as [out|] eqn:H; [|reflexivity].
  apply sanitizeLatexOn_some in H. destruct H as [E F]. rewrite E in V.
  cbn [option_map] in V. inversion V. unfold fits in F. lia.
Qed.

End BoundedStrings.

(* ===================================================================== *)
(** ** The sanitizer *)
(* ===================================================================== *)

(** C1.  Sanitizing twice is not sanitizing once.  On the input of two
    underscores the first pass escapes the second underscore only and
    returns an underscore followed by an escaped underscore, which neither
    blank rule of lines 78-87 matches; sanitizing that result escapes the
    first underscore too and then collapses the pair into a blank of
    0.6cm. *)
Theorem sanitize_twice_differs :
  option_map value (sanitizeLatex (str "__")) = Some (str "_\_")
  /\ option_map value (sanitizeLatex (str "_\_"))
     = Some (str "\underline{\hspace{0.6cm}}").
Proof. split; vm_compute; reflexivity. Qed.

(** C2.  A protected span that does not come back.  Math inside a comment
    line: the math is stashed first, the comment (now holding the
    placeholder) second, and the math is restored before the comment is, so
    the placeholder stays in the output.  A span that starts with a dollar
    sign and an ampersand: the restoring [replace] reads that pair in its
    replacement string as the matched text, here the placeholder.  Math
    outside a comment does come back, with the text around it escaped. *)
Theorem protected_span_not_restored :
  option_map value (sanitizeLatex (str "% $x$")) = Some (str "% MATHBLOCK0")
  /\ option_map value (sanitizeLatex (str "$&$")) = Some (str "MATHBLOCK0$")
  /\ option_map value (sanitizeLatex (str "$x_1$ is a_b"))
     = Some (str "$x_1$ is a\_b").
Proof. split; [|split]; vm_compute; reflexivity. Qed.


(** C3.  [sanitizeLatex] does not return on every input.  The restoring
    [replace] of line 92 reads a dollar sign and a quote in the stashed
    span as the text after the match, so every span [$'$] doubles what
    follows it: two spans and a letter come back as four letters, and for
    28 spans and a letter (85 code units) the text of line 110 has
    [2^29 - 1] code units, for 53 spans [2^54 - 1].  Where a string holds
    fewer code units than that, as it does in V8 for 28 spans and in every
    engine for 53, the call ends in the RangeError of a [replace] and
    returns nothing. *)
Theorem restored_text_outgrows :
  option_map value (sanitizeLatex (dollarQuotes 2)) = Some (str "x$x$x$x")
  /\ option_map value (sanitizeLatexOn (2 ^ 29 - 24) (dollarQuotes 2))
     = Some (str "x$x$x$x")
  /\ length (dollarQuotes 28) = 85
  /\ option_map (fun out => Z.of_nat (length (value out)))
       (sanitizeLatex (dollarQuotes 28)) = Some (2 ^ 29 - 1)%Z
  /\ (forall maxLength, (maxLength < 2 ^ 29 - 1)%Z ->
        sanitizeLatexOn maxLength (dollarQuotes 28) = None)
  /\ sanitizeLatexOn (2 ^ 29 - 24) (dollarQuotes 28) = None
  /\ option_map (fun out => Z.of_nat (length (value out)))
       (sanitizeLatex (dollarQuotes 53)) = Some (2 ^ 54 - 1)%Z
  /\ sanitizeLatexOn (2 ^ 53 - 1) (dollarQuotes 53) = None.
Proof.
  assert (A : option_map (fun out => Z.of_nat (length (value out)))
                (sanitizeLatex (dollarQuotes 28)) = Some (2 ^ 29 - 1)%Z).
  { apply sanitized_dollarQuotes_length, sanitized_dollarQuotes;
      vm_compute; reflexivity. }
  assert (B : option_map (fun out => Z.of_nat (length (value out)))
                (sanitizeLatex (dollarQuotes 53)) = Some (2 ^ 54 - 1)%Z).
  { apply sanitized_dollarQuotes_length, sanitized_dollarQuotes;
      vm_compute; reflexivity. }
  split; [vm_compute; reflexivity|]. split; [vm_compute; reflexivity|].
  split; [reflexivity|]. split; [exact A|].
  split; [intros maxLength L; exact (sanitizeLatexOn_none _ A L)|].
  split; [apply (sanitizeLatexOn_none _ A); reflexivity|].
  split; [exact B|]. apply (sanitizeLatexOn_none _ B). reflexivity.
Qed.
(** C4.  The blank run of the specification's example.  The six
    underscores end the input, so line 70 escapes the sixth; line 84 then
    collapses the five left into one blank of 1.5cm and the escaped
    underscore stays behind it.  A run of two between letters gets no
    blank at all.  With white space after the run, line 70 escapes nothing
    and all six collapse into one blank. *)
Theorem blank_run_leaves_underscore :
  option_map value (sanitizeLatex nameBlank)
  = Some (str "Name: \underline{\hspace{1.5cm}}\_")
  /\ option_map value (sanitizeLatex (str "a__b")) = Some (str "a_\_b")
  /\ option_map value (sanitizeLatex (nameBlank ++ str " "))
     = Some (str "Name: \underline{\hspace{1.7999999999999998cm}} ").
Proof. split; [|split]; vm_compute; reflexivity. Qed.




(* ===================================================================== *)
(** ** The extractor *)
(* ===================================================================== *)

(** C6, as the specification states it, fails.  A header numbered 0 is
    accepted.  A header in the standard format with the phrase general
    instructions on the line below it is rejected by the strategies that
    take that line into its content and returned by the fourth one, whose
    content ends with the line of the header.  A header with a marks
    label and nothing after it has an empty content span and is accepted:
    the span tested is then the marks label. *)
Lemma candidates_let_through :
  parseQuestions questionZero
  = Some [{| number := Number.ofZ 0; question := str "What is zero?"; solution := [] |}]
  /\ parseQuestions instructionsBelow
     = Some [{| number := Number.ofZ 1; question := str "} Read this first.";
                solution := [] |}]
  /\ parseQuestions marksOnly
     = Some [{| number := Number.ofZ 1; question := str "2 marks"; solution := [] |}].
Proof. split; [|split]; vm_compute; reflexivity. Qed.

(** C6, amended.  A candidate leaves [parsedQuestions] as it was when
    [parseInt] gives NaN for its number; when the span tested, which is
    the third group or else the second (line 105), is undefined or empty;
    when that span, trimmed, is shorter than 5; or when that span, in
    lower case, meets one of the five conditions of lines 116-120 (three
    phrases, and two pairs of conditions).  The number is not compared
    with zero: a record that a candidate adds has the number [parseInt]
    gave, and a header numbered 0 is accepted.  The rejection is the one
    of a candidate of one strategy: a header whose candidate the first
    strategies reject for the line below it is returned by the fourth,
    whose content ends with the line of the header; and a header with a
    marks label and no content is accepted on its label. *)
Theorem acceptance_filter :
  (forall p m parsed,
     Number.isNaN (parseInt (groupText 1 m)) = true ->
     processMatch p m parsed = parsed)
  /\ (forall p m parsed,
        truthyContent (orElse (group 3 m) (group 2 m)) = None ->
        processMatch p m parsed = parsed)
  /\ (forall p m parsed fullContent,
        truthyContent (orElse (group 3 m) (group 2 m)) = Some fullContent ->
        length (trim fullContent) < 5
        \/ includes (toLowerCase fullContent) (str "instructions to candidates") = true
        \/ includes (toLowerCase fullContent) (str "general instructions") = true
        \/ (includes (toLowerCase fullContent) (str "answer any") = true
            /\ length fullContent < 100)
        \/ includes (toLowerCase fullContent) (str "examination paper") = true
        \/ (includes (toLowerCase fullContent) (str "duration:") = true
            /\ includes (toLowerCase fullContent) (str "maximum marks:") = true) ->
        processMatch p m parsed = parsed)
  /\ (forall p m parsed q,
        In q (processMatch p m parsed) ->
        In q parsed \/ number q = parseInt (groupText 1 m))
  /\ parseQuestions questionZero
     = Some [{| number := Number.ofZ 0; question := str "What is zero?"; solution := [] |}]
  /\ parseQuestions instructionsBelow
     = Some [{| number := Number.ofZ 1; question := str "} Read this first.";
                solution := [] |}]
  /\ parseQuestions marksOnly
     = Some [{| number := Number.ofZ 1; question := str "2 marks"; solution := [] |}].
Proof.
  split; [|split; [|split; [|split; [|split; [|split]]]]].
  - intros p m parsed H. unfold processMatch. rewrite H.
    destruct (truthyContent (orElse (group 3 m) (group 2 m))); reflexivity.
  - intros p m parsed H. unfold processMatch. rewrite H. reflexivity.
  - intros p m parsed fullContent H R. unfold processMatch. rewrite H.
    destruct (Number.isNaN (parseInt (groupText 1 m))); [reflexivity|]. cbn [orb].
    destruct (length (trim fullContent) <? 5) eqn:L; [reflexivity|].
    apply Nat.ltb_ge in L.
    assert (B : isBoilerplate fullContent = true).
    { unfold isBoilerplate.
      destruct R as [R|[R|[R|[[R Q]|[R|[R Q]]]]]]; [lia| | | | |];
        try (apply Nat.ltb_lt in Q); rewrite R, ?Q;
        repeat (rewrite ?orb_true_r; cbn [orb andb]); reflexivity. }
    rewrite B. reflexivity.
  - intros p m parsed q I.
    destruct (processMatch_cases p m parsed) as [E|(qt & st & E & _)];
      rewrite E in I; [left; exact I|].
    apply in_app_or in I. destruct I as [I|[<-|[]]]; [left; exact I|right; reflexivity].
  - vm_compute; reflexivity.
  - vm_compute; reflexivity.
  - vm_compute; reflexivity.
Qed.

(** The amended C6 at the match of a header whose body is boilerplate. *)
Lemma acceptance_filter_witness :
  processMatch pattern1 boilerplateMatch [] = [].
Proof.
  apply (proj1 (proj2 (proj2 acceptance_filter)) pattern1 boilerplateMatch []
           (str " General Instructions: attempt all parts.")).
  - reflexivity.
  - right. right. left. vm_compute; reflexivity.
Defined.

(** C7.  For every document the extractor returns a list, no two entries
    of it share a number and the numbers ascend strictly; headers numbered
    3, 1, 2, 1 yield three records, numbered 1, 2, 3.  The numbers are the
    doubles [parseInt] returned: two entries share a number when their
    numbers are equal as keys of a [Map], and the order is [<] on
    doubles. *)
Theorem questions_unique_ascending :
  (forall content, exists qs,
     parseQuestions content = Some qs
     /\ ForallOrdPairs (fun a b => sameNumber a b = false) qs
     /\ StronglySorted (fun a b => Number.ltb a b = true) (map number qs))
  /\ option_map (map number) (parseQuestions headers3121)
     = Some (map Number.ofZ [1; 2; 3]%Z).
Proof.
  split.
  - intros content. unfold parseQuestions.
    destruct (@cascade_total (body content) patterns [] patterns_consume) as [parsed P].
    rewrite P. exists (uniqueQuestions parsed). split; [reflexivity|].
    destruct (uniqueQuestions_ranks (cascade_natural _ P)) as [N S].
    destruct (ranks_ascending N S) as [A B]. split; assumption.
  - vm_compute; reflexivity.
Qed.

(** C10.  Of the parsed candidates that share a number, the last one is
    kept: a record is in the final list exactly when it was parsed and no
    record parsed after it has its number.  In the example the second
    header numbered 1 gives the record; and of two headers whose numbers
    are one double, the second gives the record. *)
Theorem last_occurrence_kept :
  (forall parsed q,
     In q (uniqueQuestions parsed) <-> lastOfItsNumber q parsed)
  /\ option_map (map question) (parseQuestions headers3121)
     = Some [str "State it once more."; str "Solve for x.";
             str "Define a prime number."]
  /\ option_map (map question) (parseQuestions roundedTwins)
     = Some [str "Second question."].
Proof.
  split; [|split].
  - intros parsed q. unfold uniqueQuestions. fold (entriesOf parsed).
    rewrite sort_in. apply newMap_values.
  - vm_compute; reflexivity.
  - vm_compute; reflexivity.
Qed.

(* ===================================================================== *)
(** ** The renderer *)
(* ===================================================================== *)




(** C9, as the specification states it, fails: the output is not the bare
    inline markup. *)
Lemma renderer_example_differs :
  eqs (formatContent helloWorld) (str "<strong>Hello</strong> & <em>World</em>")
  = false.
Proof. vm_compute; reflexivity. Qed.

(** C9, amended.  Bold becomes a strong element, italic an em element and
    the escaped ampersand a plain one; the result, being one paragraph
    that is no block element, is wrapped in a paragraph element. *)
Theorem renderer_example :
  formatContent helloWorld
  = html "<p class='my-4'><strong>Hello</strong> & <em>World</em></p>".
Proof. vm_compute; reflexivity. Qed.

(* ===================================================================== *)
(** ** Further properties of the code *)
(* ===================================================================== *)

(** X1.  On text that holds no backslash, dollar sign, percent sign or
    underscore, [sanitizeLatex] puts a backslash before every ampersand
    and every hash, writes [\^{}] for every caret and leaves every other
    code unit as it is: nothing is protected, collapsed or tidied. *)
Theorem sanitize_plain_text s :
  quiet (oneOf "\$%_") s = true ->
  option_map value (sanitizeLatex s) = Some (flat_map escapeChar s).
Proof.
  intros Q. rewrite sanitizeLatex_value, (sanitized_plain s Q). reflexivity.
Qed.

Lemma sanitize_plain_text_witness :
  option_map value (sanitizeLatex (str "R&D #1 at 2^3 {ok}"))
  = Some (str "R\&D \#1 at 2\^{}3 {ok}").
Proof. exact (@sanitize_plain_text (str "R&D #1 at 2^3 {ok}") eq_refl). Defined.


(** X2.  Of the class and of the lower-cased subject the file name keeps
    exactly the lowercase letters a-z and the digits, in their order:
    every other code unit is dropped, a capital letter of the class
    included. *)
Theorem filename_parts :
  (forall studentClass,
     PdfRoute.sanitizedClass studentClass = filter lowerAlnum studentClass)
  /\ (forall subject,
     PdfRoute.sanitizedSubject subject = filter lowerAlnum (toLowerCase subject)).
Proof. split; intros s; apply replace_notAlnum. Qed.


(** X3.  Whatever the log holds, or when there is none, the message of the
    error is not empty and is at most 300 code units long. *)
Theorem errorMsg_bounds logFile :
  0 < length (PdfRoute.errorMsg logFile) <= 300.
Proof.
  unfold PdfRoute.errorMsg. destruct logFile as [logContent|]; [|simpl; lia].
  destruct (includes logContent (str "! Package")); [simpl; lia|].
  destruct (includes logContent (str "Undefined control sequence")).
  - fold undefinedRe. unfold matchFirst.
    destruct (search undefinedRe [] logContent) as [m|] eqn:S; [|simpl; lia].
    apply search_shape in S. destruct S as (_ & _ & W).
    assert (W' : 26 <= length (matched m)).
    { eapply Nat.le_trans; [|exact W]. vm_compute. reflexivity. }
    unfold substringTo. rewrite length_firstn. lia.
  - destruct (includes logContent (str "Missing $ inserted")); [simpl; lia|].
    destruct (PdfRoute.errorDetails (split [LF] logContent)) as [|d ds] eqn:D;
      [simpl; lia|].
    apply errorDetails_first in D. cbn [length Nat.ltb Nat.leb].
    unfold substringTo. rewrite length_firstn.
    assert (J : 0 < length (join (str " | ") (firstn 2 (d :: ds)))).
    { destruct ds as [|d2 ds]; cbn [firstn join]; [exact D|].
      rewrite length_app. lia. }
    lia.
Qed.

(** X4.  When the log holds [Undefined control sequence] and does not hold
    [! Package], the message is the piece of the log that starts at the
    first [Undefined control sequence] and is 126 code units long, or
    runs to the end of the log when that comes sooner: the fixed text
    about an invalid command is never used, and the cut at 200 code
    units never shortens the piece. *)
Theorem errorMsg_undefined logContent i :
  indexOf (str "Undefined control sequence") logContent = Some i ->
  includes logContent (str "! Package") = false ->
  PdfRoute.errorMsg (Some logContent) = firstn 126 (skipn i logContent).
Proof.
  intros U P. unfold PdfRoute.errorMsg. rewrite P.
  unfold includes at 1. rewrite U. fold undefinedRe. unfold matchFirst.
  rewrite undefinedRe_search, U. cbn [matched]. unfold substringTo.
  apply indexOf_found in U. destruct U as [W L].
  apply startsWith_app in W. apply (f_equal (@length _)) in W.
  rewrite length_app, !length_skipn in W. cbn [length str list_ascii_of_string] in W.
  rewrite firstn_firstn.
  destruct (Nat.le_gt_cases 100 (length logContent - i - 26)) as [G|G].
  - replace (Nat.min 200 (26 + Nat.min 100 (length logContent - i - 26))) with 126 by lia.
    reflexivity.
  - rewrite !firstn_all2 by (rewrite length_skipn; lia). reflexivity.
Qed.

Lemma errorMsg_undefined_witness :
  PdfRoute.errorMsg (Some (str "l.3 Undefined control sequence \foo"))
  = str "Undefined control sequence \foo".
Proof.
  exact (@errorMsg_undefined (str "l.3 Undefined control sequence \foo") 4
           eq_refl eq_refl).
Defined.


(** X5.  What the upload route takes out of the model's reply either
    starts with [\documentclass] or does not hold [\documentclass] at
    all: any text of the reply before the document class is dropped. *)
Theorem extractLatex_documentclass reply :
  startsWith (str "\documentclass") (Upload.extractLatex reply) = true
  \/ includes (Upload.extractLatex reply) (str "\documentclass") = false.
Proof.
  unfold Upload.extractLatex.
  match goal with |- context [matchFirst _ ?x] => set (inner := x) end.
  fold docStartRe. unfold matchFirst.
  pose proof (docStartRe_search inner) as S.
  destruct (indexOf (str "\documentclass") inner) as [i|] eqn:I.
  - left. destruct (search docStartRe [] inner) as [m|]; [|discriminate].
    cbn [option_map] in S. inversion S as [E]. rewrite E.
    apply indexOf_found in I. destruct I as [W _].
    apply startsWith_app in W. rewrite W.
    apply (@trim_keeps_prefix "\"%char (list_ascii_of_string "documentclas") "s"%char);
      reflexivity.
  - right. destruct (search docStartRe [] inner) as [m|]; [discriminate|].
    unfold includes. rewrite (@indexOf_none_trim _ _ I). reflexivity.
Qed.


(** X6.  For every document the extractor returns a list, and every
    question of it has a prompt of more than five code units with no
    white space at either end, and a solution with no white space at
    either end. *)
Theorem questions_trimmed content :
  exists qs, parseQuestions content = Some qs
    /\ Forall (fun q => 5 < length (question q)
                        /\ trim (question q) = question q
                        /\ trim (solution q) = solution q) qs.
Proof.
  apply parseQuestions_inv. intros p _ m acc i _ A. unfold processMatch.
  destruct (truthyContent (orElse (group 3 m) (group 2 m))) as [fullContent|];
    [|exact A].
  destruct (Number.isNaN (parseInt (groupText 1 m)) || (length (trim fullContent) <? 5));
    [exact A|].
  destruct (isBoilerplate fullContent); [exact A|].
  destruct (matchFirst (solutionPattern p) fullContent) as [solutionMatch|].
  - destruct (5 <? length (trim (groupText 1 solutionMatch))) eqn:L; [|exact A].
    apply Forall_app. split; [exact A|]. constructor; [|constructor].
    cbn [question solution]. apply Nat.ltb_lt in L.
    split; [exact L|]. split; [apply trim_twice|].
    destruct (group 2 solutionMatch); [apply trim_twice|reflexivity].
  - destruct (5 <? length (trim fullContent)) eqn:L; [|exact A].
    apply Forall_app. split; [exact A|]. constructor; [|constructor].
    cbn [question solution]. apply Nat.ltb_lt in L.
    split; [exact L|]. split; [apply trim_twice|reflexivity].
Qed.



(** X8.  A document that holds no digit yields the empty list of
    questions: every strategy needs a digit for the number of a
    question. *)
Theorem no_digit_no_question content :
  quiet isDigit content = true -> parseQuestions content = Some [].
Proof.
  intros Q. unfold parseQuestions.
  rewrite (@cascade_quiet (body content) (@body_quiet _ _ Q) patterns)
    by (vm_compute; reflexivity).
  reflexivity.
Qed.

Lemma no_digit_no_question_witness :
  parseQuestions (str "\textbf{Q.} \hfill \textbf{[two marks]} Define a prime number.")
  = Some [].
Proof.
  exact (@no_digit_no_question
           (str "\textbf{Q.} \hfill \textbf{[two marks]} Define a prime number.")
           eq_refl).
Defined.




(** X10.  A fragment that holds white space only, the empty fragment
    included, is rendered as the empty string: no paragraph element is
    written for it. *)
Theorem blank_fragment_empty latex :
  forallb isWhiteSpace latex = true -> formatContent latex = [].
Proof.
  intros H. unfold formatContent. rewrite (@rewrite_inert latex (@blank_mathOnly _ H)).
  unfold paragraphs, split.
  rewrite (@blank_paragraphs _ (@blank_pieces [LF; LF] latex 0 [] H eq_refl)).
  reflexivity.
Qed.

Lemma blank_fragment_empty_witness :
  formatContent [" "%char; LF; LF; TAB; LF] = [].
Proof. exact (@blank_fragment_empty [" "%char; LF; LF; TAB; LF] eq_refl). Defined.

(** X11.  In a fragment whose backslashes all stand before [&], [%], [#]
    or a bracket (as in the math delimiters), the renderer drops the
    backslashes before [&], [%] and [#] and applies no other rule: when
    the result is one paragraph that does not start with [<], it comes
    out trimmed inside one paragraph element. *)
Theorem escaped_characters_unescaped latex c rest :
  guarded (oneOf "&%#[]()") latex = true ->
  includes (unescape latex) [LF; LF] = false ->
  trim (unescape latex) = c :: rest -> c <> "<"%char ->
  formatContent latex
  = html "<p class='my-4'>" ++ trim (unescape latex) ++ html "</p>".
Proof.
  intros G B T N. unfold formatContent. rewrite (@rewrite_unescape _ G).
  apply (@paragraphs_single _ c rest B T N).
Qed.

Lemma escaped_characters_unescaped_witness :
  formatContent (str " Tom \& Jerry: 50\% of \#1, \(x\) ")
  = html "<p class='my-4'>Tom & Jerry: 50% of #1, \(x\)</p>".
Proof.
  apply (@escaped_characters_unescaped (str " Tom \& Jerry: 50\% of \#1, \(x\) ")
           "T"%char (str "om & Jerry: 50% of #1, \(x\)")).
  - reflexivity.
  - reflexivity.
  - reflexivity.
  - discriminate.
Defined.


(** X12.  Toggling the solution of a question changes whether that
    question is in the set of visible solutions and leaves every other
    question as it was; the set keeps holding each number once. *)
Theorem toggleSolution_flips questionNumber prev :
  (forall n, Preview.has n (Preview.toggleSolution questionNumber prev)
             = xorb (n =? questionNumber)%Z (Preview.has n prev))
  /\ (NoDup prev -> NoDup (Preview.toggleSolution questionNumber prev)).
Proof.
  unfold Preview.toggleSolution. destruct (Preview.has questionNumber prev) eqn:H; split.
  - intros n. rewrite has_delete. destruct (Z.eqb_spec n questionNumber) as [->|];
      simpl; [rewrite H|]; reflexivity.
  - intros N. unfold Preview.delete. apply NoDup_filter, N.
  - intros n. rewrite (@has_add n _ _ H). destruct (Z.eqb_spec n questionNumber) as [->|];
      simpl; [rewrite H|]; reflexivity.
  - intros N. unfold Preview.add. rewrite H.
    apply NoDup_app; [exact N|constructor; [intros []|constructor]|].
    intros x I [->|[]]. unfold Preview.has in H.
    assert (E : existsb (Z.eqb x) prev = true).
    { apply existsb_exists. exists x. split; [exact I|apply Z.eqb_refl]. }
    congruence.
Qed.

(** X13.  Toggling a question type in the customizer never leaves the
    list of types empty: the change is handed on with a list that is not
    empty and in which the type is present exactly when it was absent
    before; it is not handed on at all only when the type is the one
    type selected. *)
Theorem questionTypeToggle_keeps_one config type :
  match Customizer.handleQuestionTypeToggle config type with
  | Some config' =>
      0 < length (Customizer.questionTypes config')
      /\ existsb (eqs type) (Customizer.questionTypes config')
         = negb (existsb (eqs type) (Customizer.questionTypes config))
  | None =>
      0 < length (Customizer.questionTypes config)
      /\ forall t, In t (Customizer.questionTypes config) -> t = type
  end.
Proof.
  unfold Customizer.handleQuestionTypeToggle.
  destruct (existsb (eqs type) (Customizer.questionTypes config)) eqn:E.
  - destruct (0 <? length (filter _ _)) eqn:L.
    + cbn [Customizer.questionTypes]. split; [apply Nat.ltb_lt, L|].
      simpl negb. destruct (existsb (eqs type) (filter _ _)) eqn:F; [|reflexivity].
      apply existsb_exists in F. destruct F as (t & I & Q).
      apply filter_In in I. destruct I as [_ I].
      apply eqs_eq in Q. subst t. apply negb_true_iff in I.
      assert (R : eqs type type = true) by (apply eqs_eq; reflexivity). congruence.
    + apply Nat.ltb_ge in L. split.
      * apply existsb_exists in E. destruct E as (t & I & _).
        destruct (Customizer.questionTypes config); [destruct I|simpl; lia].
      * intros t I. destruct (eqs t type) eqn:Q; [apply eqs_eq, Q|exfalso].
        assert (F : In t (filter (fun t => negb (eqs t type))
                                 (Customizer.questionTypes config))).
        { apply filter_In. split; [exact I|rewrite Q; reflexivity]. }
        destruct (filter _ _); [destruct F|simpl in L; lia].
  - rewrite length_app. cbn [length]. replace (0 <? _ + 1) with true
      by (symmetry; apply Nat.ltb_lt; lia).
    cbn [Customizer.questionTypes]. split; [rewrite length_app; simpl; lia|].
    rewrite existsb_app, E. simpl.
    assert (R : eqs type type = true) by (apply eqs_eq; reflexivity).
    rewrite R. reflexivity.
Qed.

(** X14.  A change of a count in the customizer sets that count to the
    old one plus the step, or to zero when that would be negative, and
    leaves the other counts alone; the total moves by the difference.
    The same holds of the counts by marks. *)
Theorem count_changes_clamped config :
  (forall type delta,
     let config' := Customizer.handleQuestionTypeCountChange config type delta in
     Customizer.getType type (Customizer.typesOf config')
     = Z.max 0 (Customizer.getType type (Customizer.typesOf config) + delta)
     /\ (forall other, other <> type ->
           Customizer.getType other (Customizer.typesOf config')
           = Customizer.getType other (Customizer.typesOf config))
     /\ (Customizer.getTotalQuestionsByType config'
         = Customizer.getTotalQuestionsByType config
           - Customizer.getType type (Customizer.typesOf config)
           + Customizer.getType type (Customizer.typesOf config'))%Z)
  /\ (forall marks delta,
     let config' := Customizer.handleQuestionMarkCountChange config marks delta in
     Customizer.getMarks marks (Customizer.marksOf config')
     = Z.max 0 (Customizer.getMarks marks (Customizer.marksOf config) + delta)
     /\ (forall other, other <> marks ->
           Customizer.getMarks other (Customizer.marksOf config')
           = Customizer.getMarks other (Customizer.marksOf config))
     /\ (Customizer.getTotalQuestionsByMarks config'
         = Customizer.getTotalQuestionsByMarks config
           - Customizer.getMarks marks (Customizer.marksOf config)
           + Customizer.getMarks marks (Customizer.marksOf config'))%Z).
Proof.
  split.
  - intros type delta config'. subst config'.
    unfold Customizer.handleQuestionTypeCountChange,
      Customizer.getTotalQuestionsByType, Customizer.typesOf at 1 3 5.
    cbn [Customizer.questionsByType].
    split; [destruct type; reflexivity|]. split.
    + intros other N. destruct type; destruct other; try reflexivity; contradiction.
    + destruct type; cbn; lia.
  - intros marks delta config'. subst config'.
    unfold Customizer.handleQuestionMarkCountChange,
      Customizer.getTotalQuestionsByMarks, Customizer.marksOf at 1 3 5.
    cbn [Customizer.questionsByMarks].
    split; [destruct marks; reflexivity|]. split.
    + intros other N. destruct marks; destruct other; try reflexivity; contradiction.
    + destruct marks; cbn; lia.
Qed.


(** X15.  On text in which no two underscores stand next to each other,
    the escaping step of the sanitizer (lines 70-74) changes nothing
    when it is applied to its own result. *)
Theorem escaping_twice s :
  includes s (str "__") = false ->
  Sanitizer.escapeSpecials (Sanitizer.escapeSpecials s) = Sanitizer.escapeSpecials s.
Proof.
  intros D.
  assert (E : forall t, Sanitizer.escapeSpecials t = escapeEach None t).
  { intros t. rewrite escapeSpecials_passes. apply (passes_escapeEach t None). }
  rewrite !E. apply escapeEach_again; [reflexivity|exact D].
Qed.

Lemma escaping_twice_witness :
  Sanitizer.escapeSpecials (Sanitizer.escapeSpecials (str "a_b & 50% of #1 c_ d^2"))
  = Sanitizer.escapeSpecials (str "a_b & 50% of #1 c_ d^2").
Proof. exact (@escaping_twice (str "a_b & 50% of #1 c_ d^2") eq_refl). Defined.


(** X16.  On text that holds no backslash, dollar sign, percent sign or
    underscore, sanitizing is idempotent: sanitizing the sanitized text
    returns it unchanged. *)
Theorem sanitize_plain_twice s t :
  quiet (oneOf "\$%_") s = true ->
  option_map value (sanitizeLatex s) = Some t ->
  option_map value (sanitizeLatex t) = Some t.
Proof.
  intros Q H. rewrite sanitizeLatex_value, (sanitized_plain s Q) in H.
  inversion H; subst t. rewrite sanitizeLatex_value, (sanitized_escaped s Q).
  reflexivity.
Qed.

Lemma sanitize_plain_twice_witness :
  option_map value (sanitizeLatex (str "R\&D \#1 at 2\^{}3"))
  = Some (str "R\&D \#1 at 2\^{}3").
Proof.
  apply (@sanitize_plain_twice (str "R&D #1 at 2^3")); vm_compute; reflexivity.
Defined.

(** X17.  For text that holds no backslash, dollar sign, percent sign or
    underscore, the PDF route hands the compiler the escaped text: the
    rewrites that take solutions out change nothing, so the text is the
    same whether solutions are wanted or not. *)
Theorem processedLatex_plain latex includeSolutions :
  quiet (oneOf "\$%_") latex = true ->
  PdfRoute.processedLatex latex includeSolutions = Some (flat_map escapeChar latex).
Proof.
  intros Q. unfold PdfRoute.processedLatex.
  pose proof (sanitizeLatex_value latex) as V.
  destruct (sanitizeLatex latex) as [out|]; [|discriminate].
  cbn [option_map] in V. inversion V as [E]. rewrite E, (sanitized_plain latex Q).
  destruct includeSolutions; [reflexivity|].
  rewrite (removeSolutions_escaped latex Q). reflexivity.
Qed.

Lemma processedLatex_plain_witness :
  PdfRoute.processedLatex (str "Solution: 2^3 & more") false
  = Some (str "Solution: 2\^{}3 \& more").
Proof. exact (@processedLatex_plain (str "Solution: 2^3 & more") false eq_refl). Defined.


(** X18.  One formula between dollar signs, in text that holds no
    backslash, dollar sign, percent sign or underscore of its own, comes
    back as it was written, with the text around it escaped, when the text
    before it does not hold [MATHBLOCK0], the formula is not empty, holds
    no dollar sign, does not begin with [&], a back quote or a quote, and
    holds none of [\begin{enumerate}[], [\textbf] and [\textit]. *)
Theorem formula_kept a c m b :
  quiet (oneOf "\$%_") a = true -> quiet (oneOf "\$%_") b = true ->
  includes a (mathPlaceholder 0) = false ->
  quiet (oneOf "$") (c :: m) = true -> oneOf "&`'" c = false ->
  existsb (includes (c :: m))
          [str "\begin{enumerate}["; str "\textbf"; str "\textit"] = false ->
  option_map value (sanitizeLatex (a ++ str "$" ++ (c :: m) ++ str "$" ++ b))
  = Some (flat_map escapeChar a ++ str "$" ++ (c :: m) ++ str "$"
          ++ flat_map escapeChar b).
Proof.
  intros Qa Qb I Qm O C. rewrite sanitizeLatex_value.
  f_equal. exact (@sanitized_math a c m b Qa Qb I Qm O C).
Qed.

Lemma formula_kept_witness :
  option_map value (sanitizeLatex (str "R&D: $x_1 ^ 2 \times 50\%$ of #1"))
  = Some (str "R\&D: $x_1 ^ 2 \times 50\%$ of \#1").
Proof.
  apply (@formula_kept (str "R&D: ") "x"%char (str "_1 ^ 2 \times 50\%") (str " of #1"));
    vm_compute; reflexivity.
Defined.




